(** * Verification of the blog importer (helix-projects-notypescript)

    The development embeds [src/utils/DOM.js] (the [DOM] helper class and the
    two [Importer] variants) in Rocq.  Pure string helpers are plain
    functions; the functions that rewrite the document run in a small
    state-and-exception monad over an explicit node store, so that moving a
    node, replacing it or querying the tree behave as they do on a shared,
    mutable DOM. *)

From Stdlib Require Import String Ascii ZArith Lia List.
From stdpp Require Import gmap strings list sorting.

Local Open Scope string_scope.
Local Open Scope Z_scope.
Local Open Scope list_scope.

(** ** JavaScript string primitives

    Only the primitives the importer calls, with the index conventions of
    the language written out: indices are integers, out-of-range reads give
    the empty string, [substring] clamps and swaps its bounds, [slice]
    counts negative bounds from the end. *)
Module JsString.

Definition len (s : string) : Z := Z.of_nat (String.length s).

Definition clamp (lo hi x : Z) : Z := Z.max lo (Z.min hi x).

  (** [s.charAt(i)] *)
Definition charAt (s : string) (i : Z) : string :=
    if (0 <=? i) && (i <? len s) then substring (Z.to_nat i) 1 s else "".

  (** [s.substring(a, b)] *)
Definition substring2 (s : string) (a b : Z) : string :=
    let a := clamp 0 (len s) a in
    let b := clamp 0 (len s) b in
    let lo := Z.min a b in
    let hi := Z.max a b in
    substring (Z.to_nat lo) (Z.to_nat (hi - lo)) s.

  (** [s.substring(a)] *)
Definition substring1 (s : string) (a : Z) : string := substring2 s a (len s).

  (** [s.slice(a, b)] *)
Definition slice (s : string) (a b : Z) : string :=
    let rel x := if x <? 0 then Z.max 0 (len s + x) else Z.min x (len s) in
    let from := rel a in
    let to := rel b in
    substring (Z.to_nat from) (Z.to_nat (Z.max 0 (to - from))) s.

  (** [s.indexOf(c)] for a one-character needle, [-1] when absent. *)
Fixpoint indexOf_from (c : ascii) (s : string) (i : Z) : Z :=
    match s with
    | EmptyString => -1
    | String x s' => if Ascii.eqb x c then i else indexOf_from c s' (i + 1)
    end.
Definition indexOf (s : string) (c : ascii) : Z := indexOf_from c s 0.

  (** [s.startsWith(p)] *)
Definition startsWith (s p : string) : bool := String.prefix p s.

  (** [s.replace(/p/gm, '')] for a literal pattern [p]: every match, scanning
      left to right without overlap, is dropped.  [skip] counts the
      characters of the current match still to be consumed. *)
Fixpoint remove_all_from (p : string) (skip : nat) (s : string) : string :=
    match s with
    | EmptyString => EmptyString
    | String c s' =>
        match skip with
        | S k => remove_all_from p k s'
        | O =>
            match p with
            | EmptyString => String c (remove_all_from p O s')
            | String _ p' =>
                if String.prefix p s then remove_all_from p (String.length p') s'
                else String c (remove_all_from p O s')
            end
        end
    end.
Definition remove_all (p s : string) : string := remove_all_from p O s.

  (** [s.replace(/[...]/gm, '')] for a character class. *)
Fixpoint remove_chars (cls : ascii -> bool) (s : string) : string :=
    match s with
    | EmptyString => EmptyString
    | String c s' =>
        if cls c then remove_chars cls s' else String c (remove_chars cls s')
    end.

  (** [/[...]/.test(s)]: some character of [s] is in the class. *)
Fixpoint test_class (cls : ascii -> bool) (s : string) : bool :=
    match s with
    | EmptyString => false
    | String c s' => cls c || test_class cls s'
    end.

Definition in_range (lo hi : nat) (c : ascii) : bool :=
    let n := nat_of_ascii c in (Nat.leb lo n && Nat.leb n hi)%bool.

  (** The class [[A-Za-z0-9]]. *)
Definition alnum (c : ascii) : bool :=
    in_range 65 90 c || in_range 97 122 c || in_range 48 57 c.

  (** White space as [trim] sees it, for code units below 256. *)
Definition white (c : ascii) : bool :=
    let n := nat_of_ascii c in
    (Nat.leb 9 n && Nat.leb n 13)%bool || Nat.eqb n 32 || Nat.eqb n 160.

Fixpoint trimStart (s : string) : string :=
    match s with
    | EmptyString => EmptyString
    | String c s' => if white c then trimStart s' else s
    end.

Fixpoint trimEnd (s : string) : string :=
    match s with
    | EmptyString => EmptyString
    | String c s' =>
        match trimEnd s' with
        | EmptyString => if white c then EmptyString else String c EmptyString
        | t => String c t
        end
    end.

  (** [s.trim()] *)
Definition trim (s : string) : string := trimEnd (trimStart s).

  (** [s.split(sep)] for a one-character separator. *)
Fixpoint split (sep : ascii) (s : string) : list string :=
    match s with
    | EmptyString => [EmptyString]
    | String c s' =>
        if Ascii.eqb c sep then EmptyString :: split sep s'
        else match split sep s' with
             | [] => [String c EmptyString]
             | w :: ws => String c w :: ws
             end
    end.

End JsString.

(** ** Name derivation: [Importer.cleanupName]

    Both importer variants carry the same text. *)
Definition cleanupName (name : string) : string :=
  let n := name in
  let firstChar := JsString.charAt n 0 in
  let lastChar := JsString.charAt n (JsString.len n - 1) in
  let n :=
    if negb (JsString.test_class JsString.alnum firstChar)
    then JsString.substring1 n 1 else n in
  let n :=
    if negb (JsString.test_class JsString.alnum lastChar)
    then JsString.slice n 0 (-1) else n in
  n.

(** The specification's reading of the same function, on the characters
    of the name: the first character goes when it is not alphanumeric, the
    last one goes when it is not alphanumeric, both tests being made on the
    name as given. *)
Module NameSpec.

Definition first_char (s : string) : option ascii :=
    match s with
    | EmptyString => None
    | String c _ => Some c
    end.

Fixpoint last_char (s : string) : option ascii :=
    match s with
    | EmptyString => None
    | String c EmptyString => Some c
    | String _ s' => last_char s'
    end.

Definition drop_first (s : string) : string :=
    match s with
    | EmptyString => EmptyString
    | String _ s' => s'
    end.

Fixpoint drop_last (s : string) : string :=
    match s with
    | EmptyString => EmptyString
    | String _ EmptyString => EmptyString
    | String c s' => String c (drop_last s')
    end.

Definition non_alnum (o : option ascii) : bool :=
    match o with
    | Some c => negb (JsString.alnum c)
    | None => false
    end.

Definition strip_ends (name : string) : string :=
    let front := non_alnum (first_char name) in
    let back := non_alnum (last_char name) in
    let n := if front then drop_first name else name in
    if back then drop_last n else n.

  (** How many characters go at each end. *)
Definition front_cut (name : string) : nat :=
    if non_alnum (first_char name) then 1 else 0.
Definition back_cut (name : string) : nat :=
    if non_alnum (last_char name) then 1 else 0.

End NameSpec.


(** ** The document store

    A document is a store of nodes addressed by identity.  Each node
    records its tag, class list, attributes, its ordered children, its
    parent, and the string that reading [style['background-image']] gives:
    empty without such a style, and otherwise the declared value as the
    host serializes it, the quotes around the address being the host's
    (none, or the double quotes of the standard serialization).  A child is
    either another element or a run of markup, the latter standing for
    whatever the parser builds from that text: the elements inside a run
    are not nodes of the store and no query finds them. *)

Abbreviation nid := nat.

Inductive item :=
| Markup (s : string)
| Elem (n : nid).

#[global] Instance item_eq_dec : EqDecision item.
Proof. solve_decision. Defined.

Record node := Node {
  tag : string;
  classes : list string;
  attrs : gmap string string;
  bgImage : string;
  kids : list item;
  parent : option nid;
}.

Definition blank : node := Node "" [] ∅ "" [] None.

Record dom := Dom {
  nodes : gmap nat node;
  next : nid;
}.

Definition node_at (d : dom) (x : nid) : node := default blank (nodes d !! x).

Definition tagOf (d : dom) (x : nid) : string := tag (node_at d x).
Definition classesOf (d : dom) (x : nid) : list string := classes (node_at d x).
Definition attrsOf (d : dom) (x : nid) : gmap string string := attrs (node_at d x).
Definition bgImageOf (d : dom) (x : nid) : string := bgImage (node_at d x).
Definition kidsOf (d : dom) (x : nid) : list item := kids (node_at d x).
Definition parentOf (d : dom) (x : nid) : option nid := parent (node_at d x).

Definition elems (l : list item) : list nid :=
  omap (λ it, match it with Elem n => Some n | Markup _ => None end) l.

(** In-place updates of one node. *)
Definition put (x : nid) (n : node) (d : dom) : dom :=
  Dom (<[x := n]> (nodes d)) (next d).

Definition setKids (x : nid) (ks : list item) (d : dom) : dom :=
  let n := node_at d x in
  put x (Node (tag n) (classes n) (attrs n) (bgImage n) ks (parent n)) d.

Definition setParent (x : nid) (p : option nid) (d : dom) : dom :=
  let n := node_at d x in
  put x (Node (tag n) (classes n) (attrs n) (bgImage n) (kids n) p) d.

Definition setAttrs (x : nid) (a : gmap string string) (d : dom) : dom :=
  let n := node_at d x in
  put x (Node (tag n) (classes n) a (bgImage n) (kids n) (parent n)) d.

(** ** Exceptions and the importer monad *)

Inductive exn :=
| HierarchyRequestError
| TypeError.

Inductive result (A : Type) :=
| Ok (a : A)
| Throw (e : exn).
Arguments Ok {A} a.
Arguments Throw {A} e.

Definition M (A : Type) : Type := dom → result (A * dom).

#[global] Instance M_ret : MRet M := λ A a d, Ok (a, d).
#[global] Instance M_bind : MBind M := λ A B k m d,
  match m d with
  | Ok (a, d') => k a d'
  | Throw e => Throw e
  end.

Definition getDom : M dom := λ d, Ok (d, d).
Definition modify (f : dom → dom) : M unit := λ d, Ok (tt, f d).
Definition throw {A} (e : exn) : M A := λ _, Throw e.

(** [list.forEach(f)] and [list.forEach((x, index) => ...)] *)
Fixpoint forEach {X} (f : X → M unit) (l : list X) : M unit :=
  match l with
  | [] => mret tt
  | x :: l' => f x;; forEach f l'
  end.

Fixpoint forEach_from {X} (f : X → nat → M unit) (i : nat) (l : list X) : M unit :=
  match l with
  | [] => mret tt
  | x :: l' => f x i;; forEach_from f (S i) l'
  end.

Definition forEachi {X} (f : X → nat → M unit) (l : list X) : M unit :=
  forEach_from f 0%nat l.

(** ** DOM primitives *)

(** [document.createElement(t)]: a fresh, detached, empty element. *)
Definition alloc (t : string) (d : dom) : dom :=
  Dom (<[next d := Node t [] ∅ "" [] None]> (nodes d)) (S (next d)).

Definition createElement (t : string) : M nid := λ d, Ok (next d, alloc t d).

(** The chain of ancestors of [x], nearest first.  No chain in a store of
    [next d] nodes is longer than [next d]. *)
Fixpoint ancestors (d : dom) (fuel : nat) (x : nid) : list nid :=
  match fuel with
  | O => []
  | S f =>
      match parentOf d x with
      | Some p => p :: ancestors d f p
      | None => []
      end
  end.

Definition is_inclusive_ancestor (d : dom) (a x : nid) : bool :=
  bool_decide (a ∈ x :: ancestors d (next d) x).

(** Taking [c] out of its parent's children. *)
Definition detach (c : nid) (d : dom) : dom :=
  match parentOf d c with
  | Some q =>
      setParent c None (setKids q (filter (λ it, it ≠ Elem c) (kidsOf d q)) d)
  | None => d
  end.

(** [p.append(c)] and [p.appendChild(c)] for an element [c]: refused when
    [c] is [p] or one of its ancestors, otherwise [c] leaves its former
    parent and becomes the last child of [p]. *)
Definition adopt (p c : nid) (d : dom) : dom :=
  let d1 := detach c d in
  setParent c (Some p) (setKids p (kidsOf d1 p ++ [Elem c]) d1).

Definition append (p c : nid) : M unit := λ d,
  if is_inclusive_ancestor d c p then Throw HierarchyRequestError
  else Ok (tt, adopt p c d).

Definition appendChild (p c : nid) : M unit := append p c.

(** [old.replaceWith(new)]: nothing happens to a node without a parent;
    otherwise [new] takes the place of [old] among the parent's children. *)
Definition subst_item (old new : nid) (ks : list item) : list item :=
  (λ it, if decide (it = Elem old) then Elem new else it) <$> ks.

Definition swap (p old new : nid) (d : dom) : dom :=
  let d1 := detach new d in
  setParent new (Some p)
    (setParent old None (setKids p (subst_item old new (kidsOf d1 p)) d1)).

Definition replaceWith (old new : nid) : M unit := λ d,
  match parentOf d old with
  | None => Ok (tt, d)
  | Some p =>
      if decide (new = old) then Ok (tt, d)
      else if is_inclusive_ancestor d new p then Throw HierarchyRequestError
      else Ok (tt, swap p old new d)
  end.

(** [x.innerHTML = s]: the former children are detached and the content
    becomes the markup [s], kept as one run.  The elements a parser builds
    from [s] are not nodes of the store: what is stated of a later query
    below [x] is stated for markup that holds no element the query looks
    for. *)
Definition orphan (cs : list nid) (d : dom) : dom :=
  foldr (λ c, setParent c None) d cs.

Definition rewrite_markup (x : nid) (s : string) (d : dom) : dom :=
  setKids x [Markup s] (orphan (elems (kidsOf d x)) d).

Definition setInnerHTML (x : nid) (s : string) : M unit :=
  modify (rewrite_markup x s).

(** [x.getAttribute(k)], [null] being [None]. *)
Definition getAttribute (d : dom) (x : nid) (k : string) : option string :=
  attrsOf d x !! k.

(** [x.setAttribute(k, v)]; also what assigning [img.src] amounts to. *)
Definition setAttribute (x : nid) (k v : string) : M unit :=
  modify (λ d, setAttrs x (<[k := v]> (attrsOf d x)) d).

(** [x.classList.contains(c)] *)
Definition classList_contains (d : dom) (x : nid) (c : string) : bool :=
  bool_decide (c ∈ classesOf d x).

(** The [content] property, which only [meta] elements have: it reflects
    the attribute, empty when missing; on any other element the property is
    [undefined] ([None]). *)
Definition contentOf (d : dom) (x : nid) : option string :=
  if decide (tagOf d x = "meta")
  then Some (default "" (getAttribute d x "content"))
  else None.

(** The selectors the importer uses. *)
Inductive selector :=
| ByTag (t : string)
| ByClass (c : string)
| ByAttr (k v : string).

Definition matches (d : dom) (sel : selector) (x : nid) : bool :=
  match sel with
  | ByTag t => bool_decide (tagOf d x = t)
  | ByClass c => classList_contains d x c
  | ByAttr k v => bool_decide (getAttribute d x k = Some v)
  end.

(** The elements below [x] in document order. *)
Fixpoint descendants (d : dom) (fuel : nat) (x : nid) : list nid :=
  match fuel with
  | O => []
  | S f => elems (kidsOf d x) ≫= λ c, c :: descendants d f c
  end.

(** [x.querySelectorAll(sel)] and [x.querySelector(sel)] *)
Definition querySelectorAll (d : dom) (x : nid) (sel : selector) : list nid :=
  filter (λ y, matches d sel y = true) (descendants d (next d) x).

Definition querySelector (d : dom) (x : nid) (sel : selector) : option nid :=
  head (querySelectorAll d x sel).

(** What the host environment computes from a subtree or from a text and
    the importer takes as given: the serializations of a node, and the
    image address found in the structured-data script of a page (see
    [createMetadata2]). *)
Class Host := {
  innerHTML : dom → nid → string;
  textContent : dom → nid → string;
  graphImageUrl : string → option string;
}.

(** Truthiness of a value that is a string or [null]. *)
Definition truthy (o : option string) : bool :=
  match o with
  | Some s => negb (String.eqb s "")
  | None => false
  end.

(** ** [DOM.createTable] *)

(** A cell is a string, an array of elements or a single element. *)
Inductive cell :=
| CString (s : string)
| CArray (cs : list nid)
| CNode (c : nid).

Definition fillCell (t : nid) (c : cell) : M unit :=
  match c with
  | CString s => setInnerHTML t s
  | CArray cs => forEach (λ c, append t c) cs
  | CNode c => append t c
  end.

Definition addCell (index : nat) (tr : nid) (c : cell) : M unit :=
  t ← createElement (if decide (index = 0%nat) then "th" else "td");
  fillCell t c;;
  appendChild tr t.

Definition addRow (table : nid) (row : list cell) (index : nat) : M unit :=
  tr ← createElement "tr";
  forEach (addCell index tr) row;;
  appendChild table tr.

Definition createTable (data : list (list cell)) : M nid :=
  table ← createElement "table";
  forEachi (addRow table) data;;
  mret table.

(** ** [DOM.replaceBackgroundByImg] *)

Definition replaceBackgroundByImg (tag : nid) : M nid :=
  d ← getDom;
  let url := bgImageOf d tag in
  if negb (String.eqb url "") then
    let src :=
      JsString.remove_all ")"
        (JsString.remove_all "'" (JsString.remove_all "url(" url)) in
    img ← createElement "img";
    setAttribute img "src" src;;
    replaceWith tag img;;
    mret img
  else mret tag.

(** ** The importer

    The two [Importer] variants share the text of [cleanupName],
    [createEmbeds], [createCallouts] and [createRelatedPostsBlock]; the
    second one takes its table builder from the framework, whose contract
    is that of [DOM.createTable].  They differ in [createMetadata] and in
    [postProcessMD]. *)

(** What the importing framework supplies: the renderer of the metadata
    block and the inherited [postProcessMD], which works on the code units
    of the rendered text. *)
Inductive value :=
| VString (s : string)
| VElement (x : nid)
| VUndefined.

(** A JavaScript object used as an ordered map: assigning to an existing
    key keeps its place, a new key goes last. *)
Definition object := list (string * value).

Fixpoint obj_set (o : object) (k : string) (v : value) : object :=
  match o with
  | [] => [(k, v)]
  | (k', v') :: o' =>
      if decide (k' = k) then (k, v) :: o' else (k', v') :: obj_set o' k v
  end.

Fixpoint obj_get (o : object) (k : string) : option value :=
  match o with
  | [] => None
  | (k', v') :: o' => if decide (k' = k) then Some v' else obj_get o' k
  end.

Definition obj_has (o : object) (k : string) : bool :=
  bool_decide (is_Some (obj_get o k)).

Class Framework := {
  getMetadataBlock : object → M nid;
  super_postProcessMD : list N → list N;
}.

Definition dq : string := String (ascii_of_nat 34) EmptyString.

(** The markup [<a href="src">src</a>]. *)
Definition anchor (src : string) : string :=
  "<a href=" +:+ dq +:+ src +:+ dq +:+ ">" +:+ src +:+ "</a>".

(** *** [createEmbeds] *)

Definition embedSrc (d : dom) (embed : nid) : option string :=
  let src := getAttribute d embed "src" in
  if truthy src && JsString.startsWith (default "" src) "//"
  then Some ("https:" +:+ default "" src)
  else src.

Definition embedToBlock (embed : nid) : M unit :=
  d ← getDom;
  let src := embedSrc d embed in
  if truthy src then
    table ← createTable [[CString "Embed"]; [CString (anchor (default "" src))]];
    replaceWith embed table
  else mret tt.

Definition createEmbeds (main : nid) : M unit :=
  d ← getDom;
  forEach embedToBlock (querySelectorAll d main (ByTag "iframe")).

(** *** [createCallouts] *)

Definition blockName (d : dom) (callout : nid) : string :=
  let blockName := "Callout" in
  if classList_contains d callout "blogPostContent__ctaContainer--right"
  then blockName +:+ " (right)"
  else if classList_contains d callout "blogPostContent__ctaContainer--left"
  then blockName +:+ " (left)"
  else blockName.

Definition calloutToBlock `{Host} (callout : nid) : M unit :=
  let rows := [] in
  d ← getDom;
  let rows := rows ++ [[CString (blockName d callout)]] in
  container ← createElement "div";
  d ← getDom;
  match querySelector d callout (ByClass "blogPostContent__ctaText") with
  | Some firstText =>
      h ← createElement "h3";
      d ← getDom;
      setInnerHTML h (textContent d firstText);;
      append container h
  | None => mret tt
  end;;
  d ← getDom;
  match querySelector d callout (ByClass "blogPostContent__ctaSubheading") with
  | Some sub =>
      p ← createElement "p";
      d ← getDom;
      setInnerHTML p (innerHTML d sub);;
      append container p
  | None => mret tt
  end;;
  let rows := rows ++ [[CNode container]] in
  d ← getDom;
  let cta := querySelector d callout (ByTag "a") in
  let rows :=
    match cta with
    | Some cta => rows ++ [[CNode cta]]
    | None => rows
    end in
  table ← createTable rows;
  replaceWith callout table.

Definition createCallouts `{Host} (main : nid) : M unit :=
  d ← getDom;
  forEach calloutToBlock
    (querySelectorAll d main (ByClass "blogPostContent__ctaContainer")).

(** *** [createRelatedPostsBlock] *)

(** A node list is an object, and every object is truthy. *)
Definition nodeList_truthy (l : list nid) : bool := true.

(** Assigning [null] to [innerHTML] writes the empty string. *)
Definition null_to_empty (o : option string) : string := default "" o.

Definition relatedRow (r : nid) : M (list cell) :=
  d ← getDom;
  setInnerHTML r (null_to_empty (getAttribute d r "href"));;
  mret [CNode r].

Fixpoint relatedRows (cells : list (list cell)) (related : list nid)
  : M (list (list cell)) :=
  match related with
  | [] => mret cells
  | r :: related' =>
      row ← relatedRow r;
      relatedRows (cells ++ [row]) related'
  end.

Definition createRelatedPostsBlock (main document : nid) : M unit :=
  d ← getDom;
  let related := querySelectorAll d document (ByClass "blogPostsBlock__titleLink") in
  if nodeList_truthy related then
    let cells := [] in
    let cells := cells ++ [[CString "Related Posts"]] in
    cells ← relatedRows cells related;
    table ← createTable cells;
    append main table
  else mret tt.

(** *** [createMetadata] *)

Definition nl_or_tab (c : ascii) : bool :=
  Ascii.eqb c "010"%char || Ascii.eqb c "009"%char.

(** The fields both variants read, in the order of the source. *)
Definition metadataFields `{Host} (main document : nid) : M object :=
  let meta := [] in
  d ← getDom;
  let meta :=
    match querySelector d document (ByTag "title") with
    | Some title =>
        obj_set meta "Title"
          (VString (JsString.remove_chars nl_or_tab (innerHTML d title)))
    | None => meta
    end in
  let meta :=
    match querySelector d document (ByAttr "property" "og:description") with
    | Some desc =>
        obj_set meta "Description"
          (from_option VString VUndefined (contentOf d desc))
    | None => meta
    end in
  let meta :=
    match querySelector d document (ByAttr "property" "article:section") with
    | Some category =>
        obj_set meta "Category"
          (from_option VString VUndefined (contentOf d category))
    | None => meta
    end in
  meta ←
    match querySelector d document (ByAttr "property" "article:published_time") with
    | Some date =>
        match contentOf d date with
        | Some content =>
            mret (obj_set meta "Publication Date"
                    (VString (JsString.substring2 content 0
                                (JsString.indexOf content "T"%char))))
        | None => throw TypeError
        end
    | None => mret meta
    end;
  let meta :=
    match querySelector d main (ByAttr "rel" "author") with
    | Some author => obj_set meta "Author" (VElement author)
    | None => meta
    end in
  let meta :=
    match querySelector d main (ByClass "blogPostContent__metaTop") with
    | Some metatop =>
        let split := JsString.split "010"%char (JsString.trim (textContent d metatop)) in
        if decide (length split = 3%nat)
        then obj_set meta "Read Time" (VString (JsString.trim (default "" (split !! 2%nat))))
        else meta
    | None => meta
    end in
  match querySelector d document (ByAttr "property" "og:image") with
  | Some img =>
      el ← createElement "img";
      setAttribute el "src" (default "undefined" (contentOf d img));;
      mret (obj_set meta "Image" (VElement el))
  | None => mret meta
  end.

(** Variant 1. *)
Definition createMetadata `{Host} `{Framework} (main document : nid) : M object :=
  meta ← metadataFields main document;
  block ← getMetadataBlock meta;
  append main block;;
  mret meta.

(** Variant 2 adds the card image between the fields and the block.  The
    match of the script pattern against the page text, the parse of the
    captured JSON and the read of [obj['@graph'][2].image?.url] are
    [graphImageUrl]: it gives the address when every step succeeds and the
    address is truthy, and nothing otherwise, a parse failure being caught
    and logged. *)
Definition createMetadata2 `{Host} `{Framework} (main document : nid) (html : string)
  : M object :=
  meta ← metadataFields main document;
  meta ←
    match graphImageUrl html with
    | Some url =>
        el ← createElement "img";
        setAttribute el "src" url;;
        mret (obj_set meta "Card Image" (VElement el))
    | None => mret meta
    end;
  block ← getMetadataBlock meta;
  append main block;;
  mret meta.

(** *** [postProcessMD] *)

(** [ret.replace(/\uXXXX/g, r)]: every code unit equal to [u] becomes [r]. *)
Definition replace_unit (u : N) (r : list N) (s : list N) : list N :=
  s ≫= λ c, if N.eqb c u then r else [c].

(** Variant 1. *)
Definition postProcessMD `{Framework} (md : list N) : list N :=
  let ret := super_postProcessMD md in
  let ret := replace_unit 160 [] ret in
  ret.

(** The two decimal digits [x] of the loop counter, and [x] read back as a
    hexadecimal number, which is what both [parseInt(`00${x}`, 16)] and the
    pattern [\u00${x}] do. *)
Definition decimal_digits (i : nat) : list N :=
  if Nat.ltb i 10 then [0%N; N.of_nat i]
  else [N.of_nat (i / 10); N.of_nat (i mod 10)].

Definition parse_hex (digits : list N) : N :=
  fold_left (λ acc dgt, 16 * acc + dgt)%N digits 0%N.

(** Variant 2. *)
Definition postProcessMD2 `{Framework} (md : list N) : list N :=
  let ret := super_postProcessMD md in
  let ret :=
    fold_left
      (λ ret i,
         let x := decimal_digits i in
         let c := [parse_hex ([0%N; 0%N] ++ x)] in
         let reg := parse_hex x in
         let r := [length c] ≫= (λ _, [32%N]) in
         replace_unit reg r ret)
      (seq 0 20) ret in
  let ret := replace_unit 160 [] ret in
  ret.

(** *** The destination path of [process] *)

(** The array methods [process] uses on the segments of a directory. *)
Module JsArray.

  (** [l.join(sep)] *)
Fixpoint join (sep : string) (l : list string) : string :=
    match l with
    | [] => ""
    | [x] => x
    | x :: l' => x +:+ sep +:+ join sep l'
    end.

  (** [l.filter((p, i) => keep p i)], [i] counting from [from]. *)
Fixpoint filter_from {A} (keep : A → nat → bool) (from : nat) (l : list A)
    : list A :=
    match l with
    | [] => []
    | x :: l' =>
        if keep x from then x :: filter_from keep (S from) l'
        else filter_from keep (S from) l'
    end.

Definition filter {A} (keep : A → nat → bool) (l : list A) : list A :=
    filter_from keep 0 l.

End JsArray.

(** [`blog${s.filter((p, i) => i > 2).join('/')}`] for [s = dir.split('/')],
    [dir] being the directory [path.parse] finds in the path of the
    address. *)
Definition subPath (dir : string) : string :=
  let s := JsString.split "/"%char dir in
  "blog" +:+ JsArray.join "/" (JsArray.filter (λ _ i, Nat.ltb 2 i) s).

(** *** [createTOC] (variant 2) *)

Definition createTOC (main : nid) : M unit :=
  d ← getDom;
  let toc := querySelector d main (ByClass "blogPostContentToc") in
  match toc with
  | Some toc =>
      table ← createTable [[CString "TOC"]];
      replaceWith toc table
  | None => mret tt
  end.

(** *** [cleanupHeadings] *)

(** [x.querySelectorAll('s1, s2, ...')]: a selector list matches what one of
    its selectors matches; the result is in document order. *)
Definition querySelectorAllOf (d : dom) (x : nid) (sels : list selector)
  : list nid :=
  filter (λ y, existsb (λ sel, matches d sel y) sels = true)
    (descendants d (next d) x).

Definition heading_selectors : list selector :=
  [ByTag "h1"; ByTag "h2"; ByTag "h3"; ByTag "h4"; ByTag "h5"; ByTag "h6"].

Definition cleanupHeadings `{Host} (main : nid) : M unit :=
  d ← getDom;
  forEach (λ h, dd ← getDom; setInnerHTML h (textContent dd h))
    (querySelectorAllOf d main heading_selectors).

(** *** The hero step of [process] *)

(** [x.before(new)] for an element [new], in the document [document]:
    nothing happens to a node without a parent; [new] is refused when it is
    the parent of [x] or one of its ancestors, and when the parent of [x]
    is the document, which takes no element beside the one it has;
    otherwise [new] leaves its former parent and becomes the sibling just
    before [x].  A node put before itself stays where it is. *)
Definition insert_before (ref new : nid) (ks : list item) : list item :=
  ks ≫= λ it, if decide (it = Elem ref) then [Elem new; Elem ref] else [it].

Definition place_before (p x new : nid) (d : dom) : dom :=
  let d1 := detach new d in
  setParent new (Some p) (setKids p (insert_before x new (kidsOf d1 p)) d1).

Definition before (document x new : nid) : M unit := λ d,
  match parentOf d x with
  | None => Ok (tt, d)
  | Some p =>
      if is_inclusive_ancestor d new p then Throw HierarchyRequestError
      else if decide (p = document) then Throw HierarchyRequestError
      else if decide (new = x) then Ok (tt, d)
      else Ok (tt, place_before p x new d)
  end.

(** The title and the banner are looked up, the banner gives way to its
    image, and the title is put before the image:
    [const title = document.querySelector('h1');
     let hero = document.querySelector('.blogPostBanner__img');
     if (hero) { hero = DOM.replaceBackgroundByImg(hero, document);
                 if (title) hero.before(title); }] *)
Definition processHero (document : nid) : M unit :=
  d ← getDom;
  let title := querySelector d document (ByTag "h1") in
  let hero := querySelector d document (ByClass "blogPostBanner__img") in
  match hero with
  | Some hero =>
      hero ← replaceBackgroundByImg hero;
      match title with
      | Some title => before document hero title
      | None => mret tt
      end
  | None => mret tt
  end.

(** ** Specification vocabulary *)

(** Total correctness: from [d], [m] returns, and its result and final
    store satisfy [Q]. *)
Definition wp {A} (m : M A) (d : dom) (Q : A → dom → Prop) : Prop :=
  match m d with
  | Ok (a, d') => Q a d'
  | Throw _ => False
  end.

(** [anc d a x]: [a] is a proper ancestor of [x]. *)
Inductive anc (d : dom) : nid → nid → Prop :=
| anc_parent x p : parentOf d x = Some p → anc d p x
| anc_step x p a : parentOf d x = Some p → anc d a p → anc d a x.

(** Well-formed stores: parent and children agree, no element occurs twice
    among the children of a node, nothing is stored beyond the allocation
    counter, and no node is its own ancestor.  Every store a parser or the
    DOM primitives produce is of this kind. *)
Record wf (d : dom) : Prop := {
  wf_parent_kid : ∀ x p, parentOf d x = Some p → Elem x ∈ kidsOf d p;
  wf_kid_parent : ∀ x p, Elem x ∈ kidsOf d p → parentOf d x = Some p;
  wf_kids_nodup : ∀ p, NoDup (elems (kidsOf d p));
  wf_alloc : ∀ x, (next d ≤ x)%nat → node_at d x = blank;
  wf_acyclic : ∀ x, ¬ anc d x x;
}.

(** The shape [createTable] gives a table: what a cell holds, which tag it
    carries, and how rows and cells hang together. *)
Definition cell_items (c : cell) : list item :=
  match c with
  | CString s => [Markup s]
  | CArray cs => Elem <$> cs
  | CNode c => [Elem c]
  end.

Definition cell_elems (c : cell) : list nid :=
  match c with
  | CString _ => []
  | CArray cs => cs
  | CNode c => [c]
  end.

Definition row_elems (row : list cell) : list nid := row ≫= cell_elems.
Definition data_elems (data : list (list cell)) : list nid := data ≫= row_elems.

Definition cell_tag (index : nat) : string :=
  if decide (index = 0%nat) then "th" else "td".

Definition is_cell (d : dom) (index : nat) (c : nid) (content : cell) : Prop :=
  tagOf d c = cell_tag index ∧ kidsOf d c = cell_items content.

Definition is_row (d : dom) (index : nat) (tr : nid) (row : list cell) : Prop :=
  tagOf d tr = "tr" ∧
  ∃ cs, kidsOf d tr = Elem <$> cs ∧ Forall2 (is_cell d index) cs row.

Fixpoint are_rows (d : dom) (index : nat) (trs : list nid) (data : list (list cell))
  : Prop :=
  match trs, data with
  | [], [] => True
  | tr :: trs', row :: data' => is_row d index tr row ∧ are_rows d (S index) trs' data'
  | _, _ => False
  end.

Definition is_table (d : dom) (t : nid) (data : list (list cell)) : Prop :=
  tagOf d t = "table" ∧
  ∃ trs, kidsOf d t = Elem <$> trs ∧ are_rows d 0%nat trs data.

(** An element can be in one place only: appending it again takes it out
    of the cell it was in.  [kept l later] are the elements of [l] that are
    still where they were put once [l] and then [later] have been appended,
    each in turn: those that are not given again. *)
Fixpoint kept (l later : list nid) : list nid :=
  match l with
  | [] => []
  | e :: l' =>
      if decide (e ∈ l' ++ later) then kept l' later else e :: kept l' later
  end.

(** What a cell holds once the elements [later] have been appended to the
    cells after it. *)
Definition cell_kept (c : cell) (later : list nid) : list item :=
  match c with
  | CString s => [Markup s]
  | CArray cs => Elem <$> kept cs later
  | CNode c => Elem <$> kept [c] later
  end.

Definition is_kept_cell (d : dom) (index : nat) (c : nid) (content : cell)
    (later : list nid) : Prop :=
  tagOf d c = cell_tag index ∧ kidsOf d c = cell_kept content later.

Fixpoint are_kept_cells (d : dom) (index : nat) (cs : list nid) (row : list cell)
    (later : list nid) : Prop :=
  match cs, row with
  | [], [] => True
  | c :: cs', content :: row' =>
      is_kept_cell d index c content (row_elems row' ++ later) ∧
      are_kept_cells d index cs' row' later
  | _, _ => False
  end.

Definition is_kept_row (d : dom) (index : nat) (tr : nid) (row : list cell)
    (later : list nid) : Prop :=
  tagOf d tr = "tr" ∧
  ∃ cs, kidsOf d tr = Elem <$> cs ∧ are_kept_cells d index cs row later.

Fixpoint are_kept_rows (d : dom) (index : nat) (trs : list nid)
    (data : list (list cell)) (later : list nid) : Prop :=
  match trs, data with
  | [], [] => True
  | tr :: trs', row :: data' =>
      is_kept_row d index tr row (data_elems data' ++ later) ∧
      are_kept_rows d (S index) trs' data' later
  | _, _ => False
  end.

(** The table [createTable] returns for any rows: one [tr] per row, in
    order, one cell per cell of the row, in order, [th] in row 0 and [td]
    elsewhere; a string cell holds its markup, and a cell of elements holds,
    in order, those of its elements that are not given again, later in the
    cell, in a later cell of the row or in a later row. *)
Definition is_kept_table (d : dom) (t : nid) (data : list (list cell)) : Prop :=
  tagOf d t = "table" ∧
  ∃ trs, kidsOf d t = Elem <$> trs ∧ are_kept_rows d 0%nat trs data [].

(** The nodes of a table (the table, its rows, their cells) were all
    allocated from [lo] on. *)
Definition table_from (lo : nid) (d : dom) (t : nid) : Prop :=
  (lo ≤ t < next d)%nat ∧
  ∀ tr, Elem tr ∈ kidsOf d t →
    (lo ≤ tr)%nat ∧ ∀ c, Elem c ∈ kidsOf d tr → (lo ≤ c)%nat.

(** Two stores that agree on everything but the tree structure of a node. *)
Definition same_label (d d' : dom) (y : nid) : Prop :=
  tagOf d' y = tagOf d y ∧ classesOf d' y = classesOf d y ∧
  attrsOf d' y = attrsOf d y ∧ bgImageOf d' y = bgImageOf d y.

(** [built d0 E d]: the store [d] comes from [d0] by creating nodes and
    moving the elements [E] of [d0] below created ones; [next d0] separates
    the nodes found from the nodes created. *)
Record built (d0 : dom) (E : list nid) (d : dom) : Prop := {
  bt_wf : wf d;
  bt_next : (next d0 ≤ next d)%nat;
  bt_label : ∀ y, (y < next d0)%nat → same_label d0 d y;
  bt_kids : ∀ y, (y < next d0)%nat →
    kidsOf d y = filter (λ it, it ∉ Elem <$> E) (kidsOf d0 y);
  bt_parent : ∀ y, (y < next d0)%nat → y ∉ E → parentOf d y = parentOf d0 y;
  bt_moved : ∀ y, y ∈ E → ∃ c, parentOf d y = Some c ∧ (next d0 ≤ c)%nat;
  bt_new : ∀ y q, (next d0 ≤ y)%nat → parentOf d y = Some q → (next d0 ≤ q)%nat;
}.

(** What a step that moves the elements [L] of [d0] does to the created
    nodes: all of them keep tag and parent, and all but the node [T] it
    works on keep their children except for the elements moved away. *)
Definition frame (d0 : dom) (T : nid) (L : list nid) (d d' : dom) : Prop :=
  (next d ≤ next d')%nat ∧
  ∀ y, (next d0 ≤ y < next d)%nat →
    tagOf d' y = tagOf d y ∧ parentOf d' y = parentOf d y ∧
    (y ≠ T → kidsOf d' y = filter (λ it, it ∉ Elem <$> L) (kidsOf d y)).

(** A check of well-formedness that runs on an explicit store. *)
Definition wf_node (d : dom) (x : nid) : bool :=
  match parentOf d x with
  | Some p => bool_decide (Elem x ∈ kidsOf d p)
  | None => true
  end
  && forallb (λ c, bool_decide (parentOf d c = Some x)) (elems (kidsOf d x))
  && bool_decide (NoDup (elems (kidsOf d x)))
  && bool_decide (x ∉ ancestors d (next d) x)
  && Nat.ltb (length (ancestors d (next d) x)) (next d).

Definition wf_check (d : dom) : bool :=
  forallb (wf_node d) (seq 0 (next d))
  && forallb (λ kv, Nat.ltb kv.1 (next d)) (map_to_list (nodes d)).

(** The store with no node at all. *)
Definition empty_dom : dom := Dom ∅ 0.

(** An explicit store: the nodes of the list, numbered from 0. *)
Definition store_of (l : list node) : dom :=
  Dom (list_to_map (zip (seq 0 (length l)) l)) (length l).

(** The source address [replaceBackgroundByImg] computes from a style
    value. *)
Definition stripped (url : string) : string :=
  JsString.remove_all ")" (JsString.remove_all "'" (JsString.remove_all "url(" url)).

(** An address without parentheses and single quotes. *)
Definition wrapper_char (c : ascii) : bool :=
  Ascii.eqb c "("%char || Ascii.eqb c ")"%char || Ascii.eqb c "'"%char.

Definition plain (u : string) : bool :=
  negb (JsString.test_class wrapper_char u).

(** The code units the loop of [postProcessMD2] looks for: the counter's
    decimal digits read as hexadecimal, for the counters 0 to 19. *)
Definition sweep_units : list N := (λ i, parse_hex (decimal_digits i)) <$> seq 0 20.

Definition swept (u : N) : bool := bool_decide (u ∈ sweep_units).

(** A host and a framework to run the importer on explicit stores: nodes
    serialize to the markup runs among their children, no structured data
    is found, the framework renders the metadata as an empty table and
    leaves the rendered text as it is. *)
Definition markup_runs (l : list item) : string :=
  foldr (λ it acc, match it with Markup s => s +:+ acc | Elem _ => acc end) "" l.

Definition bare_host : Host := {|
  innerHTML := λ d x, markup_runs (kidsOf d x);
  textContent := λ d x, markup_runs (kidsOf d x);
  graphImageUrl := λ _, None;
|}.

Definition bare_framework : Framework := {|
  getMetadataBlock := λ _, createElement "table";
  super_postProcessMD := λ md, md;
|}.

(** *** Vocabulary for [createEmbeds] *)

(** The block that stands for an iframe. *)
Definition embedBlock (d : dom) (embed : nid) : list (list cell) :=
  [[CString "Embed"]; [CString (anchor (default "" (embedSrc d embed)))]].

(** Children after some elements were replaced, [ρ] giving the
    replacements. *)
Definition rename (ρ : gmap nat nat) (it : item) : item :=
  match it with
  | Elem e => Elem (default e (ρ !! e))
  | Markup _ => it
  end.

(** The state of the loop of [createEmbeds] once the iframes [done] are
    processed, [ρ] mapping each replaced iframe to its table. *)
Definition embeds_inv (d : dom) (done : list nid) (ρ : gmap nat nat) (dk : dom)
  : Prop :=
  wf dk ∧ (next d ≤ next dk)%nat ∧
  (∀ e, is_Some (ρ !! e) ↔ e ∈ done ∧ truthy (embedSrc d e) = true) ∧
  (∀ e t, ρ !! e = Some t →
     (e < next d)%nat ∧
     is_table dk t (embedBlock d e) ∧ table_from (next d) dk t ∧
     parentOf dk t = parentOf d e ∧ parentOf dk e = None) ∧
  (∀ y, (y < next d)%nat →
     same_label d dk y ∧ kidsOf dk y = rename ρ <$> kidsOf d y ∧
     (ρ !! y = None → parentOf dk y = parentOf d y)).

(** *** Vocabulary for [createRelatedPostsBlock] *)

Definition relatedLinks (d : dom) (document : nid) : list nid :=
  querySelectorAll d document (ByClass "blogPostsBlock__titleLink").

Definition hrefOf (d : dom) (r : nid) : string :=
  null_to_empty (getAttribute d r "href").

(** The rows of the block: the header, then one row per link. *)
Definition relatedBlock (related : list nid) : list (list cell) :=
  [CString "Related Posts"] :: ((λ r, [CNode r]) <$> related).

(** The state of the loop over the links once [done] are rewritten. *)
Definition related_inv (d : dom) (done : list nid) (dk : dom) : Prop :=
  wf dk ∧ next dk = next d ∧
  (∀ y, same_label d dk y) ∧
  (∀ r, r ∈ done → kidsOf dk r = [Markup (hrefOf d r)]) ∧
  (∀ y, y ∉ done → kidsOf dk y = kidsOf d y).

(** The nodes exactly [k] levels below [x]. *)
Fixpoint level (d : dom) (k : nat) (x : nid) : list nid :=
  match k with
  | O => [x]
  | S k' => elems (kidsOf d x) ≫= level d k'
  end.

(** *** Vocabulary for [createCallouts] *)

Definition ctaLink (d : dom) (callout : nid) : option nid :=
  querySelector d callout (ByTag "a").

(** The rows of the block that stands for a callout, [container] being the
    [div] that gathers heading and subheading. *)
Definition calloutRows (d : dom) (callout container : nid) : list (list cell) :=
  [[CString (blockName d callout)]; [CNode container]] ++
  match ctaLink d callout with
  | Some cta => [[CNode cta]]
  | None => []
  end.

(** The tags of what the container holds. *)
Definition containerTags (d : dom) (callout : nid) : list string :=
  match querySelector d callout (ByClass "blogPostContent__ctaText") with
  | Some _ => ["h3"]
  | None => []
  end ++
  match querySelector d callout (ByClass "blogPostContent__ctaSubheading") with
  | Some _ => ["p"]
  | None => []
  end.

(** The state while the container of a callout is filled: [hs] are its
    children so far. *)
Definition container_inv (d : dom) (container : nid) (hs : list nid) (dk : dom)
  : Prop :=
  built d [] dk ∧ (next d ≤ container < next dk)%nat ∧
  tagOf dk container = "div" ∧ parentOf dk container = None ∧
  kidsOf dk container = Elem <$> hs ∧
  ∀ h, h ∈ hs → (container < h < next dk)%nat.

(** The runs of a loop body: each element of the list with the store it is
    processed in. *)
Fixpoint forEach_trace {X} (f : X → M unit) (l : list X) (d : dom)
  : list (X * dom) :=
  match l with
  | [] => []
  | x :: l' =>
      (x, d) :: match f x d with
                | Ok (_, d') => forEach_trace f l' d'
                | Throw _ => []
                end
  end.

(** The callouts of a page, each with the store [createCallouts] turns it
    into a block in. *)
Definition calloutRuns `{Host} (d : dom) (main : nid) : list (nid * dom) :=
  forEach_trace calloutToBlock
    (querySelectorAll d main (ByClass "blogPostContent__ctaContainer")) d.

(** What every run of the body of [createCallouts] starts from. *)
Definition callouts_inv (d dk : dom) : Prop :=
  wf dk ∧ (next d ≤ next dk)%nat ∧ ∀ y, (y < next d)%nat → same_label d dk y.

(** What one run of the body of [createCallouts] does to the tree, from
    [d] to [d']: the nodes that were there keep their labels; they keep
    their children unless they hold the callout or the link; they keep
    their parent unless they are the callout, which ends without one, or
    the link, which ends below a created node; and a created node hangs
    below a created node or, the table, where the callout hung. *)
Record callout_step (d : dom) (callout : nid) (d' : dom) : Prop := {
  cs_wf : wf d';
  cs_next : (next d ≤ next d')%nat;
  cs_label : ∀ y, (y < next d)%nat → same_label d d' y;
  cs_kids : ∀ y, (y < next d)%nat →
    Elem callout ∉ kidsOf d y →
    (∀ a, ctaLink d callout = Some a → Elem a ∉ kidsOf d y) →
    kidsOf d' y = kidsOf d y;
  cs_parent : ∀ y, (y < next d)%nat →
    y ≠ callout → ctaLink d callout ≠ Some y → parentOf d' y = parentOf d y;
  cs_out : parentOf d' callout = None;
  cs_link : ∀ a, ctaLink d callout = Some a →
    ∃ q, parentOf d' a = Some q ∧ (next d ≤ q)%nat;
  cs_fresh : ∀ y q, (next d ≤ y)%nat → parentOf d' y = Some q →
    (next d ≤ q)%nat ∨ parentOf d callout = Some q;
}.

(** *** Vocabulary for the page [createCallouts] returns *)

(** The callouts of a page, in document order. *)
Definition callouts (d : dom) (main : nid) : list nid :=
  querySelectorAll d main (ByClass "blogPostContent__ctaContainer").

(** No callout of the page lies around [callout]. *)
Definition outermost (d : dom) (main callout : nid) : Prop :=
  ∀ c, c ∈ callouts d main → ¬ anc d c callout.

(** The block of a callout in the store [d']: the table [t], whose nodes
    were all created from [lo] on, has a first row whose only cell, a [th],
    holds the markup [name]; a second row whose only cell, a [td], holds
    the [div] [container] and nothing else, the container holding elements
    of the tags [tags]; and after these one more row when there is a
    [link], and none otherwise. *)
Definition is_callout_block (lo : nid) (d' : dom) (t : nid) (name : string)
    (container : nid) (tags : list string) (link : option nid) : Prop :=
  tagOf d' t = "table" ∧
  ∃ tr1 th tr2 td hs rest,
    Forall (λ y, (lo ≤ y)%nat) ([t; tr1; th; tr2; td; container] ++ hs ++ rest) ∧
    kidsOf d' t = Elem <$> (tr1 :: tr2 :: rest) ∧
    tagOf d' tr1 = "tr" ∧ kidsOf d' tr1 = [Elem th] ∧
    tagOf d' th = "th" ∧ kidsOf d' th = [Markup name] ∧
    tagOf d' tr2 = "tr" ∧ kidsOf d' tr2 = [Elem td] ∧
    tagOf d' td = "td" ∧ kidsOf d' td = [Elem container] ∧
    tagOf d' container = "div" ∧ kidsOf d' container = Elem <$> hs ∧
    tagOf d' <$> hs = tags ∧
    Forall (λ tr, tagOf d' tr = "tr") rest ∧
    length rest = match link with Some _ => 1%nat | None => 0%nat end.

(** The block built for [callout] by the run that started in [dk], as it
    stands in a later store [dq] of the same call. *)
Definition block_from (d : dom) (callout : nid) (dk dq : dom) (t : nid) : Prop :=
  parentOf dq callout = None ∧ parentOf dq t = parentOf dk callout ∧
  is_callout_block (next d) dq t (blockName dk callout) (next dk)
    (containerTags dk callout) (ctaLink dk callout).

(** The state of the loop of [createCallouts] when the callouts [todo] are
    still to be processed: among the nodes of the page no new ancestor has
    appeared; a node that is neither a link nor a processed callout hangs
    where it hung; and below an outermost callout still to be processed
    nothing has changed. *)
Definition callouts_state (d : dom) (main : nid) (todo : list nid) (dq : dom)
  : Prop :=
  callouts_inv d dq ∧
  (∀ a b, (a < next d)%nat → (b < next d)%nat → anc dq a b → anc d a b) ∧
  (∀ y, (y < next d)%nat → tagOf d y ≠ "a" →
        (y ∈ callouts d main → y ∈ todo) → parentOf dq y = parentOf d y) ∧
  (∀ c, c ∈ todo → outermost d main c →
        ∀ y, y = c ∨ anc d c y → kidsOf dq y = kidsOf d y).

(** What a run finds where it starts: the callout carries the classes it
    had, hangs where it hung unless it is a link, and, when it is an
    outermost one, has below it what it had. *)
Definition at_run (d : dom) (main callout : nid) (dk : dom) : Prop :=
  callouts_inv d dk ∧
  (tagOf d callout ≠ "a" → parentOf dk callout = parentOf d callout) ∧
  (outermost d main callout →
   ∀ sel, querySelector dk callout sel = querySelector d callout sel).

(** *** Vocabulary for [createMetadata] *)

(** The read time the meta-top element of a page gives: the third line of
    its trimmed text, when that text has three lines. *)
Definition readTime `{Host} (d : dom) (main : nid) : option value :=
  metatop ← querySelector d main (ByClass "blogPostContent__metaTop");
  let lines := JsString.split "010"%char (JsString.trim (textContent d metatop)) in
  if decide (length lines = 3%nat)
  then Some (VString (JsString.trim (default "" (lines !! 2%nat))))
  else None.

(** The day of a time stamp, as the source cuts it. *)
Definition dayOf (content : string) : string :=
  JsString.substring2 content 0 (JsString.indexOf content "T"%char).

Definition metadataKeys : list string :=
  ["Title"; "Description"; "Category"; "Publication Date"; "Author";
   "Read Time"; "Image"].

(** An assignment that happens only when there is a value. *)
Definition set_opt (o : object) (k : string) (ov : option value) : object :=
  match ov with
  | Some v => obj_set o k v
  | None => o
  end.

(** The map [createMetadata] fills, as a function of the page; [el] is the
    image element the run creates. *)
Definition metaOf `{Host} (d : dom) (main document : nid) (el : nid) : object :=
  let meta := [] in
  let meta :=
    set_opt meta "Title"
      ((λ title, VString (JsString.remove_chars nl_or_tab (innerHTML d title)))
         <$> querySelector d document (ByTag "title")) in
  let meta :=
    set_opt meta "Description"
      ((λ desc, from_option VString VUndefined (contentOf d desc))
         <$> querySelector d document (ByAttr "property" "og:description")) in
  let meta :=
    set_opt meta "Category"
      ((λ category, from_option VString VUndefined (contentOf d category))
         <$> querySelector d document (ByAttr "property" "article:section")) in
  let meta :=
    set_opt meta "Publication Date"
      ((λ content, VString (dayOf content))
         <$> (querySelector d document (ByAttr "property" "article:published_time")
                ≫= contentOf d)) in
  let meta :=
    set_opt meta "Author"
      (VElement <$> querySelector d main (ByAttr "rel" "author")) in
  let meta := set_opt meta "Read Time" (readTime d main) in
  set_opt meta "Image"
    ((λ _, VElement el)
       <$> querySelector d document (ByAttr "property" "og:image")).

(** *** Vocabulary for strings *)

(** [c] does not occur in [s]. *)
Definition free_of (c : ascii) (s : string) : Prop :=
  JsString.test_class (Ascii.eqb c) s = false.

(** The number of occurrences of [c] in [s]. *)
Fixpoint occurrences (c : ascii) (s : string) : nat :=
  match s with
  | EmptyString => 0
  | String x s' => (if Ascii.eqb x c then 1 else 0) + occurrences c s'
  end.

(** [s] holds a character that is not white space. *)
Definition has_ink (s : string) : bool :=
  JsString.test_class (λ c, negb (JsString.white c)) s.

(** The first and the last character of [s] are not white space. *)
Definition tight (s : string) : Prop :=
  (∃ c, NameSpec.first_char s = Some c ∧ JsString.white c = false) ∧
  (∃ c, NameSpec.last_char s = Some c ∧ JsString.white c = false).

(** The store [metadataFields] leaves: the page with the image element,
    when the page names an image. *)
Definition metaStore (d : dom) (document : nid) : dom :=
  match querySelector d document (ByAttr "property" "og:image") with
  | Some img =>
      let d1 := alloc "img" d in
      setAttrs (next d) (<["src" := default "undefined" (contentOf d img)]>
                           (attrsOf d1 (next d))) d1
  | None => d
  end.

(** The element of the publication time, when the page has one, is a [meta]
    element. *)
Definition date_is_meta (d : dom) (document : nid) : bool :=
  match querySelector d document (ByAttr "property" "article:published_time") with
  | Some date => bool_decide (tagOf d date = "meta")
  | None => true
  end.

(** *** Vocabulary for [cleanupHeadings] *)

(** The text of a node depends on the tree below it only: it is the same
    in two stores of the same size where the node and the nodes below it
    have the same children. *)
Definition text_local `{Host} : Prop :=
  ∀ d1 d2 x,
    wf d1 → next d2 = next d1 →
    (∀ y, y = x ∨ anc d1 x y → kidsOf d2 y = kidsOf d1 y) →
    textContent d2 x = textContent d1 x.

(** A host whose text is the markup runs below a node, in document
    order. *)
Fixpoint deepText (d : dom) (fuel : nat) (x : nid) : string :=
  match fuel with
  | O => ""
  | S f =>
      foldr (λ it acc,
               match it with
               | Markup s => s +:+ acc
               | Elem c => deepText d f c +:+ acc
               end) "" (kidsOf d x)
  end.

Definition text_host : Host := {|
  innerHTML := λ d x, markup_runs (kidsOf d x);
  textContent := λ d x, deepText d (next d) x;
  graphImageUrl := λ _, None;
|}.

(** Document order: no node comes before one of its ancestors. *)
Definition precedes (d : dom) (x y : nid) : Prop := ¬ anc d y x.

(** The state of the loop of [cleanupHeadings] once the headings [done]
    are rewritten. *)
Definition headings_inv `{Host} (d : dom) (done : list nid) (dk : dom) : Prop :=
  wf dk ∧ next dk = next d ∧
  ∀ y, same_label d dk y ∧
       kidsOf dk y = (if decide (y ∈ done) then [Markup (textContent d y)]
                      else kidsOf d y) ∧
       parentOf dk y = match parentOf d y with
                       | Some p => if decide (p ∈ done) then None else Some p
                       | None => None
                       end.

(** *** Vocabulary for running [createEmbeds] again *)

(** [x] is a node of the table [t]: the table, one of its rows or one of
    their cells. *)
Definition table_node (d : dom) (t x : nid) : Prop :=
  x = t ∨ Elem x ∈ kidsOf d t ∨
  ∃ tr, Elem tr ∈ kidsOf d t ∧ Elem x ∈ kidsOf d tr.

(** *** What every block builder keeps *)

(** The store is still a tree, no node was dropped, and the nodes that
    were there carry the tag, classes, attributes and style they had. *)
Definition tree_kept (d d' : dom) : Prop :=
  wf d' ∧ (next d ≤ next d')%nat ∧ ∀ y, (y < next d)%nat → same_label d d' y.

(** *** Vocabulary for tables with repeated elements *)

(** The state while a table is built from the store [d0], [roots] being the
    created nodes that must still be without a parent. *)
Definition building (d0 : dom) (roots : list nid) (dk : dom) : Prop :=
  wf dk ∧ (next d0 ≤ next dk)%nat ∧
  ∀ r, r ∈ roots → (next d0 ≤ r < next dk)%nat ∧ parentOf dk r = None.

(** *** Vocabulary for the content of a callout block *)

(** A host that reads a node found from the nodes found: creating nodes,
    and filling and linking the created ones, leaves the text and the
    markup of the nodes found as they are. *)
Definition reads_found `{Host} : Prop :=
  ∀ d dr x,
    built d [] dr → (x < next d)%nat →
    textContent dr x = textContent d x ∧ innerHTML dr x = innerHTML d x.
Section CleanupName.
Import JsString NameSpec.

Lemma substring_0_all s : substring 0 (String.length s) s = s.
  Proof. induction s as [|c s IH]; simpl; [done | by rewrite IH]. Qed.

Lemma substring_0_init c s :
    substring 0 (String.length s) (String c s) = drop_last (String c s).
  Proof.
    revert c. induction s as [|c' s IH]; intros c; [done |].
    change (String c (substring 0 (String.length s) (String c' s)) =
            String c (drop_last (String c' s))).
    by rewrite IH.
  Qed.

Lemma substring_0_pred s :
    substring 0 (String.length s - 1) s = drop_last s.
  Proof.
    destruct s as [|c s]; [done |].
    replace (String.length (String c s) - 1)%nat with (String.length s)
      by (simpl; lia).
    apply substring_0_init.
  Qed.

Lemma substring_last_init c s :
    substring (String.length s) 1 (String c s) =
    match last_char (String c s) with
    | Some x => String x EmptyString
    | None => EmptyString
    end.
  Proof.
    revert c. induction s as [|c' s IH]; intros c; [done |].
    change (substring (String.length s) 1 (String c' s) =
            match last_char (String c' s) with
            | Some x => String x EmptyString
            | None => EmptyString
            end).
    apply IH.
  Qed.

Lemma substring_last s :
    substring (String.length s - 1) 1 s =
    match last_char s with Some c => String c EmptyString | None => EmptyString end.
  Proof.
    destruct s as [|c s]; [done |].
    replace (String.length (String c s) - 1)%nat with (String.length s)
      by (simpl; lia).
    apply substring_last_init.
  Qed.

Lemma charAt_first s :
    charAt s 0 =
    match first_char s with Some c => String c EmptyString | None => EmptyString end.
  Proof.
    destruct s as [|c s]; [done |].
    unfold charAt, len. simpl String.length.
    replace (0 <? Z.of_nat (S (String.length s))) with true
      by (symmetry; apply Z.ltb_lt; lia).
    simpl. by destruct s.
  Qed.

Lemma charAt_last s :
    charAt s (len s - 1) =
    match last_char s with Some c => String c EmptyString | None => EmptyString end.
  Proof.
    unfold charAt, len. destruct s as [|c s]; [done |].
    rewrite <- substring_last.
    replace (Z.to_nat (Z.of_nat (String.length (String c s)) - 1))
      with (String.length (String c s) - 1)%nat by (simpl; lia).
    case_match eqn:E; [done |].
    apply andb_false_iff in E as [E%Z.leb_gt|E%Z.ltb_ge];
      simpl String.length in E; lia.
  Qed.

Lemma substring1_one s : substring1 s 1 = drop_first s.
  Proof.
    unfold substring1, substring2, clamp, len. destruct s as [|c s]; [done |].
    replace (Z.to_nat _) with 1%nat by (simpl String.length; lia).
    replace (Z.to_nat _) with (String.length s) by (simpl String.length; lia).
    simpl. apply substring_0_all.
  Qed.

Lemma slice_drop_last s : slice s 0 (-1) = drop_last s.
  Proof.
    unfold slice, len. rewrite <- substring_0_pred. simpl. f_equal; lia.
  Qed.

Lemma last_char_cons c s : is_Some (last_char (String c s)).
  Proof.
    revert c. induction s as [|c' s IH]; intros c; [by eexists |].
    exact (IH c').
  Qed.

Lemma test_one c :
    test_class alnum (String c EmptyString) = alnum c.
  Proof. simpl. apply orb_false_r. Qed.

Lemma cleanupName_refines name : cleanupName name = strip_ends name.
  Proof.
    destruct name as [|c s]; [done |].
    unfold cleanupName, strip_ends.
    rewrite charAt_first, charAt_last.
    destruct (last_char_cons c s) as [l ->].
    cbn [first_char non_alnum]. rewrite !test_one.
    destruct (alnum c), (alnum l); cbn [negb];
      by rewrite ?substring1_one, ?slice_drop_last.
  Qed.

Lemma drop_last_substring s :
    drop_last s = substring 0 (String.length s - 1) s.
  Proof. by rewrite substring_0_pred. Qed.

Lemma substring_shift c s n m :
    substring (S n) m (String c s) = substring n m s.
  Proof. done. Qed.

Lemma strip_ends_segment name :
    strip_ends name =
    substring (front_cut name)
      (String.length name - front_cut name - back_cut name) name.
  Proof.
    unfold strip_ends, front_cut, back_cut.
    destruct name as [|c s]; [done |].
    destruct (non_alnum (first_char (String c s))) eqn:Hf;
      destruct (non_alnum (last_char (String c s))) eqn:Hl.
    - cbn [drop_first]. rewrite substring_shift.
      replace (String.length (String c s) - 1 - 1)%nat
        with (String.length s - 1)%nat by (simpl; lia).
      apply drop_last_substring.
    - cbn [drop_first]. rewrite substring_shift.
      replace (String.length (String c s) - 1 - 0)%nat
        with (String.length s) by (simpl; lia).
      by rewrite substring_0_all.
    - rewrite drop_last_substring. f_equal; lia.
    - rewrite !Nat.sub_0_r. by rewrite substring_0_all.
  Qed.

End CleanupName.

(** C4. [cleanupName] removes one character at the front when the first
    character is not alphanumeric and one at the back when the last one is
    not, and nothing else: the result is the segment of the name that starts
    after the front cut and stops before the back cut.  It is no general
    trim: ["--my-post--"] keeps one dash on each side, and ["-my-post-"]
    gives ["my-post"]. *)
Theorem cleanupName_one_char_each_side :
  (∀ name : string,
      cleanupName name = NameSpec.strip_ends name ∧
      cleanupName name =
        substring (NameSpec.front_cut name)
          (String.length name - NameSpec.front_cut name - NameSpec.back_cut name)
          name) ∧
  cleanupName "-my-post-" = "my-post" ∧
  cleanupName "--my-post--" = "-my-post-".
Proof.
  split; [| by split].
  intros name. split; [apply cleanupName_refines |].
  rewrite cleanupName_refines. apply strip_ends_segment.
Qed.

(** C9. Both tests look at the name as given, so a one-character name whose
    character is not alphanumeric loses that character to both cuts and
    comes out empty, and so does a two-character name made of two such
    characters. *)
Theorem cleanupName_short_names_empty (c1 c2 : ascii) :
  JsString.alnum c1 = false →
  JsString.alnum c2 = false →
  cleanupName (String c1 EmptyString) = EmptyString ∧
  cleanupName (String c1 (String c2 EmptyString)) = EmptyString.
Proof.
  intros H1 H2. rewrite !cleanupName_refines.
  unfold NameSpec.strip_ends. simpl. by rewrite H1, H2.
Qed.

Lemma cleanupName_short_names_empty_witness :
  cleanupName "-" = "" ∧ cleanupName "-+" = "".
Proof.
  exact (cleanupName_short_names_empty "-"%char "+"%char eq_refl eq_refl).
Defined.

(** ** Removing a literal pattern *)
Section RemoveAll.
Import JsString.

Lemma remove_all_from_skip p (a s : string) :
  remove_all_from p (String.length a) (a +:+ s) = remove_all_from p O s.
Proof. induction a as [|c a IH]; [done |]. simpl. exact IH. Qed.

Lemma prefix_app (p s : string) : String.prefix p (p +:+ s) = true.
Proof.
  induction p as [|c p IH]; simpl; [by destruct s |].
  by destruct (ascii_dec c c).
Qed.

(** A match at the head is dropped. *)
Lemma remove_all_head c (p s : string) :
  remove_all (String c p) (String c p +:+ s) = remove_all (String c p) s.
Proof.
  unfold remove_all. change (String c p +:+ s) with (String c (p +:+ s)).
  cbn [remove_all_from].
  change (String c (p +:+ s)) with (String c p +:+ s).
  rewrite prefix_app. apply remove_all_from_skip.
Qed.

(** A pattern one of whose characters does not occur matches nowhere. *)
Lemma prefix_occurs x (p s : string) :
  String.prefix p s = true →
  test_class (Ascii.eqb x) p = true → test_class (Ascii.eqb x) s = true.
Proof.
  revert s. induction p as [|c p IH]; intros s; [done |].
  destruct s as [|c' s]; [done |]. simpl.
  destruct (ascii_dec c c') as [<- | ]; [| done].
  intros Hp [H | H]%orb_true_iff; apply orb_true_iff; [by left |].
  right. by apply IH.
Qed.

Lemma remove_all_absent x (p s : string) :
  test_class (Ascii.eqb x) p = true →
  test_class (Ascii.eqb x) s = false →
  remove_all p s = s.
Proof.
  intros Hp. unfold remove_all.
  induction s as [|c s IH]; [done |]. intros Hs.
  pose proof Hs as Hs'. simpl in Hs'.
  apply orb_false_iff in Hs' as [_ Hs'].
  cbn [remove_all_from]. destruct p as [|c0 p']; [done |].
  destruct (String.prefix (String c0 p') (String c s)) eqn:Hpre.
  - pose proof (prefix_occurs x _ _ Hpre Hp). congruence.
  - by rewrite IH.
Qed.

Lemma prefix_one x c (s : string) :
  String.prefix (String x EmptyString) (String c s) = Ascii.eqb x c.
Proof.
  cbn [String.prefix]. destruct (ascii_dec x c) as [-> | Hne].
  - rewrite Ascii.eqb_refl. by destruct s.
  - symmetry. by apply Ascii.eqb_neq.
Qed.

(** A one-character pattern removes that character everywhere. *)
Lemma remove_all_char x (s : string) :
  remove_all (String x EmptyString) s = remove_chars (Ascii.eqb x) s.
Proof.
  unfold remove_all. induction s as [|c s IH]; [done |].
  cbn [remove_all_from remove_chars String.length]. rewrite prefix_one, IH.
  done.
Qed.

Lemma remove_chars_app f (s t : string) :
  remove_chars f (s +:+ t) = remove_chars f s +:+ remove_chars f t.
Proof.
  induction s as [|c s IH]; [done |].
  change (remove_chars f (String c (s +:+ t)) =
          remove_chars f (String c s) +:+ remove_chars f t).
  cbn [remove_chars]. rewrite IH. by destruct (f c).
Qed.

Lemma remove_chars_absent f (s : string) :
  test_class f s = false → remove_chars f s = s.
Proof.
  induction s as [|c s IH]; [done |]. simpl.
  intros [-> Hs]%orb_false_iff. by rewrite IH.
Qed.

Lemma occurs_app x (s t : string) :
  test_class (Ascii.eqb x) (s +:+ t) =
  test_class (Ascii.eqb x) s || test_class (Ascii.eqb x) t.
Proof.
  induction s as [|c s IH]; [done |].
  change (Ascii.eqb x c || test_class (Ascii.eqb x) (s +:+ t) =
          Ascii.eqb x c || test_class (Ascii.eqb x) s || test_class (Ascii.eqb x) t).
  by rewrite IH, orb_assoc.
Qed.

Lemma plain_occurs u x :
  plain u = true → wrapper_char x = true → test_class (Ascii.eqb x) u = false.
Proof.
  unfold plain. intros Hu%negb_true_iff Hx.
  induction u as [|c u IH]; [done |]. simpl in *.
  apply orb_false_iff in Hu as [Hc Hu]. rewrite IH by done.
  rewrite orb_false_r. destruct (Ascii.eqb x c) eqn:E; [| done].
  apply Ascii.eqb_eq in E. congruence.
Qed.


Lemma length_app_string (a b : string) :
  String.length (a +:+ b) = (String.length a + String.length b)%nat.
Proof. induction a as [|c a IH]; simpl; [done | by rewrite IH]. Qed.

Lemma string_app_nil_r (a : string) : a +:+ EmptyString = a.
Proof.
  induction a as [|x a IH]; [done |].
  change (String x (a +:+ "") = String x a). by rewrite IH.
Qed.

Lemma stripped_bare u : plain u = true → stripped ("url(" +:+ u +:+ ")") = u.
Proof.
  intros Hu. unfold stripped. rewrite remove_all_head.
  rewrite (remove_all_absent "("%char "url(" (u +:+ ")"));
    [| done | by rewrite occurs_app, (plain_occurs u)].
  rewrite !remove_all_char, !remove_chars_app.
  rewrite (remove_chars_absent (Ascii.eqb "'") u) by by apply plain_occurs.
  rewrite (remove_chars_absent (Ascii.eqb ")") u) by by apply plain_occurs.
  apply string_app_nil_r.
Qed.

Lemma stripped_quoted u : plain u = true → stripped ("url('" +:+ u +:+ "')") = u.
Proof.
  intros Hu. unfold stripped.
  change ("url('" +:+ u +:+ "')") with ("url(" +:+ ("'" +:+ (u +:+ "')"))).
  rewrite remove_all_head.
  rewrite (remove_all_absent "("%char "url(" ("'" +:+ (u +:+ "')")));
    [| done | by rewrite !occurs_app, (plain_occurs u)].
  rewrite !remove_all_char, !remove_chars_app.
  rewrite (remove_chars_absent (Ascii.eqb "'") u) by by apply plain_occurs.
  rewrite (remove_chars_absent (Ascii.eqb ")") u) by by apply plain_occurs.
  apply string_app_nil_r.
Qed.

End RemoveAll.

(** ** [postProcessMD] *)
Section PostProcess.
Context `{Framework}.

Lemma replace_unit_nil (u : N) (s : list N) :
  replace_unit u [] s = filter (λ c, c ≠ u) s.
Proof.
  unfold replace_unit. induction s as [|c s IH]; [done |].
  csimpl. rewrite IH. destruct (N.eqb_spec c u) as [-> | Hne].
  - by rewrite filter_cons_False by (by intros ?).
  - by rewrite filter_cons_True.
Qed.

Lemma replace_unit_one (u v : N) (s : list N) :
  replace_unit u [v] s = (λ c, if N.eqb c u then v else c) <$> s.
Proof.
  unfold replace_unit. induction s as [|c s IH]; [done |].
  csimpl. rewrite IH. by destruct (N.eqb c u).
Qed.

Lemma sweep_fold (us : list N) (v : N) (s : list N) :
  v ∉ us →
  fold_left (λ ret u, replace_unit u [v] ret) us s =
  (λ c, if bool_decide (c ∈ us) then v else c) <$> s.
Proof.
  revert s. induction us as [|u us IH]; intros s Hv.
  - simpl. induction s as [|c s IHs]; [done |]. csimpl. by rewrite <- IHs.
  - apply not_elem_of_cons in Hv as [Hvu Hv]. simpl.
    rewrite IH by done. rewrite replace_unit_one, <- list_fmap_compose.
    apply list_fmap_ext. intros _ c _. simpl.
    destruct (N.eqb_spec c u) as [-> | Hne].
    + rewrite (bool_decide_eq_false_2 (v ∈ us)) by done.
      rewrite bool_decide_eq_true_2; [done | apply elem_of_cons; by left].
    + destruct (decide (c ∈ us)) as [Hin | Hnin].
      * rewrite !bool_decide_eq_true_2; [done | | done].
        apply elem_of_cons. by right.
      * rewrite !bool_decide_eq_false_2; [done | | done].
        rewrite elem_of_cons. tauto.
Qed.

Lemma sweep_loop (s : list N) :
  fold_left
    (λ ret i,
       let x := decimal_digits i in
       let c := [parse_hex ([0%N; 0%N] ++ x)] in
       let reg := parse_hex x in
       let r := [length c] ≫= (λ _, [32%N]) in
       replace_unit reg r ret)
    (seq 0 20) s =
  fold_left (λ ret u, replace_unit u [32%N] ret) sweep_units s.
Proof.
  unfold sweep_units. generalize (seq 0 20). intros l. revert s.
  induction l as [|i l IH]; intros s; [done |]. simpl. by rewrite IH.
Qed.

End PostProcess.

(** * Proofs *)

(** ** Store accessors *)
Section Accessors.

Lemma node_at_put x n d y :
  node_at (put x n d) y = if decide (y = x) then n else node_at d y.
Proof.
  unfold node_at, put; simpl. case_decide as E.
  - subst. by rewrite lookup_insert_eq.
  - by rewrite lookup_insert_ne.
Qed.

Lemma node_at_blank d x : nodes d !! x = None → node_at d x = blank.
Proof. unfold node_at. by intros ->. Qed.

End Accessors.

Ltac acc_solve :=
  intros; unfold tagOf, classesOf, attrsOf, bgImageOf, kidsOf, parentOf,
    setKids, setParent, setAttrs;
  rewrite node_at_put; case_decide; subst; done.

Section Setters.
Implicit Types (d : dom) (x y : nid).

Lemma tagOf_setKids x ks d y : tagOf (setKids x ks d) y = tagOf d y.
Proof. acc_solve. Qed.
Lemma classesOf_setKids x ks d y : classesOf (setKids x ks d) y = classesOf d y.
Proof. acc_solve. Qed.
Lemma attrsOf_setKids x ks d y : attrsOf (setKids x ks d) y = attrsOf d y.
Proof. acc_solve. Qed.
Lemma bgImageOf_setKids x ks d y : bgImageOf (setKids x ks d) y = bgImageOf d y.
Proof. acc_solve. Qed.
Lemma parentOf_setKids x ks d y : parentOf (setKids x ks d) y = parentOf d y.
Proof. acc_solve. Qed.
Lemma kidsOf_setKids x ks d y :
  kidsOf (setKids x ks d) y = if decide (y = x) then ks else kidsOf d y.
Proof. acc_solve. Qed.

Lemma tagOf_setParent x p d y : tagOf (setParent x p d) y = tagOf d y.
Proof. acc_solve. Qed.
Lemma classesOf_setParent x p d y : classesOf (setParent x p d) y = classesOf d y.
Proof. acc_solve. Qed.
Lemma attrsOf_setParent x p d y : attrsOf (setParent x p d) y = attrsOf d y.
Proof. acc_solve. Qed.
Lemma bgImageOf_setParent x p d y : bgImageOf (setParent x p d) y = bgImageOf d y.
Proof. acc_solve. Qed.
Lemma kidsOf_setParent x p d y : kidsOf (setParent x p d) y = kidsOf d y.
Proof. acc_solve. Qed.
Lemma parentOf_setParent x p d y :
  parentOf (setParent x p d) y = if decide (y = x) then p else parentOf d y.
Proof. acc_solve. Qed.

Lemma tagOf_setAttrs x a d y : tagOf (setAttrs x a d) y = tagOf d y.
Proof. acc_solve. Qed.
Lemma classesOf_setAttrs x a d y : classesOf (setAttrs x a d) y = classesOf d y.
Proof. acc_solve. Qed.
Lemma bgImageOf_setAttrs x a d y : bgImageOf (setAttrs x a d) y = bgImageOf d y.
Proof. acc_solve. Qed.
Lemma kidsOf_setAttrs x a d y : kidsOf (setAttrs x a d) y = kidsOf d y.
Proof. acc_solve. Qed.
Lemma parentOf_setAttrs x a d y : parentOf (setAttrs x a d) y = parentOf d y.
Proof. acc_solve. Qed.
Lemma attrsOf_setAttrs x a d y :
  attrsOf (setAttrs x a d) y = if decide (y = x) then a else attrsOf d y.
Proof. acc_solve. Qed.

Lemma next_setKids x ks d : next (setKids x ks d) = next d.
Proof. done. Qed.
Lemma next_setParent x p d : next (setParent x p d) = next d.
Proof. done. Qed.
Lemma next_setAttrs x a d : next (setAttrs x a d) = next d.
Proof. done. Qed.

End Setters.

Create Rewrite HintDb dom.

#[global] Hint Rewrite
  tagOf_setKids classesOf_setKids attrsOf_setKids bgImageOf_setKids
  parentOf_setKids kidsOf_setKids
  tagOf_setParent classesOf_setParent attrsOf_setParent bgImageOf_setParent
  kidsOf_setParent parentOf_setParent
  tagOf_setAttrs classesOf_setAttrs bgImageOf_setAttrs kidsOf_setAttrs
  parentOf_setAttrs attrsOf_setAttrs
  next_setKids next_setParent next_setAttrs : dom.

Ltac dom_simpl := autorewrite with dom in *.

(** Closed decidable goals, by evaluation. *)
Ltac by_compute :=
  match goal with
  | |- ?P => apply (bool_decide_eq_true_1 P); vm_compute; reflexivity
  end.

(** ** Rules for [wp] *)
Section Wp.
Context {A B : Type}.

Lemma wp_ret (a : A) d (Q : A → dom → Prop) : Q a d → wp (mret a) d Q.
Proof. done. Qed.

Lemma wp_bind (m : M A) (k : A → M B) d (Q : B → dom → Prop) :
  wp m d (λ a d', wp (k a) d' Q) → wp (m ≫= k) d Q.
Proof.
  unfold wp, mbind, M_bind. destruct (m d) as [[a d']|e]; [done | done].
Qed.

Lemma wp_mono (m : M A) d (Q Q' : A → dom → Prop) :
  wp m d Q → (∀ a d', Q a d' → Q' a d') → wp m d Q'.
Proof. unfold wp. destruct (m d) as [[a d']|e]; [eauto | done]. Qed.

Lemma wp_ok (m : M A) d (Q : A → dom → Prop) :
  wp m d Q ↔ ∃ a d', m d = Ok (a, d') ∧ Q a d'.
Proof.
  unfold wp. destruct (m d) as [[a d']|e]; split; try done.
  - eauto.
  - by intros (? & ? & [= <- <-] & ?).
  - by intros (? & ? & ? & ?).
Qed.

End Wp.

Lemma wp_getDom d (Q : dom → dom → Prop) : Q d d → wp getDom d Q.
Proof. done. Qed.

Lemma wp_modify f d (Q : unit → dom → Prop) : Q tt (f d) → wp (modify f) d Q.
Proof. done. Qed.

Lemma wp_forEach_from {X} (f : X → M unit) (I : list X → dom → Prop) l :
  (∀ done x rest d,
      l = done ++ x :: rest → I done d →
      wp (f x) d (λ _ d', I (done ++ [x]) d')) →
  ∀ done rest d, l = done ++ rest → I done d →
  wp (forEach f rest) d (λ _ d', I l d').
Proof.
  intros Hstep done rest. revert done.
  induction rest as [|x rest IH]; intros done d Hl HI.
  - rewrite app_nil_r in Hl. by subst.
  - simpl. apply wp_bind.
    eapply wp_mono; [by eapply Hstep |].
    intros [] d' HI'; simpl in HI'. apply (IH (done ++ [x])); [| done].
    by rewrite <- app_assoc.
Qed.

Lemma wp_forEach {X} (f : X → M unit) (I : list X → dom → Prop) l d :
  I [] d →
  (∀ done x rest d,
      l = done ++ x :: rest → I done d →
      wp (f x) d (λ _ d', I (done ++ [x]) d')) →
  wp (forEach f l) d (λ _ d', I l d').
Proof. intros H0 Hstep. by apply (wp_forEach_from f I l Hstep []). Qed.

Lemma wp_forEachi_from {X} (f : X → nat → M unit) (I : list X → dom → Prop) l :
  (∀ done x rest d,
      l = done ++ x :: rest → I done d →
      wp (f x (length done)) d (λ _ d', I (done ++ [x]) d')) →
  ∀ done rest d, l = done ++ rest → I done d →
  wp (forEach_from f (length done) rest) d (λ _ d', I l d').
Proof.
  intros Hstep done rest. revert done.
  induction rest as [|x rest IH]; intros done d Hl HI.
  - rewrite app_nil_r in Hl. by subst.
  - simpl. apply wp_bind.
    eapply wp_mono; [by eapply Hstep |].
    intros [] d' HI'; simpl in HI'.
    replace (S (length done)) with (length (done ++ [x]))
      by (rewrite length_app; simpl; lia).
    apply (IH (done ++ [x])); [| done].
    by rewrite <- app_assoc.
Qed.

Lemma wp_forEachi {X} (f : X → nat → M unit) (I : list X → dom → Prop) l d :
  I [] d →
  (∀ done x rest d,
      l = done ++ x :: rest → I done d →
      wp (f x (length done)) d (λ _ d', I (done ++ [x]) d')) →
  wp (forEachi f l) d (λ _ d', I l d').
Proof. intros H0 Hstep. by apply (wp_forEachi_from f I l Hstep []). Qed.

(** ** Ancestors *)
Section Ancestors.
Implicit Types (d : dom) (a x y p c : nid).

Lemma anc_trans d a b c : anc d a b → anc d b c → anc d a c.
Proof.
  intros Hab Hbc. induction Hbc as [x p Hp | x p b Hp Hbp IH].
  - by eapply anc_step.
  - eapply anc_step; [done |]. by apply IH.
Qed.

Lemma anc_inv d a x :
  anc d a x → ∃ p, parentOf d x = Some p ∧ (a = p ∨ anc d a p).
Proof. destruct 1; eauto. Qed.

Lemma anc_has_child d a x : anc d a x → ∃ y, parentOf d y = Some a.
Proof. induction 1; eauto. Qed.

(** Edges can be dropped without creating ancestors. *)
Lemma anc_mono d d' :
  (∀ y p, parentOf d' y = Some p → parentOf d y = Some p) →
  ∀ a x, anc d' a x → anc d a x.
Proof.
  intros Hsub a x H. induction H.
  - apply anc_parent; auto.
  - eapply anc_step; eauto.
Qed.

(** If the inclusive ancestors of [x] kept their parents, [x] kept its
    ancestors. *)
Lemma anc_stable d d' x :
  (∀ y, y = x ∨ anc d y x → parentOf d' y = parentOf d y) →
  ∀ a, anc d' a x → anc d a x.
Proof.
  intros Hsame a H. induction H as [x p Hp | x p a Hp Hap IH].
  - apply anc_parent. rewrite <- Hsame; auto.
  - assert (parentOf d x = Some p) as Hp' by (rewrite <- Hsame; auto).
    eapply anc_step; [done |]. apply IH.
    intros y [-> | Hy]; apply Hsame; right.
    + by apply anc_parent.
    + eapply anc_trans; [done |]. by apply anc_parent.
Qed.

(** Hanging [c] below [p]: an ancestor relation of the new store is an old
    one, or it passes through the new edge. *)
Lemma anc_attach d d' c p :
  (∀ y q, y ≠ c → parentOf d' y = Some q → parentOf d y = Some q) →
  parentOf d' c = Some p →
  ∀ a x, anc d' a x →
    anc d a x ∨ ((x = c ∨ anc d' c x) ∧ (a = p ∨ anc d a p)).
Proof.
  intros Hold Hc a x H. induction H as [x q Hq | x q a Hq Haq IH].
  - destruct (decide (x = c)) as [-> | Hne].
    + right. split; [by left |]. left. congruence.
    + left. apply anc_parent. by apply Hold.
  - destruct (decide (x = c)) as [-> | Hne].
    + right. split; [by left |].
      assert (q = p) as -> by congruence.
      destruct IH as [IH | [_ IH]]; [by right | done].
    + destruct IH as [IH | [IH1 IH2]].
      * left. eapply anc_step; [by apply Hold |]. done.
      * right. split; [| done]. right.
        destruct IH1 as [-> | IH1]; [by apply anc_parent |].
        by eapply anc_step.
Qed.

Lemma acyclic_attach d d' c p :
  (∀ y q, y ≠ c → parentOf d' y = Some q → parentOf d y = Some q) →
  parentOf d' c = Some p →
  (∀ x, ¬ anc d x x) → c ≠ p → ¬ anc d c p →
  ∀ x, ¬ anc d' x x.
Proof.
  intros Hold Hc Hacyc Hne Hcp x Hx.
  destruct (anc_attach d d' c p Hold Hc x x Hx) as [H | [H1 H2]].
  { by apply (Hacyc x). }
  assert (anc d c p ∨ c = p) as [?|?]; [| done | done].
  destruct H1 as [-> | H1].
  { destruct H2; [by right | by left]. }
  destruct (anc_attach d d' c p Hold Hc c x H1) as [H | [_ H]].
  - destruct H2 as [-> | H2]; [by left |]. left. by eapply anc_trans.
  - destruct H; [by right | by left].
Qed.

(** The ancestors of a node form a chain. *)
Lemma anc_linear d a b x :
  anc d a x → anc d b x → a = b ∨ anc d a b ∨ anc d b a.
Proof.
  intros Ha. revert b. induction Ha as [x p Hp | x p a Hp Hap IH]; intros b Hb.
  - apply anc_inv in Hb as (q & Hq & [-> | Hb]).
    + left. congruence.
    + right. right. congruence.
  - apply anc_inv in Hb as (q & Hq & Hb).
    assert (q = p) as -> by congruence.
    destruct Hb as [-> | Hb]; [by right; left |]. by apply IH.
Qed.

Lemma ancestors_sound d f x a : a ∈ ancestors d f x → anc d a x.
Proof.
  revert x. induction f as [|f IH]; intros x; simpl.
  - by intros ?%elem_of_nil.
  - destruct (parentOf d x) as [p|] eqn:Hp; [| by intros ?%elem_of_nil].
    intros [-> | H]%elem_of_cons; [by apply anc_parent |].
    eapply anc_step; [done |]. by apply IH.
Qed.

Lemma anc_in_ancestors d a x :
  anc d a x → ∀ f, a ∈ ancestors d f x ∨ length (ancestors d f x) = f.
Proof.
  induction 1 as [x p Hp | x p a Hp Hap IH]; intros [|f]; simpl; auto;
    rewrite Hp.
  - left. apply elem_of_cons. by left.
  - destruct (IH f) as [H | H].
    + left. apply elem_of_cons. by right.
    + right. simpl. by rewrite H.
Qed.

Lemma ancestors_nodup d f x :
  (∀ y, ¬ anc d y y) → NoDup (x :: ancestors d f x).
Proof.
  intros Hacyc. revert x. induction f as [|f IH]; intros x.
  - simpl. apply NoDup_singleton.
  - apply NoDup_cons. split.
    + intros H%ancestors_sound. by apply (Hacyc x).
    + simpl. destruct (parentOf d x) as [p|]; [apply IH | apply NoDup_nil_2].
Qed.

End Ancestors.

(** ** Well-formed stores *)
Section WellFormed.
Implicit Types (d : dom) (a x y p c : nid).

Lemma wf_fresh d x :
  wf d → (next d ≤ x)%nat →
  kidsOf d x = [] ∧ parentOf d x = None ∧ classesOf d x = [] ∧
  attrsOf d x = ∅ ∧ bgImageOf d x = EmptyString.
Proof.
  intros Hwf Hx. unfold kidsOf, parentOf, classesOf, attrsOf, bgImageOf.
  by rewrite (wf_alloc d Hwf x Hx).
Qed.

Lemma wf_parent_lt d x p :
  wf d → parentOf d x = Some p → (x < next d)%nat ∧ (p < next d)%nat.
Proof.
  intros Hwf Hp. split.
  - destruct (decide (x < next d)%nat) as [|Hge]; [done |].
    destruct (wf_fresh d x Hwf) as (_ & H & _); [lia | congruence].
  - apply (wf_parent_kid d Hwf) in Hp.
    destruct (decide (p < next d)%nat) as [|Hge]; [done |].
    destruct (wf_fresh d p Hwf) as (H & _); [lia |].
    rewrite H in Hp. by apply elem_of_nil in Hp.
Qed.

Lemma wf_kid_lt d x p :
  wf d → Elem x ∈ kidsOf d p → (x < next d)%nat ∧ (p < next d)%nat.
Proof. intros Hwf Hk. eapply wf_parent_lt; [done |]. by apply wf_kid_parent. Qed.

Lemma anc_lt d a x : wf d → anc d a x → (a < next d)%nat ∧ (x < next d)%nat.
Proof.
  intros Hwf H. split.
  - destruct (anc_has_child d a x H) as (y & Hy).
    by apply (wf_parent_lt d y a).
  - apply anc_inv in H as (p & Hp & _). by apply (wf_parent_lt d x p).
Qed.

Lemma elem_of_elems (l : list item) x : x ∈ elems l ↔ Elem x ∈ l.
Proof.
  unfold elems. rewrite list_elem_of_omap. split.
  - intros ([s|n] & Hin & Heq); [done |]. by simplify_eq.
  - intros H. exists (Elem x). done.
Qed.

(** A chain of distinct allocated nodes fits in the allocation counter. *)
Lemma nodup_bounded_length (l : list nat) n :
  NoDup l → (∀ x, x ∈ l → (x < n)%nat) → (length l ≤ n)%nat.
Proof.
  intros Hnd Hlt.
  assert (l ⊆+ seq 0 n) as Hsub.
  { apply NoDup_submseteq; [done |]. intros x Hx.
    apply elem_of_seq. specialize (Hlt x Hx). lia. }
  apply submseteq_length in Hsub. by rewrite length_seq in Hsub.
Qed.

Lemma ancestors_complete d a x :
  wf d → anc d a x → a ∈ ancestors d (next d) x.
Proof.
  intros Hwf H.
  destruct (anc_in_ancestors d a x H (next d)) as [|Hlen]; [done |].
  exfalso.
  assert (length (x :: ancestors d (next d) x) ≤ next d)%nat as Hle.
  { apply nodup_bounded_length.
    - apply ancestors_nodup, Hwf.
    - intros y [-> | Hy%ancestors_sound]%elem_of_cons.
      + by apply (anc_lt d a).
      + by apply (anc_lt d y x). }
  simpl in Hle. lia.
Qed.

Lemma is_inclusive_ancestor_true d a x :
  wf d → is_inclusive_ancestor d a x = true ↔ a = x ∨ anc d a x.
Proof.
  intros Hwf. unfold is_inclusive_ancestor.
  rewrite bool_decide_eq_true, elem_of_cons. split.
  - intros [-> | H%ancestors_sound]; auto.
  - intros [-> | H]; [by left |]. right. by apply ancestors_complete.
Qed.

Lemma is_inclusive_ancestor_false d a x :
  wf d → is_inclusive_ancestor d a x = false ↔ a ≠ x ∧ ¬ anc d a x.
Proof.
  intros Hwf. rewrite <- not_true_iff_false, is_inclusive_ancestor_true by done.
  tauto.
Qed.

(** A node nobody points to has no descendants. *)
Lemma childless_not_anc d a x :
  wf d → elems (kidsOf d a) = [] → ¬ anc d a x.
Proof.
  intros Hwf Hk H. destruct (anc_has_child d a x H) as (y & Hy).
  apply (wf_parent_kid d Hwf), elem_of_elems in Hy.
  rewrite Hk in Hy. by apply elem_of_nil in Hy.
Qed.

End WellFormed.

(** ** The primitives on well-formed stores *)
Section Primitives.
Implicit Types (d : dom) (a x y p c : nid).

Lemma filter_ne_id (l : list item) c :
  Elem c ∉ l → filter (λ it, it ≠ Elem c) l = l.
Proof.
  induction l as [|it l IH]; [done |].
  rewrite not_elem_of_cons. intros [Hne Hnin].
  rewrite filter_cons_True by done. by rewrite IH.
Qed.

Lemma elems_app (l k : list item) : elems (l ++ k) = elems l ++ elems k.
Proof. apply omap_app. Qed.

Lemma elems_fmap_Elem (l : list nid) : elems (Elem <$> l) = l.
Proof.
  unfold elems. induction l as [|x l IH]; [done |]. csimpl. by f_equal.
Qed.

Lemma elems_filter_sub (P : item → Prop) `{∀ it : item, Decision (P it)} (l : list item) :
  NoDup (elems l) → NoDup (elems (filter P l)).
Proof.
  induction l as [|[s|n] l IH]; [done | |].
  - simpl. intros Hnd. destruct (decide (P (Markup s))).
    + rewrite filter_cons_True by done. simpl. by apply IH.
    + rewrite filter_cons_False by done. by apply IH.
  - simpl. intros [Hn Hnd]%NoDup_cons. destruct (decide (P (Elem n))).
    + rewrite filter_cons_True by done. simpl. apply NoDup_cons. split.
      * rewrite elem_of_elems, list_elem_of_filter.
        rewrite elem_of_elems in Hn. tauto.
      * by apply IH.
    + rewrite filter_cons_False by done. by apply IH.
Qed.

(** *** [createElement] *)

Lemma node_at_alloc t d y :
  node_at (alloc t d) y =
  if decide (y = next d) then Node t [] ∅ EmptyString [] None else node_at d y.
Proof.
  unfold node_at, alloc; simpl. case_decide as E.
  - subst. by rewrite lookup_insert_eq.
  - by rewrite lookup_insert_ne.
Qed.

Lemma kidsOf_alloc t d y : wf d → kidsOf (alloc t d) y = kidsOf d y.
Proof.
  intros Hwf. unfold kidsOf. rewrite node_at_alloc. case_decide; [| done].
  subst. by rewrite (wf_alloc d Hwf).
Qed.

Lemma parentOf_alloc t d y : wf d → parentOf (alloc t d) y = parentOf d y.
Proof.
  intros Hwf. unfold parentOf. rewrite node_at_alloc. case_decide; [| done].
  subst. by rewrite (wf_alloc d Hwf).
Qed.

Lemma tagOf_alloc t d y :
  tagOf (alloc t d) y = if decide (y = next d) then t else tagOf d y.
Proof. unfold tagOf. rewrite node_at_alloc. by case_decide. Qed.

Lemma same_label_alloc t d y : y ≠ next d → same_label d (alloc t d) y.
Proof.
  intros Hne. unfold same_label, tagOf, classesOf, attrsOf, bgImageOf.
  rewrite node_at_alloc. by rewrite decide_False.
Qed.

Lemma attrsOf_alloc t d y : wf d → attrsOf (alloc t d) y = attrsOf d y.
Proof.
  intros Hwf. unfold attrsOf. rewrite node_at_alloc. case_decide; [| done].
  subst. by rewrite (wf_alloc d Hwf).
Qed.

Lemma anc_alloc t d a x : wf d → anc (alloc t d) a x ↔ anc d a x.
Proof.
  intros Hwf. split; apply anc_mono; intros y p;
    by rewrite parentOf_alloc.
Qed.

Lemma wf_alloc_pres t d : wf d → wf (alloc t d).
Proof.
  intros Hwf. split.
  - intros x p. rewrite parentOf_alloc, kidsOf_alloc by done. apply Hwf.
  - intros x p. rewrite parentOf_alloc, kidsOf_alloc by done. apply Hwf.
  - intros p. rewrite kidsOf_alloc by done. apply Hwf.
  - intros x Hx. simpl in Hx. rewrite node_at_alloc.
    rewrite decide_False by lia. apply Hwf. lia.
  - intros x. rewrite anc_alloc by done. apply Hwf.
Qed.

(** *** Setters keep the allocation discipline *)

Lemma node_at_setKids_fresh x ks d y :
  (x < next d)%nat → (next d ≤ y)%nat → node_at (setKids x ks d) y = node_at d y.
Proof. intros. unfold setKids. rewrite node_at_put, decide_False; [done | lia]. Qed.

Lemma node_at_setParent_fresh x (p : option nid) d y :
  (x < next d)%nat → (next d ≤ y)%nat → node_at (setParent x p d) y = node_at d y.
Proof. intros. unfold setParent. rewrite node_at_put, decide_False; [done | lia]. Qed.

Lemma node_at_setAttrs_fresh x (a : gmap string string) d y :
  (x < next d)%nat → (next d ≤ y)%nat → node_at (setAttrs x a d) y = node_at d y.
Proof. intros. unfold setAttrs. rewrite node_at_put, decide_False; [done | lia]. Qed.

(** *** [setAttribute] *)

Lemma anc_setAttrs x (a0 : gmap string string) d a y : anc (setAttrs x a0 d) a y ↔ anc d a y.
Proof.
  split; apply anc_mono; intros z p; by rewrite parentOf_setAttrs.
Qed.

Lemma wf_setAttrs x (a : gmap string string) d : wf d → (x < next d)%nat → wf (setAttrs x a d).
Proof.
  intros Hwf Hx. split.
  - intros z p. dom_simpl. apply Hwf.
  - intros z p. dom_simpl. apply Hwf.
  - intros p. dom_simpl. apply Hwf.
  - intros z Hz. rewrite node_at_setAttrs_fresh by done. by apply Hwf.
  - intros z. rewrite anc_setAttrs. apply Hwf.
Qed.

(** *** [innerHTML] assignment *)

Lemma parentOf_orphan cs d y :
  parentOf (orphan cs d) y = if decide (y ∈ cs) then None else parentOf d y.
Proof.
  induction cs as [|c cs IH].
  - rewrite decide_False; [done | apply not_elem_of_nil].
  - cbn [orphan foldr]. fold (orphan cs d). dom_simpl. rewrite IH.
    destruct (decide (y = c)) as [-> | Hne].
    + rewrite decide_True; [done | apply elem_of_cons; by left].
    + destruct (decide (y ∈ cs)).
      * rewrite decide_True; [done | apply elem_of_cons; by right].
      * rewrite decide_False; [done |]. rewrite elem_of_cons. tauto.
Qed.

Lemma kidsOf_orphan cs d y : kidsOf (orphan cs d) y = kidsOf d y.
Proof. induction cs as [|c cs IH]; simpl; [done |]. by dom_simpl. Qed.

Lemma same_label_orphan cs d y : same_label d (orphan cs d) y.
Proof.
  unfold same_label. induction cs as [|c cs IH]; simpl; [done |]. by dom_simpl.
Qed.

Lemma next_orphan cs d : next (orphan cs d) = next d.
Proof. induction cs as [|c cs IH]; simpl; [done |]. by dom_simpl. Qed.

Lemma node_at_orphan_fresh cs d y :
  (∀ c, c ∈ cs → (c < next d)%nat) → (next d ≤ y)%nat →
  node_at (orphan cs d) y = node_at d y.
Proof.
  induction cs as [|c cs IH]; simpl; [done |]. intros Hcs Hy.
  rewrite node_at_setParent_fresh.
  - apply IH; [| done]. intros c' Hc'. apply Hcs, elem_of_cons. by right.
  - rewrite next_orphan. apply Hcs, elem_of_cons. by left.
  - by rewrite next_orphan.
Qed.

Lemma kidsOf_rewrite_markup x s d y :
  kidsOf (rewrite_markup x s d) y =
  if decide (y = x) then [Markup s] else kidsOf d y.
Proof. unfold rewrite_markup. dom_simpl. by rewrite kidsOf_orphan. Qed.

Lemma parentOf_rewrite_markup x s d y :
  parentOf (rewrite_markup x s d) y =
  if decide (Elem y ∈ kidsOf d x) then None else parentOf d y.
Proof.
  unfold rewrite_markup. dom_simpl. rewrite parentOf_orphan.
  destruct (decide (y ∈ elems (kidsOf d x))) as [Hin | Hnin].
  - apply elem_of_elems in Hin. by rewrite decide_True.
  - rewrite elem_of_elems in Hnin. by rewrite decide_False.
Qed.

Lemma same_label_rewrite_markup x s d y : same_label d (rewrite_markup x s d) y.
Proof.
  unfold rewrite_markup, same_label. dom_simpl. apply same_label_orphan.
Qed.

Lemma next_rewrite_markup x s d : next (rewrite_markup x s d) = next d.
Proof. unfold rewrite_markup. dom_simpl. apply next_orphan. Qed.

Lemma wf_rewrite_markup x s d :
  wf d → (x < next d)%nat → wf (rewrite_markup x s d).
Proof.
  intros Hwf Hx. split.
  - intros z p. rewrite parentOf_rewrite_markup, kidsOf_rewrite_markup.
    case_decide as Hz; [done |]. intros Hp.
    case_decide as Hpx; [| by apply Hwf].
    subst p. by apply (wf_parent_kid d Hwf) in Hp.
  - intros z p. rewrite parentOf_rewrite_markup, kidsOf_rewrite_markup.
    case_decide as Hpx.
    + intros Hin%list_elem_of_singleton. done.
    + intros Hin. pose proof (wf_kid_parent d Hwf z p Hin) as Hp.
      case_decide as Hz; [| done].
      apply (wf_kid_parent d Hwf) in Hz. congruence.
  - intros p. rewrite kidsOf_rewrite_markup. case_decide; [| apply Hwf].
    simpl. apply NoDup_nil_2.
  - intros z Hz. rewrite next_rewrite_markup in Hz.
    unfold rewrite_markup. rewrite node_at_setKids_fresh.
    + rewrite node_at_orphan_fresh; [by apply Hwf | | done].
      intros c Hc%elem_of_elems. by apply (wf_kid_lt d c x).
    + by rewrite next_orphan.
    + by rewrite next_orphan.
  - intros z Hz. apply (wf_acyclic d Hwf z).
    revert Hz. apply anc_mono. intros y p.
    rewrite parentOf_rewrite_markup. by case_decide.
Qed.

End Primitives.

Section Moves.
Implicit Types (d : dom) (a x y p c : nid).

(** *** Detaching *)

Lemma kidsOf_detach c d y :
  wf d → kidsOf (detach c d) y = filter (λ it, it ≠ Elem c) (kidsOf d y).
Proof.
  intros Hwf. unfold detach.
  destruct (parentOf d c) as [q|] eqn:Hq.
  - dom_simpl. case_decide as E; [by subst |].
    symmetry. apply filter_ne_id. intros Hin.
    apply (wf_kid_parent d Hwf) in Hin. congruence.
  - symmetry. apply filter_ne_id. intros Hin.
    apply (wf_kid_parent d Hwf) in Hin. congruence.
Qed.

Lemma parentOf_detach c d y :
  parentOf (detach c d) y = if decide (y = c) then None else parentOf d y.
Proof.
  unfold detach. destruct (parentOf d c) as [q|] eqn:Hq.
  - by dom_simpl.
  - case_decide; by subst.
Qed.

Lemma same_label_detach c d y : same_label d (detach c d) y.
Proof.
  unfold detach, same_label. destruct (parentOf d c); [by dom_simpl | done].
Qed.

Lemma next_detach c d : next (detach c d) = next d.
Proof. unfold detach. by destruct (parentOf d c). Qed.

Lemma node_at_detach_fresh c d y :
  wf d → (next d ≤ y)%nat → node_at (detach c d) y = node_at d y.
Proof.
  intros Hwf Hy. unfold detach. destruct (parentOf d c) as [q|] eqn:Hq; [| done].
  destruct (wf_parent_lt d c q Hwf Hq).
  rewrite node_at_setParent_fresh, node_at_setKids_fresh; done.
Qed.

(** *** [append] *)

Lemma kidsOf_adopt p c d y :
  wf d →
  kidsOf (adopt p c d) y =
  if decide (y = p)
  then filter (λ it, it ≠ Elem c) (kidsOf d p) ++ [Elem c]
  else filter (λ it, it ≠ Elem c) (kidsOf d y).
Proof.
  intros Hwf. unfold adopt. dom_simpl. rewrite !kidsOf_detach by done.
  by case_decide.
Qed.

Lemma parentOf_adopt p c d y :
  parentOf (adopt p c d) y = if decide (y = c) then Some p else parentOf d y.
Proof.
  unfold adopt. dom_simpl. rewrite parentOf_detach. by case_decide.
Qed.

Lemma same_label_adopt p c d y : same_label d (adopt p c d) y.
Proof. unfold adopt, same_label. dom_simpl. apply same_label_detach. Qed.

Lemma next_adopt p c d : next (adopt p c d) = next d.
Proof. unfold adopt. dom_simpl. apply next_detach. Qed.

Lemma wf_adopt p c d :
  wf d → (p < next d)%nat → (c < next d)%nat →
  c ≠ p → ¬ anc d c p → wf (adopt p c d).
Proof.
  intros Hwf Hp Hc Hne Hanc. split.
  - intros x q. rewrite parentOf_adopt, kidsOf_adopt by done.
    destruct (decide (x = c)) as [-> | Hxc].
    + intros [= <-]. rewrite decide_True by done.
      apply elem_of_app. right. by apply list_elem_of_singleton.
    + intros Hq%(wf_parent_kid d Hwf).
      assert (Elem x ∈ filter (λ it, it ≠ Elem c) (kidsOf d q)).
      { apply list_elem_of_filter. split; [congruence | done]. }
      case_decide; [subst; apply elem_of_app; by left | done].
  - intros x q. rewrite parentOf_adopt, kidsOf_adopt by done.
    destruct (decide (q = p)) as [-> | Hqp].
    + rewrite elem_of_app, list_elem_of_filter, list_elem_of_singleton.
      intros [[Hxc Hin] | [= ->]].
      * rewrite decide_False by congruence. by apply Hwf.
      * by rewrite decide_True.
    + rewrite list_elem_of_filter. intros [Hxc Hin].
      rewrite decide_False by congruence. by apply Hwf.
  - intros q. rewrite kidsOf_adopt by done.
    pose proof (elems_filter_sub (λ it, it ≠ Elem c) (kidsOf d q)
                  (wf_kids_nodup d Hwf q)) as Hnd.
    case_decide; [| done]. subst q.
    rewrite elems_app. simpl. apply NoDup_app. split_and!; [done | |].
    + intros x Hx%elem_of_elems%list_elem_of_filter
        ->%list_elem_of_singleton. by destruct Hx.
    + apply NoDup_singleton.
  - intros x Hx. rewrite next_adopt in Hx. unfold adopt.
    rewrite node_at_setParent_fresh, node_at_setKids_fresh,
      node_at_detach_fresh; rewrite ?next_setKids, ?next_detach; try done.
    by apply Hwf.
  - apply (acyclic_attach d (adopt p c d) c p); [| | apply Hwf | done | done].
    + intros y q Hy. rewrite parentOf_adopt. by rewrite decide_False.
    + rewrite parentOf_adopt. by rewrite decide_True.
Qed.

Lemma wp_append p c d (Q : unit → dom → Prop) :
  wf d → c ≠ p → ¬ anc d c p → Q tt (adopt p c d) → wp (append p c) d Q.
Proof.
  intros Hwf Hne Hanc HQ. unfold wp, append.
  by rewrite (proj2 (is_inclusive_ancestor_false d c p Hwf)).
Qed.

(** *** [replaceWith] with a detached replacement *)

Lemma detach_orphan c d : parentOf d c = None → detach c d = d.
Proof. unfold detach. by intros ->. Qed.

Lemma kidsOf_swap p old new d y :
  parentOf d new = None →
  kidsOf (swap p old new d) y =
  if decide (y = p) then subst_item old new (kidsOf d p) else kidsOf d y.
Proof. intros Hn. unfold swap. rewrite detach_orphan by done. by dom_simpl. Qed.

Lemma parentOf_swap p old new d y :
  parentOf d new = None →
  parentOf (swap p old new d) y =
  if decide (y = new) then Some p
  else if decide (y = old) then None else parentOf d y.
Proof. intros Hn. unfold swap. rewrite detach_orphan by done. by dom_simpl. Qed.

Lemma same_label_swap p old new d y : same_label d (swap p old new d) y.
Proof. unfold swap, same_label. dom_simpl. apply same_label_detach. Qed.

Lemma next_swap p old new d : next (swap p old new d) = next d.
Proof. unfold swap. dom_simpl. apply next_detach. Qed.

Lemma elem_of_subst_item old new (ks : list item) (it : item) :
  it ∈ subst_item old new ks ↔
  (it = Elem new ∧ Elem old ∈ ks) ∨ (it ≠ Elem old ∧ it ∈ ks).
Proof.
  unfold subst_item. rewrite list_elem_of_fmap. split.
  - intros (it' & -> & Hin). case_decide; [subst; by left | by right].
  - intros [[-> Hin] | [Hne Hin]].
    + exists (Elem old). by rewrite decide_True.
    + exists it. by rewrite decide_False.
Qed.

Lemma subst_item_cons old new (it : item) (ks : list item) :
  subst_item old new (it :: ks) =
  (if decide (it = Elem old) then Elem new else it) :: subst_item old new ks.
Proof. done. Qed.

Lemma elems_cons_Markup s (l : list item) : elems (Markup s :: l) = elems l.
Proof. done. Qed.

Lemma elems_cons_Elem n (l : list item) : elems (Elem n :: l) = n :: elems l.
Proof. done. Qed.

Lemma elems_subst_item old new (ks : list item) :
  elems (subst_item old new ks) =
  (λ x, if decide (x = old) then new else x) <$> elems ks.
Proof.
  induction ks as [|[s|n] ks IH]; [done | |]; rewrite subst_item_cons.
  - rewrite decide_False by done. by rewrite !elems_cons_Markup.
  - rewrite elems_cons_Elem, fmap_cons, <- IH.
    destruct (decide (n = old)) as [-> | Hne].
    + by rewrite decide_True.
    + rewrite decide_False by congruence. done.
Qed.

Lemma wf_swap p old new d :
  wf d → parentOf d old = Some p → parentOf d new = None →
  (new < next d)%nat → new ≠ old → new ≠ p → ¬ anc d new p →
  wf (swap p old new d).
Proof.
  intros Hwf Hold Hnew Hlt Hno Hnp Hanc.
  destruct (wf_parent_lt d old p Hwf Hold) as [Holt Hplt].
  assert (∀ q, Elem new ∉ kidsOf d q) as Hnk.
  { intros q Hin%(wf_kid_parent d Hwf). congruence. }
  split.
  - intros x q. rewrite parentOf_swap, kidsOf_swap by done.
    destruct (decide (x = new)) as [-> | Hxn].
    + intros [= <-]. rewrite decide_True by done.
      apply elem_of_subst_item. left. split; [done |]. by apply Hwf.
    + destruct (decide (x = old)) as [-> | Hxo]; [done |].
      intros Hq%(wf_parent_kid d Hwf).
      case_decide; [| done]. subst q.
      apply elem_of_subst_item. right. split; [congruence | done].
  - intros x q. rewrite parentOf_swap, kidsOf_swap by done.
    destruct (decide (q = p)) as [-> | Hqp].
    + rewrite elem_of_subst_item. intros [[[= ->] _] | [Hxo Hin]].
      * by rewrite decide_True.
      * rewrite decide_False by (intros ->; by apply (Hnk p)).
        rewrite decide_False by congruence. by apply Hwf.
    + intros Hin. rewrite decide_False by (intros ->; by apply (Hnk q)).
      pose proof (wf_kid_parent d Hwf x q Hin).
      rewrite decide_False by congruence. done.
  - intros q. rewrite kidsOf_swap by done. case_decide; [| apply Hwf].
    subst q. rewrite elems_subst_item.
    apply NoDup_fmap_2_strong; [| apply Hwf].
    intros x y Hx%elem_of_elems Hy%elem_of_elems.
    repeat case_decide; subst; try done.
    + intros <-. by destruct (Hnk p).
    + intros ->. by destruct (Hnk p).
  - intros x Hx. rewrite next_swap in Hx. unfold swap.
    rewrite detach_orphan by done.
    rewrite !node_at_setParent_fresh, node_at_setKids_fresh;
      rewrite ?next_setParent, ?next_setKids; try done.
    by apply Hwf.
  - apply (acyclic_attach d (swap p old new d) new p);
      [| | apply Hwf | done | done].
    + intros y q Hy. rewrite parentOf_swap by done.
      rewrite decide_False by done. by case_decide.
    + rewrite parentOf_swap by done. by rewrite decide_True.
Qed.

Lemma wp_replaceWith old new p d (Q : unit → dom → Prop) :
  wf d → parentOf d old = Some p → new ≠ old → new ≠ p → ¬ anc d new p →
  Q tt (swap p old new d) → wp (replaceWith old new) d Q.
Proof.
  intros Hwf Hold Hno Hnp Hanc HQ. unfold wp, replaceWith.
  rewrite Hold, decide_False by done.
  by rewrite (proj2 (is_inclusive_ancestor_false d new p Hwf)).
Qed.

End Moves.

(** ** Queries *)
Section Queries.
Implicit Types (d : dom) (a x y p c n : nid).

Lemma descendants_anc d f n x : wf d → x ∈ descendants d f n → anc d n x.
Proof.
  intros Hwf. revert n. induction f as [|f IH]; intros n; simpl.
  - by intros ?%elem_of_nil.
  - intros (c & Hx & Hc%elem_of_elems%(wf_kid_parent d Hwf))%list_elem_of_bind.
    apply elem_of_cons in Hx as [-> | Hx]; [by apply anc_parent |].
    eapply anc_trans; [by apply anc_parent | by apply IH].
Qed.

Lemma anc_sibling d n c1 c2 :
  wf d → parentOf d c1 = Some n → parentOf d c2 = Some n → ¬ anc d c1 c2.
Proof.
  intros Hwf H1 H2 H. apply anc_inv in H as (q & Hq & H).
  assert (q = n) as -> by congruence.
  apply (wf_acyclic d Hwf c1). destruct H as [-> | H].
  - by apply anc_parent.
  - eapply anc_trans; [done |]. by apply anc_parent.
Qed.

Lemma descendants_nodup d f n : wf d → NoDup (descendants d f n).
Proof.
  intros Hwf. revert n. induction f as [|f IH]; intros n; simpl.
  { apply NoDup_nil_2. }
  apply NoDup_bind; [| | apply Hwf].
  - intros c1 c2 y Hc1%elem_of_elems%(wf_kid_parent d Hwf)
      Hc2%elem_of_elems%(wf_kid_parent d Hwf) Hy1 Hy2.
    destruct (decide (c1 = c2)) as [| Hne]; [done | exfalso].
    apply elem_of_cons in Hy1 as [-> | Hy1%descendants_anc]; [| | done];
      apply elem_of_cons in Hy2 as [-> | Hy2%descendants_anc]; try done.
    + by apply (anc_sibling d n c2 c1).
    + by apply (anc_sibling d n c1 c2).
    + destruct (anc_linear d c1 c2 y Hy1 Hy2) as [? | [? | ?]]; [done | |].
      * by apply (anc_sibling d n c1 c2).
      * by apply (anc_sibling d n c2 c1).
  - intros c _. apply NoDup_cons. split; [| apply IH].
    intros H%descendants_anc; [| done]. by apply (wf_acyclic d Hwf c).
Qed.

Lemma querySelectorAll_anc d n sel x :
  wf d → x ∈ querySelectorAll d n sel → anc d n x.
Proof.
  intros Hwf [_ H]%list_elem_of_filter. by eapply descendants_anc.
Qed.

Lemma querySelectorAll_matches d n sel x :
  x ∈ querySelectorAll d n sel → matches d sel x = true.
Proof. by intros [H _]%list_elem_of_filter. Qed.

Lemma querySelectorAll_nodup d n sel : wf d → NoDup (querySelectorAll d n sel).
Proof. intros Hwf. apply NoDup_filter. by apply descendants_nodup. Qed.

Lemma querySelector_anc d n sel x :
  wf d → querySelector d n sel = Some x → anc d n x.
Proof.
  intros Hwf H. apply (querySelectorAll_anc d n sel x Hwf).
  unfold querySelector in H. destruct (querySelectorAll d n sel); [done |].
  simpl in H. injection H as ->. apply elem_of_cons. by left.
Qed.

End Queries.

(** ** Checking explicit stores *)
Section Check.
Implicit Types (d : dom) (x y p c : nid).

Lemma wf_check_alloc d x :
  wf_check d = true → (next d ≤ x)%nat → node_at d x = blank.
Proof.
  intros [_ H]%andb_true_iff Hx. apply node_at_blank.
  destruct (nodes d !! x) as [n|] eqn:Hn; [| done].
  rewrite forallb_forall in H.
  specialize (H (x, n)). simpl in H.
  apply Nat.ltb_lt in H; [lia |].
  apply list_elem_of_In, elem_of_map_to_list. done.
Qed.

Lemma wf_check_node d x :
  wf_check d = true → (x < next d)%nat → wf_node d x = true.
Proof.
  intros [H _]%andb_true_iff Hx. rewrite forallb_forall in H.
  apply H, list_elem_of_In, elem_of_seq. lia.
Qed.

Lemma wf_check_sound d : wf_check d = true → wf d.
Proof.
  intros Hc.
  assert (∀ x, (next d ≤ x)%nat → parentOf d x = None ∧ kidsOf d x = []) as Hfresh.
  { intros x Hx. unfold parentOf, kidsOf. by rewrite (wf_check_alloc d x Hc Hx). }
  assert (∀ x, (x < next d)%nat →
    (∀ p, parentOf d x = Some p → Elem x ∈ kidsOf d p) ∧
    (∀ c, Elem c ∈ kidsOf d x → parentOf d c = Some x) ∧
    NoDup (elems (kidsOf d x)) ∧
    (x ∉ ancestors d (next d) x) ∧
    (length (ancestors d (next d) x) < next d)%nat) as Hnode.
  { intros x Hx. pose proof (wf_check_node d x Hc Hx) as H.
    unfold wf_node in H. rewrite !andb_true_iff in H.
    destruct H as ((((H1 & H2) & H3) & H4) & H5).
    split_and!.
    - intros p Hp. rewrite Hp in H1. by apply bool_decide_eq_true in H1.
    - intros c Hin%elem_of_elems. rewrite forallb_forall in H2.
      apply list_elem_of_In, H2 in Hin. by apply bool_decide_eq_true in Hin.
    - by apply bool_decide_eq_true in H3.
    - by apply bool_decide_eq_true in H4.
    - by apply Nat.ltb_lt in H5. }
  split.
  - intros x p Hp. destruct (decide (x < next d)%nat) as [Hx | Hx].
    + by apply (Hnode x Hx).
    + destruct (Hfresh x) as [H _]; [lia | congruence].
  - intros x p Hin. destruct (decide (p < next d)%nat) as [Hp | Hp].
    + by apply (Hnode p Hp).
    + destruct (Hfresh p) as [_ H]; [lia |]. rewrite H in Hin.
      by apply elem_of_nil in Hin.
  - intros p. destruct (decide (p < next d)%nat) as [Hp | Hp].
    + by apply (Hnode p Hp).
    + destruct (Hfresh p) as [_ ->]; [lia |]. apply NoDup_nil_2.
  - intros x Hx. by apply wf_check_alloc.
  - intros x Hanc.
    assert (x < next d)%nat as Hx.
    { destruct (decide (x < next d)%nat) as [| Hge]; [done |].
      apply anc_inv in Hanc as (p & Hp & _).
      destruct (Hfresh x) as [H _]; [lia | congruence]. }
    destruct (Hnode x Hx) as (_ & _ & _ & Hnin & Hlen).
    destruct (anc_in_ancestors d x x Hanc (next d)); [done | lia].
Qed.

Lemma wf_empty : wf empty_dom.
Proof. by apply wf_check_sound. Qed.

End Check.

(** ** [createTable] on a well-formed store

    [d0] is the store the builder starts from and [next d0] separates the
    nodes it finds from the nodes it creates.  [built d0 E d] says that [d]
    comes from [d0] by creating nodes and moving the elements [E] of [d0]
    below created ones. *)
(** *** Elements given more than once *)
Section Kept.
Implicit Types (l later L : list nid) (c e : nid).

Lemma filter_notin_nil (l : list item) :
  filter (λ it, it ∉ Elem <$> ([] : list nid)) l = l.
Proof.
  induction l as [|it l IH]; [done |].
  rewrite filter_cons_True; [by rewrite IH |]. apply not_elem_of_nil.
Qed.

Lemma filter_notin_app E L (l : list item) :
  filter (λ it, it ∉ Elem <$> L) (filter (λ it, it ∉ Elem <$> E) l) =
  filter (λ it, it ∉ Elem <$> (E ++ L)) l.
Proof.
  rewrite list_filter_filter. apply list_filter_iff. intros it.
  rewrite fmap_app, elem_of_app. tauto.
Qed.

Lemma filter_notin_one c (l : list item) :
  filter (λ it, it ≠ Elem c) l = filter (λ it, it ∉ Elem <$> [c]) l.
Proof.
  apply list_filter_iff. intros it. simpl. by rewrite list_elem_of_singleton.
Qed.

Lemma filter_notin_snoc E c (l : list item) :
  filter (λ it, it ≠ Elem c) (filter (λ it, it ∉ Elem <$> E) l) =
  filter (λ it, it ∉ Elem <$> (E ++ [c])) l.
Proof. by rewrite filter_notin_one, filter_notin_app. Qed.

Lemma elem_of_fmap_Elem e l : Elem e ∈ Elem <$> l ↔ e ∈ l.
Proof.
  rewrite list_elem_of_fmap. split; [by intros (? & [= <-] & ?) | eauto].
Qed.

(** Elements moved away afterwards are elements given again. *)
Lemma kept_filter l later L :
  filter (λ it, it ∉ Elem <$> L) (Elem <$> kept l later) =
  Elem <$> kept l (later ++ L).
Proof.
  induction l as [|e l IH]; [done |]. cbn [kept].
  destruct (decide (e ∈ l ++ later)) as [Hin | Hnin].
  - rewrite decide_True; [done |].
    rewrite app_assoc. apply elem_of_app. by left.
  - rewrite fmap_cons. destruct (decide (e ∈ L)) as [HL | HL].
    + rewrite filter_cons_False by (rewrite elem_of_fmap_Elem; tauto).
      rewrite decide_True; [done |].
      rewrite app_assoc. apply elem_of_app. by right.
    + rewrite filter_cons_True by by rewrite elem_of_fmap_Elem.
      rewrite decide_False; [by rewrite fmap_cons, IH |].
      rewrite app_assoc, elem_of_app. tauto.
Qed.

Lemma kept_app l m later :
  kept (l ++ m) later = kept l (m ++ later) ++ kept m later.
Proof.
  induction l as [|e l IH]; [done |]. cbn [kept app].
  rewrite <- (app_assoc l m later).
  destruct (decide (e ∈ l ++ m ++ later)); [done |]. by rewrite IH.
Qed.

Lemma kept_nodup l later : NoDup (l ++ later) → kept l later = l.
Proof.
  induction l as [|e l IH]; [done |]. cbn [kept app].
  intros [Hnin Hnd]%NoDup_cons. rewrite decide_False by done.
  by rewrite IH.
Qed.

(** Appending [c] to the cell that holds what is kept of [l]. *)
Lemma kept_snoc l c :
  filter (λ it, it ∉ Elem <$> [c]) (Elem <$> kept l []) ++ [Elem c] =
  Elem <$> kept (l ++ [c]) [].
Proof.
  rewrite kept_filter, kept_app, fmap_app. cbn [kept app].
  by rewrite decide_False by apply not_elem_of_nil.
Qed.

Lemma cell_kept_filter (content : cell) later L :
  filter (λ it, it ∉ Elem <$> L) (cell_kept content later) =
  cell_kept content (later ++ L).
Proof.
  destruct content as [s | cs | c]; cbn [cell_kept]; [| apply kept_filter ..].
  rewrite filter_cons_True; [done |].
  by intros (? & [=] & ?)%list_elem_of_fmap.
Qed.

Lemma cell_kept_nodup (content : cell) later :
  NoDup (cell_elems content ++ later) → cell_kept content later = cell_items content.
Proof.
  destruct content as [s | cs | c]; cbn [cell_kept cell_elems cell_items];
    [done | |]; intros Hnd; by rewrite kept_nodup.
Qed.

(** Created nodes are not among the elements moved. *)
Lemma filter_notin_created (lo : nid) L (cs : list nid) :
  (∀ e, e ∈ L → (e < lo)%nat) → Forall (λ c, (lo ≤ c)%nat) cs →
  filter (λ it, it ∉ Elem <$> L) (Elem <$> cs) = Elem <$> cs.
Proof.
  intros HL Hcs. induction Hcs as [|c cs Hc Hcs IH]; [done |].
  rewrite fmap_cons, filter_cons_True, IH; [done |].
  rewrite elem_of_fmap_Elem. intros Hin%HL. lia.
Qed.

End Kept.

Section Table.
Context (d0 : dom) (Hwf0 : wf d0).
Implicit Types (d : dom) (E L : list nid) (x y p c t : nid).

Lemma same_label_refl d y : same_label d d y.
Proof. done. Qed.

Lemma same_label_trans d d' d'' y :
  same_label d d' y → same_label d' d'' y → same_label d d'' y.
Proof.
  intros (?&?&?&?) (?&?&?&?). unfold same_label. split_and!; congruence.
Qed.

Lemma built_init : built d0 [] d0.
Proof.
  split; try done.
  - intros y _. by rewrite filter_notin_nil.
  - intros y Hy. by apply elem_of_nil in Hy.
  - intros y q Hy Hp. destruct (wf_parent_lt d0 y q Hwf0 Hp). lia.
Qed.

Lemma frame_refl T d : frame d0 T [] d d.
Proof. split; [done |]. intros y _. by rewrite filter_notin_nil. Qed.

Lemma frame_trans T L1 L2 d d' d'' :
  frame d0 T L1 d d' → frame d0 T L2 d' d'' → frame d0 T (L1 ++ L2) d d''.
Proof.
  intros [Hn1 H1] [Hn2 H2]. split; [lia |]. intros y Hy.
  destruct (H1 y Hy) as (Ht1 & Hp1 & Hk1).
  destruct (H2 y) as (Ht2 & Hp2 & Hk2); [lia |].
  split_and!; [congruence | congruence |].
  intros Hne. by rewrite Hk2, Hk1, filter_notin_app.
Qed.

Lemma built_anc_new E d a y :
  built d0 E d → (next d0 ≤ y)%nat → anc d a y → (next d0 ≤ a)%nat.
Proof.
  intros Hb Hy H. induction H as [x p Hp | x p a Hp Hap IH].
  - by apply (bt_new d0 E d Hb x p).
  - apply IH. by apply (bt_new d0 E d Hb x p).
Qed.

(** *** The four kinds of step *)

Lemma built_alloc E d (tg : string) : built d0 E d → built d0 E (alloc tg d).
Proof.
  intros Hb. pose proof (bt_wf d0 E d Hb) as Hwf.
  pose proof (bt_next d0 E d Hb) as Hn. split.
  - by apply wf_alloc_pres.
  - simpl. lia.
  - intros y Hy. eapply same_label_trans; [by apply (bt_label d0 E d Hb) |].
    apply same_label_alloc. lia.
  - intros y Hy. rewrite kidsOf_alloc by done. by apply (bt_kids d0 E d Hb).
  - intros y Hy HyE. rewrite parentOf_alloc by done. by apply (bt_parent d0 E d Hb).
  - intros y HyE. rewrite parentOf_alloc by done. by apply (bt_moved d0 E d Hb).
  - intros y q Hy. rewrite parentOf_alloc by done. by apply (bt_new d0 E d Hb).
Qed.

Lemma frame_alloc T d (tg : string) : wf d → frame d0 T [] d (alloc tg d).
Proof.
  intros Hwf. split; [simpl; lia |]. intros y Hy.
  rewrite tagOf_alloc, parentOf_alloc, kidsOf_alloc by done.
  rewrite decide_False by lia. by rewrite filter_notin_nil.
Qed.

Lemma built_markup E d t s :
  built d0 E d → (next d0 ≤ t < next d)%nat → elems (kidsOf d t) = [] →
  built d0 E (rewrite_markup t s d).
Proof.
  intros Hb Ht Hk. pose proof (bt_wf d0 E d Hb) as Hwf.
  assert (∀ y, parentOf (rewrite_markup t s d) y = parentOf d y) as Hpar.
  { intros y. rewrite parentOf_rewrite_markup. case_decide as Hin; [| done].
    apply elem_of_elems in Hin. rewrite Hk in Hin. by apply elem_of_nil in Hin. }
  split.
  - apply wf_rewrite_markup; [done | lia].
  - rewrite next_rewrite_markup. by apply (bt_next d0 E d Hb).
  - intros y Hy. eapply same_label_trans; [by apply (bt_label d0 E d Hb) |].
    apply same_label_rewrite_markup.
  - intros y Hy. rewrite kidsOf_rewrite_markup, decide_False by lia.
    by apply (bt_kids d0 E d Hb).
  - intros y Hy HyE. rewrite Hpar. by apply (bt_parent d0 E d Hb).
  - intros y HyE. rewrite Hpar. by apply (bt_moved d0 E d Hb).
  - intros y q Hy. rewrite Hpar. by apply (bt_new d0 E d Hb).
Qed.

Lemma frame_markup E d t s :
  built d0 E d → elems (kidsOf d t) = [] → frame d0 t [] d (rewrite_markup t s d).
Proof.
  intros Hb Hk. split; [by rewrite next_rewrite_markup |]. intros y Hy.
  destruct (same_label_rewrite_markup t s d y) as (-> & _).
  rewrite parentOf_rewrite_markup, kidsOf_rewrite_markup. split_and!; [done | |].
  - case_decide as Hin; [| done].
    apply elem_of_elems in Hin. rewrite Hk in Hin. by apply elem_of_nil in Hin.
  - intros Hne. by rewrite decide_False, filter_notin_nil.
Qed.

(** Moving a found element below a created node, from wherever it is. *)
Lemma built_adopt_old E d t c :
  built d0 E d → (next d0 ≤ t < next d)%nat → (c < next d0)%nat →
  built d0 (E ++ [c]) (adopt t c d).
Proof.
  intros Hb Ht Hc. pose proof (bt_wf d0 E d Hb) as Hwf.
  pose proof (bt_next d0 E d Hb) as Hn. split.
  - apply wf_adopt; [done | lia | lia | lia |].
    intros H%(built_anc_new E); [lia | done | lia].
  - by rewrite next_adopt.
  - intros y Hy. eapply same_label_trans; [by apply (bt_label d0 E d Hb) |].
    apply same_label_adopt.
  - intros y Hy. rewrite kidsOf_adopt, decide_False by (done || lia).
    rewrite (bt_kids d0 E d Hb y Hy). apply filter_notin_snoc.
  - intros y Hy. rewrite elem_of_app, list_elem_of_singleton. intros HyE.
    rewrite parentOf_adopt, decide_False by tauto.
    apply (bt_parent d0 E d Hb y Hy). tauto.
  - intros y. rewrite elem_of_app, list_elem_of_singleton, parentOf_adopt.
    intros [HyE | ->].
    + case_decide; [exists t; split; [done | lia] |].
      by apply (bt_moved d0 E d Hb).
    + rewrite decide_True by done. exists t. split; [done | lia].
  - intros y q Hy. rewrite parentOf_adopt, decide_False by lia.
    by apply (bt_new d0 E d Hb).
Qed.

Lemma frame_adopt_old d t c :
  wf d → (c < next d0)%nat → frame d0 t [c] d (adopt t c d).
Proof.
  intros Hwf Hc. split; [by rewrite next_adopt |]. intros y Hy.
  destruct (same_label_adopt t c d y) as (-> & _).
  rewrite parentOf_adopt, kidsOf_adopt by done.
  rewrite decide_False by lia. split_and!; [done | done |].
  intros Hne. rewrite decide_False by done. apply filter_notin_one.
Qed.

Lemma kidsOf_adopt_old d t c :
  wf d →
  kidsOf (adopt t c d) t =
  filter (λ it, it ∉ Elem <$> [c]) (kidsOf d t) ++ [Elem c].
Proof.
  intros Hwf. rewrite kidsOf_adopt, decide_True by done.
  by rewrite filter_notin_one.
Qed.

(** Hanging a created, still detached node below another created node. *)
Lemma built_adopt_new E d p c :
  built d0 E d → (next d0 ≤ p < next d)%nat → (next d0 ≤ c < next d)%nat →
  parentOf d c = None → c ≠ p → ¬ anc d c p →
  built d0 E (adopt p c d).
Proof.
  intros Hb Hp Hc Hpc Hne Hanc. pose proof (bt_wf d0 E d Hb) as Hwf.
  assert (∀ y, Elem c ∉ kidsOf d y) as Hnk.
  { intros y Hin%(wf_kid_parent d Hwf). congruence. }
  split.
  - apply wf_adopt; (done || lia).
  - rewrite next_adopt. by apply (bt_next d0 E d Hb).
  - intros y Hy. eapply same_label_trans; [by apply (bt_label d0 E d Hb) |].
    apply same_label_adopt.
  - intros y Hy. rewrite kidsOf_adopt, decide_False by (done || lia).
    rewrite filter_ne_id by done. by apply (bt_kids d0 E d Hb).
  - intros y Hy HyE. rewrite parentOf_adopt, decide_False by lia.
    by apply (bt_parent d0 E d Hb).
  - intros y HyE. destruct (bt_moved d0 E d Hb y HyE) as (q & Hq & Hbq).
    rewrite parentOf_adopt, decide_False by congruence. eauto.
  - intros y q Hy. rewrite parentOf_adopt. case_decide.
    + intros [= <-]. lia.
    + by apply (bt_new d0 E d Hb).
Qed.

Lemma kidsOf_adopt_new d p c :
  wf d → parentOf d c = None →
  kidsOf (adopt p c d) p = kidsOf d p ++ [Elem c].
Proof.
  intros Hwf Hpc. rewrite kidsOf_adopt, decide_True by done.
  f_equal. apply filter_ne_id. intros Hin%(wf_kid_parent d Hwf). congruence.
Qed.

Lemma tagOf_adopt d p c y : tagOf (adopt p c d) y = tagOf d y.
Proof. by destruct (same_label_adopt p c d y) as (-> & _). Qed.

Lemma kidsOf_adopt_other d p c y :
  wf d → parentOf d c = None → y ≠ p →
  kidsOf (adopt p c d) y = kidsOf d y.
Proof.
  intros Hwf Hpc Hne. rewrite kidsOf_adopt, decide_False by done.
  apply filter_ne_id. intros Hin%(wf_kid_parent d Hwf). congruence.
Qed.

Lemma frame_adopt_new d p c :
  wf d → parentOf d c = None → (next d0 ≤ c)%nat →
  ∀ y, y ≠ c →
    tagOf (adopt p c d) y = tagOf d y ∧
    parentOf (adopt p c d) y = parentOf d y ∧
    (y ≠ p → kidsOf (adopt p c d) y = kidsOf d y).
Proof.
  intros Hwf Hpc _ y Hy.
  rewrite tagOf_adopt, parentOf_adopt, decide_False by done.
  split_and!; [done | done |]. intros Hne. by apply kidsOf_adopt_other.
Qed.

(** *** Cells *)

Lemma fillCell_spec E d t (content : cell) :
  built d0 E d → (next d0 ≤ t < next d)%nat → kidsOf d t = [] →
  (∀ e, e ∈ cell_elems content → (e < next d0)%nat) →
  wp (fillCell t content) d (λ _ d',
    built d0 (E ++ cell_elems content) d' ∧
    frame d0 t (cell_elems content) d d' ∧
    next d' = next d ∧ kidsOf d' t = cell_kept content []).
Proof.
  intros Hb Ht Hk Hold. pose proof (bt_wf d0 E d Hb) as Hwf.
  destruct content as [s | cs | c]; cbn [fillCell cell_elems cell_kept] in *.
  - apply wp_modify. rewrite app_nil_r. split_and!.
    + apply built_markup; [done | done | by rewrite Hk].
    + eapply frame_markup; [done | by rewrite Hk].
    + apply next_rewrite_markup.
    + by rewrite kidsOf_rewrite_markup, decide_True.
  - eapply wp_mono.
    { apply (wp_forEach (λ c, append t c)
               (λ done d', built d0 (E ++ done) d' ∧ frame d0 t done d d' ∧
                           next d' = next d ∧
                           kidsOf d' t = Elem <$> kept done [])).
      - rewrite app_nil_r. split_and!; [done | apply frame_refl | done | done].
      - intros done c rest d1 -> (Hb1 & Hf1 & Hn1 & Hk1).
        pose proof (bt_wf d0 _ d1 Hb1) as Hwf1.
        assert (c < next d0)%nat as Hc.
        { apply Hold. apply elem_of_app. right. apply elem_of_cons. by left. }
        assert (next d0 ≤ t < next d1)%nat as Ht1 by lia.
        apply wp_append; [done | lia | |].
        { intros H%(built_anc_new (E ++ done)); [lia | done | lia]. }
        split_and!.
        + rewrite app_assoc. by apply built_adopt_old.
        + eapply frame_trans; [done |]. by apply frame_adopt_old.
        + by rewrite next_adopt.
        + rewrite kidsOf_adopt_old by done. rewrite Hk1. apply kept_snoc. }
    by intros [] d' H.
  - assert (c < next d0)%nat as Hc by (apply Hold, elem_of_cons; by left).
    apply wp_append; [done | lia | |].
    { intros H%(built_anc_new E); [lia | done | lia]. }
    split_and!.
    + by apply built_adopt_old.
    + by apply frame_adopt_old.
    + by rewrite next_adopt.
    + rewrite kidsOf_adopt_old by done. rewrite Hk. cbn [kept app].
      by rewrite decide_False by apply not_elem_of_nil.
Qed.

Lemma is_kept_cell_frame T L d d' index c (content : cell) later :
  frame d0 T L d d' → (next d0 ≤ c < next d)%nat → c ≠ T →
  is_kept_cell d index c content later →
  is_kept_cell d' index c content (later ++ L).
Proof.
  intros [_ Hf] Hc Hne [Ht Hk]. destruct (Hf c Hc) as (Ht' & _ & Hk').
  split; [congruence |]. rewrite Hk' by done. rewrite Hk.
  apply cell_kept_filter.
Qed.

Lemma addCell_spec E d index tr (content : cell) :
  built d0 E d → (next d0 ≤ tr < next d)%nat → parentOf d tr = None →
  (∀ e, e ∈ cell_elems content → (e < next d0)%nat) →
  wp (addCell index tr content) d (λ _ d',
    built d0 (E ++ cell_elems content) d' ∧
    frame d0 tr (cell_elems content) d d' ∧
    next d' = S (next d) ∧
    kidsOf d' tr =
      filter (λ it, it ∉ Elem <$> cell_elems content) (kidsOf d tr)
      ++ [Elem (next d)] ∧
    is_kept_cell d' index (next d) content []).
Proof.
  intros Hb Htr Hptr Hold. pose proof (bt_wf d0 E d Hb) as Hwf.
  unfold addCell. apply wp_bind. unfold wp at 1, createElement.
  set (tg := if decide (index = 0%nat) then "th" else "td").
  set (c := next d). set (d1 := alloc tg d).
  assert (c = next d ∧ next d1 = S (next d)) as [Hceq Hn1] by done.
  assert (built d0 E d1) as Hb1 by by apply built_alloc.
  destruct (wf_fresh d c Hwf) as (Hkc & Hpc & _); [done |].
  apply wp_bind. eapply wp_mono.
  { apply (fillCell_spec E d1 c content); [done | simpl; lia | | done].
    unfold d1. by rewrite kidsOf_alloc. }
  intros [] d2 (Hb2 & Hf2 & Hn2 & Hk2). simpl in Hn2.
  pose proof (bt_wf d0 _ d2 Hb2) as Hwf2.
  destruct Hf2 as [_ Hf2].
  assert (∀ y, (next d0 ≤ y < next d)%nat →
            tagOf d2 y = tagOf d y ∧ parentOf d2 y = parentOf d y ∧
            kidsOf d2 y =
              filter (λ it, it ∉ Elem <$> cell_elems content) (kidsOf d y))
    as Hold2.
  { intros y Hy. destruct (Hf2 y) as (Ht2 & Hp2 & Hk2'); [simpl; lia |].
    rewrite Ht2, Hp2, Hk2' by lia.
    unfold d1. rewrite tagOf_alloc, parentOf_alloc, kidsOf_alloc by done.
    by rewrite decide_False by lia. }
  assert (parentOf d2 c = None) as Hpc2.
  { destruct (Hf2 c) as (_ & -> & _); [simpl; lia |].
    unfold d1. by rewrite parentOf_alloc. }
  assert (parentOf d2 tr = None) as Hptr2.
  { destruct (Hold2 tr) as (_ & -> & _); [lia | done]. }
  unfold appendChild. apply wp_append; [done | lia | |].
  { intros (q & Hq & _)%anc_inv. congruence. }
  split_and!.
  - apply built_adopt_new; try done; try lia.
    intros (q & Hq & _)%anc_inv. congruence.
  - split; [rewrite next_adopt; lia |]. intros y Hy.
    destruct (frame_adopt_new d2 tr c Hwf2 Hpc2 ltac:(lia) y ltac:(lia))
      as (-> & -> & Hk3).
    destruct (Hold2 y Hy) as (-> & -> & Hk2').
    split_and!; [done | done |]. intros Hne. by rewrite Hk3, Hk2'.
  - by rewrite next_adopt.
  - rewrite kidsOf_adopt_new by done.
    by destruct (Hold2 tr) as (_ & _ & ->); [lia |].
  - split.
    + rewrite tagOf_adopt. destruct (Hf2 c) as (-> & _); [simpl; lia |].
      unfold d1. rewrite tagOf_alloc, decide_True by done. done.
    + rewrite kidsOf_adopt_other by (done || lia). done.
Qed.

(** *** Rows *)

Lemma row_elems_snoc (done : list cell) (x : cell) :
  row_elems (done ++ [x]) = row_elems done ++ cell_elems x.
Proof.
  unfold row_elems. rewrite bind_app. f_equal. simpl. apply app_nil_r.
Qed.

Lemma row_elems_split (done rest : list cell) (x : cell) :
  row_elems (done ++ x :: rest) =
  row_elems done ++ cell_elems x ++ row_elems rest.
Proof. unfold row_elems. by rewrite bind_app. Qed.

Lemma data_elems_snoc (done : list (list cell)) (row : list cell) :
  data_elems (done ++ [row]) = data_elems done ++ row_elems row.
Proof.
  unfold data_elems. rewrite bind_app. f_equal. simpl. apply app_nil_r.
Qed.

Lemma data_elems_split (done rest : list (list cell)) (row : list cell) :
  data_elems (done ++ row :: rest) =
  data_elems done ++ row_elems row ++ data_elems rest.
Proof. unfold data_elems. by rewrite bind_app. Qed.

Lemma are_kept_cells_frame T L d d' index (cs : list nid) (row : list cell) later :
  frame d0 T L d d' →
  Forall (λ c, (next d0 ≤ c < next d)%nat ∧ c ≠ T) cs →
  are_kept_cells d index cs row later →
  are_kept_cells d' index cs row (later ++ L).
Proof.
  intros Hf. revert row.
  induction cs as [|c cs IH]; intros [|content row]; simpl; try tauto.
  intros [[Hc Hne] Hall]%Forall_cons [Hcell Hcells]. split; [| by apply IH].
  rewrite app_assoc. by eapply is_kept_cell_frame.
Qed.

Lemma are_kept_cells_snoc d index (cs : list nid) (row : list cell) c content later :
  are_kept_cells d index cs row (cell_elems content ++ later) →
  is_kept_cell d index c content later →
  are_kept_cells d index (cs ++ [c]) (row ++ [content]) later.
Proof.
  revert row. induction cs as [|c' cs IH]; intros [|content' row]; simpl; try tauto.
  intros [Hcell Hcells] H. split; [| by apply IH].
  by rewrite row_elems_snoc, <- app_assoc.
Qed.

Lemma addRow_spec E d table (row : list cell) index :
  built d0 E d → (next d0 ≤ table < next d)%nat → parentOf d table = None →
  (∀ e, e ∈ row_elems row → (e < next d0)%nat) →
  wp (addRow table row index) d (λ _ d',
    built d0 (E ++ row_elems row) d' ∧
    frame d0 table (row_elems row) d d' ∧
    kidsOf d' table =
      filter (λ it, it ∉ Elem <$> row_elems row) (kidsOf d table)
      ++ [Elem (next d)] ∧
    is_kept_row d' index (next d) row [] ∧
    ∀ c, Elem c ∈ kidsOf d' (next d) → (next d < c)%nat).
Proof.
  intros Hb Htab Hptab Hold. pose proof (bt_wf d0 E d Hb) as Hwf.
  unfold addRow. apply wp_bind. unfold wp at 1, createElement.
  set (tr := next d). set (d1 := alloc "tr" d).
  assert (tr = next d ∧ next d1 = S (next d)) as [Htreq Hn1] by done.
  assert (built d0 E d1) as Hb1 by by apply built_alloc.
  destruct (wf_fresh d tr Hwf) as (Hktr & Hptr & _); [done |].
  assert (kidsOf d1 tr = [] ∧ parentOf d1 tr = None ∧ tagOf d1 tr = "tr")
    as (Hktr1 & Hptr1 & Httr1).
  { unfold d1. rewrite kidsOf_alloc, parentOf_alloc, tagOf_alloc by done.
    by rewrite decide_True. }
  apply wp_bind. eapply wp_mono.
  { apply (wp_forEach (addCell index tr)
      (λ done d',
         built d0 (E ++ row_elems done) d' ∧
         frame d0 tr (row_elems done) d1 d' ∧
         ∃ cs, kidsOf d' tr = Elem <$> cs ∧
               are_kept_cells d' index cs done [] ∧
               Forall (λ c, tr < c)%nat cs)).
    - rewrite app_nil_r. split_and!; [done | apply frame_refl |].
      exists []. by rewrite Hktr1.
    - intros done x rest d2 Hrow (Hb2 & Hf2 & cs & Hk2 & Hcs & Hlo).
      pose proof (bt_wf d0 _ d2 Hb2) as Hwf2.
      pose proof Hf2 as [Hn2 Hf2'].
      destruct (Hf2' tr) as (Httr2 & Hptr2 & _); [lia |].
      assert (∀ e, e ∈ cell_elems x → (e < next d0)%nat) as Holdx.
      { intros e He. apply Hold. rewrite Hrow, row_elems_split, !elem_of_app.
        auto. }
      eapply wp_mono.
      { apply (addCell_spec (E ++ row_elems done) d2 index tr x);
          [done | lia | congruence | done]. }
      intros [] d3 (Hb3 & Hf3 & Hn3 & Hk3 & Hc3). simpl.
      assert (Forall (λ c, next d0 ≤ c < next d2 ∧ c ≠ tr)%nat cs) as Hin.
      { apply Forall_forall. intros c Hc.
        rewrite Forall_forall in Hlo. specialize (Hlo c Hc).
        destruct (wf_kid_lt d2 c tr Hwf2).
        { rewrite Hk2. by apply list_elem_of_fmap_2. }
        lia. }
      split_and!.
      + by rewrite row_elems_snoc, app_assoc.
      + rewrite row_elems_snoc. eapply frame_trans; [done |].
        destruct Hf3 as [? Hf3]. split; [lia |]. intros y Hy. apply Hf3. lia.
      + exists (cs ++ [next d2]). split_and!.
        * rewrite Hk3, Hk2, fmap_app. f_equal.
          apply (filter_notin_created (next d0)); [done |].
          eapply Forall_impl; [exact Hin |]. simpl. lia.
        * apply are_kept_cells_snoc; [| done].
          rewrite app_nil_r.
          by apply (are_kept_cells_frame tr (cell_elems x) d2 d3 index cs done []).
        * apply Forall_app. split; [done |]. repeat constructor. lia. }
  intros [] d2 (Hb2 & Hf2 & cs & Hk2 & Hcs & Hlo). simpl.
  pose proof (bt_wf d0 _ d2 Hb2) as Hwf2.
  pose proof Hf2 as [Hn2 Hf2'].
  destruct (Hf2' tr) as (Httr2 & Hptr2 & _); [lia |].
  assert (∀ y, (next d0 ≤ y < next d)%nat →
            tagOf d2 y = tagOf d y ∧ parentOf d2 y = parentOf d y ∧
            kidsOf d2 y =
              filter (λ it, it ∉ Elem <$> row_elems row) (kidsOf d y))
    as Hold2.
  { intros y Hy. destruct (Hf2' y) as (Ht2 & Hp2 & Hk2'); [lia |].
    rewrite Ht2, Hp2, Hk2' by lia.
    unfold d1. rewrite tagOf_alloc, parentOf_alloc, kidsOf_alloc by done.
    by rewrite decide_False by lia. }
  assert (parentOf d2 table = None) as Hptab2'.
  { by destruct (Hold2 table) as (_ & -> & _); [lia |]. }
  assert (parentOf d2 tr = None) as Hptr2' by congruence.
  unfold appendChild. apply wp_append; [done | lia | |].
  { intros (q & Hq & _)%anc_inv. congruence. }
  assert (∀ c, c ∈ cs → tr < c)%nat as Hlo' by by apply Forall_forall.
  split_and!.
  - apply built_adopt_new; try done; try lia.
    intros (q & Hq & _)%anc_inv. congruence.
  - split; [rewrite next_adopt; lia |]. intros y Hy.
    destruct (frame_adopt_new d2 table tr Hwf2 Hptr2' ltac:(lia) y ltac:(lia))
      as (-> & -> & Hk3).
    destruct (Hold2 y Hy) as (-> & -> & Hk2').
    split_and!; [done | done |]. intros Hne. by rewrite Hk3, Hk2'.
  - rewrite kidsOf_adopt_new by done.
    by destruct (Hold2 table) as (_ & _ & ->); [lia |].
  - split; [rewrite tagOf_adopt; congruence |].
    exists cs. split.
    + rewrite kidsOf_adopt_other by (done || lia). done.
    + assert (Forall (λ c, c ≠ table) cs) as Hin.
      { apply Forall_forall. intros c Hc%Hlo'. lia. }
      clear -Hin Hcs Hwf2 Hptr2' Htab Htreq. revert Hin Hcs.
      generalize (@nil nid) as later. generalize row as r.
      induction cs as [|c cs IH]; intros [|content r] later; simpl; try tauto.
      intros [Hne Hin]%Forall_cons [[Ht Hk] Hcells]. split; [| by apply IH].
      split; [by rewrite tagOf_adopt | by rewrite kidsOf_adopt_other].
  - intros c. rewrite kidsOf_adopt_other by (done || lia).
    rewrite Hk2. intros (c' & [= ->] & Hc')%list_elem_of_fmap. by apply Hlo'.
Qed.

(** *** The table *)

Lemma is_kept_row_frame T L d d' index tr (row : list cell) later :
  wf d → frame d0 T L d d' → (∀ e, e ∈ L → (e < next d0)%nat) →
  (next d0 ≤ tr < next d)%nat → tr ≠ T →
  (∀ c, Elem c ∈ kidsOf d tr → (next d0 ≤ c)%nat ∧ c ≠ T) →
  is_kept_row d index tr row later → is_kept_row d' index tr row (later ++ L).
Proof.
  intros Hwf Hf HL Htr Hne Hcs [Ht (cs & Hk & Hrow)].
  pose proof Hf as [_ Hf']. destruct (Hf' tr Htr) as (Ht' & _ & Hk').
  assert (Forall (λ c, (next d0 ≤ c < next d)%nat ∧ c ≠ T) cs) as Hin.
  { apply Forall_forall. intros c Hc.
    assert (Elem c ∈ kidsOf d tr) as Hin.
    { rewrite Hk. by apply list_elem_of_fmap_2. }
    destruct (Hcs c Hin). destruct (wf_kid_lt d c tr Hwf Hin). lia. }
  split; [congruence |]. exists cs. split.
  - rewrite Hk' by done. rewrite Hk.
    apply (filter_notin_created (next d0)); [done |].
    eapply Forall_impl; [exact Hin |]. simpl. lia.
  - by eapply are_kept_cells_frame.
Qed.

Lemma are_kept_rows_frame T L d d' index (trs : list nid) (done : list (list cell))
    later :
  wf d → frame d0 T L d d' → (∀ e, e ∈ L → (e < next d0)%nat) →
  Forall (λ tr, (next d0 ≤ tr < next d)%nat ∧ tr ≠ T ∧
                ∀ c, Elem c ∈ kidsOf d tr → (next d0 ≤ c)%nat ∧ c ≠ T) trs →
  are_kept_rows d index trs done later →
  are_kept_rows d' index trs done (later ++ L).
Proof.
  intros Hwf Hf HL. revert index done.
  induction trs as [|tr trs IH]; intros index [|row done]; simpl; try tauto.
  intros [(Htr & Hne & Hcs) Hall]%Forall_cons [Hrow Hrows]. split.
  - rewrite app_assoc. by eapply is_kept_row_frame.
  - by apply IH.
Qed.

Lemma are_kept_rows_snoc d index (trs : list nid) (done : list (list cell)) tr row
    later :
  are_kept_rows d index trs done (row_elems row ++ later) →
  is_kept_row d (index + length done) tr row later →
  are_kept_rows d index (trs ++ [tr]) (done ++ [row]) later.
Proof.
  revert index done.
  induction trs as [|tr' trs IH]; intros index [|row' done]; simpl; try tauto.
  - rewrite Nat.add_0_r. intros _ H. split; [| done].
    unfold data_elems. by simpl.
  - intros [Hrow Hrows] H. split.
    + by rewrite data_elems_snoc, <- app_assoc.
    + apply IH; [done |].
      by replace (S index + length done)%nat with (index + S (length done))%nat
        by lia.
Qed.

Lemma createTable_built (data : list (list cell)) :
  (∀ e, e ∈ data_elems data → (e < next d0)%nat) →
  wp (createTable data) d0 (λ t d',
    t = next d0 ∧ built d0 (data_elems data) d' ∧ is_kept_table d' t data ∧
    parentOf d' t = None ∧ table_from (next d0) d' t).
Proof.
  intros Hold. unfold createTable. apply wp_bind.
  unfold wp at 1, createElement.
  set (table := next d0). set (d1 := alloc "table" d0).
  assert (table = next d0 ∧ next d1 = S (next d0)) as [Htab Hn1] by done.
  assert (built d0 [] d1) as Hb1 by apply built_alloc, built_init.
  destruct (wf_fresh d0 table Hwf0) as (Hk0 & Hp0 & _); [done |].
  assert (kidsOf d1 table = [] ∧ parentOf d1 table = None ∧
          tagOf d1 table = "table") as (Hk1 & Hp1 & Ht1).
  { unfold d1. rewrite kidsOf_alloc, parentOf_alloc, tagOf_alloc by done.
    by rewrite decide_True. }
  apply wp_bind. eapply wp_mono.
  { apply (wp_forEachi (addRow table)
      (λ done d,
         built d0 (data_elems done) d ∧ frame d0 table (data_elems done) d1 d ∧
         ∃ trs, kidsOf d table = Elem <$> trs ∧ are_kept_rows d 0 trs done [] ∧
                Forall (λ tr, (table < tr)%nat ∧
                              ∀ c, Elem c ∈ kidsOf d tr → (table < c)%nat) trs)).
    - split_and!; [done | apply frame_refl |]. exists []. by rewrite Hk1.
    - intros done row rest d Hdata (Hb & Hf & trs & Hk & Hrows & Hlo).
      pose proof (bt_wf d0 _ d Hb) as Hwf.
      pose proof Hf as [Hn Hf'].
      destruct (Hf' table) as (Httab & Hptab & _); [lia |].
      assert (∀ e, e ∈ row_elems row → (e < next d0)%nat) as Holdr.
      { intros e He. apply Hold. rewrite Hdata, data_elems_split, !elem_of_app.
        auto. }
      eapply wp_mono.
      { apply (addRow_spec (data_elems done) d table row (length done));
          [done | lia | congruence | done]. }
      intros [] d' (Hb' & Hfr & Hk' & Hrow & Hcells). simpl.
      assert (Forall (λ tr, (next d0 ≤ tr < next d)%nat ∧ tr ≠ table ∧
                ∀ c, Elem c ∈ kidsOf d tr → (next d0 ≤ c)%nat ∧ c ≠ table) trs)
        as Hin.
      { apply Forall_forall. intros tr Htr.
        rewrite Forall_forall in Hlo. destruct (Hlo tr Htr) as [Hlt Hcs].
        destruct (wf_kid_lt d tr table Hwf).
        { rewrite Hk. by apply list_elem_of_fmap_2. }
        split_and!; [lia | lia | lia |]. intros c Hc%Hcs. lia. }
      assert (Forall (λ tr, (next d0 ≤ tr)%nat) trs) as Hcreated.
      { eapply Forall_impl; [exact Hin |]. simpl. lia. }
      split_and!.
      + by rewrite data_elems_snoc.
      + rewrite data_elems_snoc. by eapply frame_trans.
      + exists (trs ++ [next d]). split_and!.
        * rewrite Hk', Hk, fmap_app. f_equal.
          by apply (filter_notin_created (next d0)).
        * apply are_kept_rows_snoc; [| done]. rewrite app_nil_r.
          by apply (are_kept_rows_frame table (row_elems row) d d' 0 trs done []).
        * apply Forall_app. split.
          -- apply Forall_forall. intros tr Htr.
             rewrite Forall_forall in Hlo, Hin.
             destruct (Hlo tr Htr) as [Hlt Hcs].
             destruct (Hin tr Htr) as (Hr & Hne & _).
             destruct Hfr as [_ Hfr]. destruct (Hfr tr Hr) as (_ & _ & Hkk).
             split; [done |]. rewrite Hkk by done.
             intros c [_ Hc]%list_elem_of_filter. by apply Hcs.
          -- repeat constructor; [lia |]. intros c Hc%Hcells. lia. }
  intros [] d (Hb & Hf & trs & Hk & Hrows & Hlo). simpl.
  apply wp_ret. destruct Hf as [Hn Hf'].
  destruct (Hf' table) as (Httab & Hptab & _); [lia |].
  split_and!; [done | done | | congruence |].
  - split; [congruence |]. by exists trs.
  - split; [lia |]. intros tr. rewrite Hk.
    intros (tr' & [= ->] & Htr)%list_elem_of_fmap.
    rewrite Forall_forall in Hlo. destruct (Hlo tr' Htr) as [Hlt Hcs].
    split; [lia |]. intros c Hc%Hcs. lia.
Qed.

End Table.

(** *** Rows of pairwise distinct elements *)

Lemma are_kept_cells_nodup d index (cs : list nid) (row : list cell) later :
  NoDup (row_elems row ++ later) →
  are_kept_cells d index cs row later → Forall2 (is_cell d index) cs row.
Proof.
  revert row. induction cs as [|c cs IH]; intros [|content row]; simpl; try tauto.
  - constructor.
  - intros Hnd [[Ht Hk] Hcells].
    change (row_elems (content :: row)) with (cell_elems content ++ row_elems row)
      in Hnd.
    rewrite <- app_assoc in Hnd. constructor.
    + split; [done |]. rewrite Hk. by apply cell_kept_nodup.
    + apply IH; [| done]. by apply NoDup_app in Hnd as (_ & _ & Hnd).
Qed.

Lemma are_kept_rows_nodup d index (trs : list nid) (data : list (list cell)) later :
  NoDup (data_elems data ++ later) →
  are_kept_rows d index trs data later → are_rows d index trs data.
Proof.
  revert index data.
  induction trs as [|tr trs IH]; intros index [|row data]; simpl; try tauto.
  intros Hnd [[Ht (cs & Hk & Hcells)] Hrows].
  change (data_elems (row :: data)) with (row_elems row ++ data_elems data) in Hnd.
  rewrite <- app_assoc in Hnd. split.
  - split; [done |]. exists cs. split; [done |].
    by eapply are_kept_cells_nodup.
  - apply IH; [| done]. by apply NoDup_app in Hnd as (_ & _ & Hnd).
Qed.

Lemma is_kept_table_nodup d t (data : list (list cell)) :
  NoDup (data_elems data) → is_kept_table d t data → is_table d t data.
Proof.
  intros Hnd [Ht (trs & Hk & Hrows)]. split; [done |]. exists trs.
  split; [done |]. eapply are_kept_rows_nodup; [| done]. by rewrite app_nil_r.
Qed.

(** The builder on any well-formed store, for any rows of elements of the
    store: it returns a fresh, detached table, and what it found is left
    as it was but for the moved elements. *)
Lemma createTable_any (data : list (list cell)) d :
  wf d →
  (∀ e, e ∈ data_elems data → (e < next d)%nat) →
  wp (createTable data) d (λ t d',
    t = next d ∧ built d (data_elems data) d' ∧ is_kept_table d' t data ∧
    parentOf d' t = None ∧ table_from (next d) d' t).
Proof. intros Hwf Hlt. by apply createTable_built. Qed.

(** For rows of pairwise distinct elements every cell holds what it was
    given. *)
Lemma createTable_spec (data : list (list cell)) d :
  wf d →
  NoDup (data_elems data) →
  (∀ e, e ∈ data_elems data → (e < next d)%nat) →
  wp (createTable data) d (λ t d',
    t = next d ∧ built d (data_elems data) d' ∧ is_table d' t data ∧
    parentOf d' t = None ∧ table_from (next d) d' t).
Proof.
  intros Hwf Hnd Hlt. eapply wp_mono; [by apply createTable_any |].
  intros t d' (Ht & Hb & Htab & Hp & Hfrom).
  split_and!; try done. by apply is_kept_table_nodup.
Qed.

(** A table stays what it is as long as its nodes keep tag and children. *)
Section Agree.
Context (lo : nid) (d d' : dom).
Context (Hagree : ∀ y, (lo ≤ y < next d)%nat →
                       tagOf d' y = tagOf d y ∧ kidsOf d' y = kidsOf d y).
Context (Hnext : (next d ≤ next d')%nat).

Lemma is_cell_agree index c (content : cell) :
  (lo ≤ c < next d)%nat → is_cell d index c content → is_cell d' index c content.
Proof.
  intros Hc [Ht Hk]. destruct (Hagree c Hc) as [Ht' Hk'].
  split; congruence.
Qed.

Lemma is_row_agree index tr (row : list cell) :
  wf d → (lo ≤ tr < next d)%nat →
  (∀ c, Elem c ∈ kidsOf d tr → (lo ≤ c)%nat) →
  is_row d index tr row → is_row d' index tr row.
Proof.
  intros Hwf Htr Hcs [Ht (cs & Hk & Hrow)].
  destruct (Hagree tr Htr) as [Ht' Hk'].
  split; [congruence |]. exists cs. split; [congruence |].
  assert (Forall (λ c, (lo ≤ c < next d)%nat) cs) as Hin.
  { apply Forall_forall. intros c Hc.
    assert (Elem c ∈ kidsOf d tr) as Hin.
    { rewrite Hk. by apply list_elem_of_fmap_2. }
    pose proof (Hcs c Hin). destruct (wf_kid_lt d c tr Hwf Hin). lia. }
  clear -Hin Hrow Hagree. revert Hin.
  induction Hrow as [|c y cs ys Hc Hrow IH]; [constructor |].
  intros [Hr Hin]%Forall_cons. constructor; [| by apply IH].
  by apply is_cell_agree.
Qed.

Lemma are_rows_agree index (trs : list nid) (data : list (list cell)) :
  wf d →
  Forall (λ tr, (lo ≤ tr < next d)%nat ∧
                ∀ c, Elem c ∈ kidsOf d tr → (lo ≤ c)%nat) trs →
  are_rows d index trs data → are_rows d' index trs data.
Proof.
  intros Hwf. revert index data.
  induction trs as [|tr trs IH]; intros index [|row data]; simpl; try tauto.
  intros [(Htr & Hcs) Hall]%Forall_cons [Hrow Hrows]. split.
  - by apply is_row_agree.
  - by apply IH.
Qed.

Lemma is_table_agree t (data : list (list cell)) :
  wf d → table_from lo d t → is_table d t data →
  is_table d' t data ∧ table_from lo d' t.
Proof.
  intros Hwf [Ht Hfrom] [Htag (trs & Hk & Hrows)].
  destruct (Hagree t Ht) as [Ht' Hk'].
  assert (Forall (λ tr, (lo ≤ tr < next d)%nat ∧
                        ∀ c, Elem c ∈ kidsOf d tr → (lo ≤ c)%nat) trs) as Hin.
  { apply Forall_forall. intros tr Htr.
    assert (Elem tr ∈ kidsOf d t) as Hin.
    { rewrite Hk. by apply list_elem_of_fmap_2. }
    destruct (Hfrom tr Hin) as [Hlo Hcs].
    destruct (wf_kid_lt d tr t Hwf Hin). split; [lia | done]. }
  split.
  - split; [congruence |]. exists trs. split; [congruence |].
    by apply are_rows_agree.
  - split; [lia |]. intros tr. rewrite Hk', Hk.
    intros (tr' & [= ->] & Htr)%list_elem_of_fmap.
    rewrite Forall_forall in Hin. destruct (Hin tr' Htr) as [Hr Hcs].
    split; [lia |]. intros c. destruct (Hagree tr' Hr) as [_ ->]. apply Hcs.
Qed.

End Agree.

(** * The helper class [DOM] *)

(** C5, amended.  On a well-formed store, for any rows whose elements are
    nodes of the store, [createTable] returns a table with one row per
    input row, in order, and in each row one cell per cell of the input
    row, in order; the cells of row 0 are [th] cells and the cells of every
    other row are [td] cells; a string cell holds its string as markup; an
    array cell and an element cell hold, in order, the elements they were
    given, those given again later excepted, an element being in the last
    cell it was given to.  When no element is given twice, every cell
    holds exactly what it was given. *)
Theorem createTable_layout (data : list (list cell)) (d : dom) :
  wf d →
  (∀ e, e ∈ data_elems data → (e < next d)%nat) →
  ∃ t d', createTable data d = Ok (t, d') ∧
          is_kept_table d' t data ∧
          (NoDup (data_elems data) → is_table d' t data).
Proof.
  intros Hwf Hlt.
  pose proof (createTable_any data d Hwf Hlt) as H.
  apply wp_ok in H as (t & d' & Hrun & _ & _ & Htab & _ & _).
  exists t, d'. split_and!; [done | done |].
  intros Hnd. by apply is_kept_table_nodup.
Qed.

(** Three links to put into cells. *)
Definition three_links : dom :=
  store_of [Node "a" [] ∅ "" [] None; Node "a" [] ∅ "" [] None;
            Node "a" [] ∅ "" [] None].

(** A header, then a row of two cells that are given the link 0 twice and
    the link 1 once. *)
Lemma createTable_layout_witness :
  ∃ t d',
    createTable [[CString "H"]; [CArray [1; 0]%nat; CNode 0%nat]] three_links
      = Ok (t, d') ∧
    is_kept_table d' t [[CString "H"]; [CArray [1; 0]%nat; CNode 0%nat]] ∧
    (NoDup (data_elems [[CString "H"]; [CArray [1; 0]%nat; CNode 0%nat]]) →
     is_table d' t [[CString "H"]; [CArray [1; 0]%nat; CNode 0%nat]]).
Proof.
  apply createTable_layout.
  - apply wf_check_sound. vm_compute. reflexivity.
  - intros e He. vm_compute in He. vm_compute.
    apply elem_of_cons in He as [-> | He]; [lia |].
    apply elem_of_cons in He as [-> | He]; [lia |].
    apply elem_of_cons in He as [-> | He]; [lia |].
    by apply elem_of_nil in He.
Defined.

(** The rows [[["H"], ["a"]]] of the specification's example. *)
Example createTable_H_a_layout :
  ∃ t d', createTable [[CString "H"]; [CString "a"]] empty_dom = Ok (t, d') ∧
          is_table d' t [[CString "H"]; [CString "a"]].
Proof.
  destruct (createTable_layout [[CString "H"]; [CString "a"]] empty_dom)
    as (t & d' & Hrun & _ & Htab).
  - apply wf_check_sound. vm_compute. reflexivity.
  - intros e He. vm_compute in He. by apply elem_of_nil in He.
  - exists t, d'. split; [done |]. apply Htab. vm_compute. constructor.
Qed.

(** The same example, node by node: a header cell holding ["H"] and a body
    cell holding ["a"]. *)
Example createTable_H_a :
  wp (createTable [[CString "H"]; [CString "a"]]) empty_dom (λ t d',
    t = 0%nat ∧
    tagOf d' 0 = "table" ∧ kidsOf d' 0 = [Elem 1; Elem 3] ∧
    tagOf d' 1 = "tr" ∧ kidsOf d' 1 = [Elem 2] ∧
    tagOf d' 2 = "th" ∧ kidsOf d' 2 = [Markup "H"] ∧
    tagOf d' 3 = "tr" ∧ kidsOf d' 3 = [Elem 4] ∧
    tagOf d' 4 = "td" ∧ kidsOf d' 4 = [Markup "a"]).
Proof. vm_compute. by repeat split. Qed.

(** An array cell and an element cell: the elements are moved into the
    cells, in order. *)
Example createTable_elements :
  wp (createTable [[CArray [1; 0]%nat]; [CNode 2%nat]]) three_links (λ t d',
    t = 3%nat ∧ kidsOf d' 3 = [Elem 4; Elem 6] ∧
    tagOf d' 5 = "th" ∧ kidsOf d' 5 = [Elem 1; Elem 0] ∧
    tagOf d' 7 = "td" ∧ kidsOf d' 7 = [Elem 2] ∧
    parentOf d' 0 = Some 5%nat ∧ parentOf d' 2 = Some 7%nat).
Proof. vm_compute. by repeat split. Qed.

(** An element given in two cells is appended to each in turn: it ends in
    the last one, the first cell being left empty. *)
Example createTable_same_element_twice :
  wp (createTable [[CNode 0%nat; CNode 0%nat]]) three_links (λ t d',
    t = 3%nat ∧ kidsOf d' 3 = [Elem 4] ∧ kidsOf d' 4 = [Elem 5; Elem 6] ∧
    kidsOf d' 5 = [] ∧ kidsOf d' 6 = [Elem 0] ∧
    parentOf d' 0 = Some 6%nat).
Proof. vm_compute. by repeat split. Qed.

(** The same rows with a repeated link, node by node: the array cell keeps
    the link 1 and loses the link 0 to the cell after it. *)
Example createTable_kept_example :
  wp (createTable [[CString "H"]; [CArray [1; 0]%nat; CNode 0%nat]]) three_links
    (λ t d',
       t = 3%nat ∧ kidsOf d' 3 = [Elem 4; Elem 6] ∧
       kidsOf d' 4 = [Elem 5] ∧ tagOf d' 5 = "th" ∧ kidsOf d' 5 = [Markup "H"] ∧
       kidsOf d' 6 = [Elem 7; Elem 8] ∧
       tagOf d' 7 = "td" ∧ kidsOf d' 7 = [Elem 1] ∧
       tagOf d' 8 = "td" ∧ kidsOf d' 8 = [Elem 0]).
Proof. vm_compute. by repeat split. Qed.

(** C5 as stated fails when an element is given twice: the table has the
    row and the two cells, but the first cell does not hold the element. *)
Lemma createTable_repeated_element :
  ¬ ∃ t d', createTable [[CNode 0%nat; CNode 0%nat]] three_links = Ok (t, d') ∧
            is_table d' t [[CNode 0%nat; CNode 0%nat]].
Proof.
  intros (t & d' & Hrun & Htab).
  pose proof createTable_same_element_twice as H. unfold wp in H.
  rewrite Hrun in H. clear Hrun. destruct H as (-> & Hk3 & Hk4 & Hk5 & _).
  destruct Htab as [_ (trs & Hk & Hrows)]. rewrite Hk3 in Hk.
  destruct trs as [|tr [|? ?]]; try done. injection Hk as <-.
  destruct Hrows as [[_ (cs & Hkc & Hcs)] _]. rewrite Hk4 in Hkc.
  destruct cs as [|c1 [|c2 [|? ?]]]; try done. injection Hkc as <- <-.
  apply Forall2_cons in Hcs as [[_ Hc1] _]. rewrite Hk5 in Hc1. done.
Qed.

(** [replaceBackgroundByImg] on any style value.  Without a background
    image the element is returned and the store is untouched.  With one, a
    new [img] element is returned whose
    source is the style value with every [url(], every single quote and
    every closing parenthesis removed; it stands where the element stood
    among the children of its parent, and the element is detached.  For a
    style value [url(u)] or [url('u')] around a plain address [u], that
    source is [u]. *)
Theorem replaceBackgroundByImg_spec (d : dom) (tag : nid) :
  wf d →
  (bgImageOf d tag = "" → replaceBackgroundByImg tag d = Ok (tag, d)) ∧
  (bgImageOf d tag ≠ "" →
     ∃ d', replaceBackgroundByImg tag d = Ok (next d, d') ∧
           tagOf d' (next d) = "img" ∧
           getAttribute d' (next d) "src" = Some (stripped (bgImageOf d tag)) ∧
           ∀ p, parentOf d tag = Some p →
                kidsOf d' p = subst_item tag (next d) (kidsOf d p) ∧
                (Elem tag ∉ kidsOf d' p) ∧ Elem (next d) ∈ kidsOf d' p ∧
                parentOf d' tag = None ∧ parentOf d' (next d) = Some p) ∧
  (∀ u, plain u = true →
        stripped ("url(" +:+ u +:+ ")") = u ∧
        stripped ("url('" +:+ u +:+ "')") = u).
Proof.
  intros Hwf. split_and!.
  - intros Hbg. unfold replaceBackgroundByImg, mbind, M_bind, getDom.
    by rewrite Hbg.
  - intros Hbg. unfold replaceBackgroundByImg, mbind, M_bind, getDom.
    assert (negb (String.eqb (bgImageOf d tag) "") = true) as ->.
    { apply negb_true_iff, String.eqb_neq. done. }
    fold (stripped (bgImageOf d tag)).
    unfold createElement, setAttribute, modify.
    set (img := next d). set (d1 := alloc "img" d).
    set (d2 := setAttrs img _ d1).
    assert (wf d2) as Hwf2.
    { apply wf_setAttrs; [by apply wf_alloc_pres | simpl; lia]. }
    assert (∀ y, parentOf d2 y = parentOf d y ∧ kidsOf d2 y = kidsOf d y) as Hsame.
    { intros y. unfold d2, d1. dom_simpl.
      by rewrite parentOf_alloc, kidsOf_alloc. }
    assert (tagOf d2 img = "img") as Htag.
    { unfold d2, d1. dom_simpl. by rewrite tagOf_alloc, decide_True. }
    assert (getAttribute d2 img "src" = Some (stripped (bgImageOf d tag))) as Hsrc.
    { unfold getAttribute, d2. rewrite attrsOf_setAttrs, decide_True by done.
      by rewrite lookup_insert_eq. }
    destruct (wf_fresh d img Hwf) as (Hk & Hp & _); [done |].
    assert (parentOf d2 img = None) as Hpi by by rewrite (proj1 (Hsame img)).
    unfold replaceWith. rewrite (proj1 (Hsame tag)).
    destruct (parentOf d tag) as [p|] eqn:Hpt.
    + destruct (wf_parent_lt d tag p Hwf Hpt) as [Htl Hpl].
      rewrite decide_False by (unfold img; lia).
      rewrite (proj2 (is_inclusive_ancestor_false d2 img p Hwf2)).
      2:{ split; [unfold img; lia |]. apply childless_not_anc; [done |].
          by rewrite (proj2 (Hsame img)), Hk. }
      eexists. split; [reflexivity |].
      destruct (same_label_swap p tag img d2 img) as (-> & _).
      split; [done |]. split.
      { unfold getAttribute in *.
        by destruct (same_label_swap p tag img d2 img) as (_ & _ & -> & _). }
      intros ? [= <-].
      rewrite kidsOf_swap, parentOf_swap, parentOf_swap by done.
      rewrite (decide_True (P := p = p)) by done.
      rewrite (decide_True (P := img = img)) by done.
      rewrite (decide_False (P := tag = img)) by (unfold img; lia).
      rewrite (decide_True (P := tag = tag)) by done.
      rewrite (proj2 (Hsame p)).
      assert (Elem img ∉ kidsOf d p) as Hni.
      { intros Hin%(wf_kid_parent d Hwf). congruence. }
      split_and!; try done.
      * rewrite elem_of_subst_item. intros [[[= ?] _] | [? _]]; [| done].
        unfold img in *. lia.
      * apply elem_of_subst_item. left. split; [done |]. by apply Hwf.
    + eexists. split; [reflexivity |]. split; [done |]. split; [done |].
      intros ? [=].
  - intros u Hu. split; [by apply stripped_bare | by apply stripped_quoted].
Qed.

(** The specification's example: [url('http://x/y.png')] on a banner. *)
Definition banner : dom :=
  store_of
    [Node "div" [] ∅ "" [Elem 1] None;
     Node "div" ["blogPostBanner__img"] ∅ "url('http://x/y.png')" []
       (Some 0%nat)].

Lemma replaceBackgroundByImg_spec_witness :
  ∃ d', replaceBackgroundByImg 1 banner = Ok (2%nat, d') ∧
        tagOf d' 2 = "img" ∧
        getAttribute d' 2 "src" = Some "http://x/y.png" ∧
        kidsOf d' 0 = [Elem 2] ∧ (Elem 1 ∉ kidsOf d' 0) ∧
        parentOf d' 1 = None ∧ parentOf d' 2 = Some 0%nat.
Proof.
  assert (wf banner) as Hwf by (apply wf_check_sound; vm_compute; reflexivity).
  destruct (replaceBackgroundByImg_spec banner 1 Hwf) as (_ & H & _).
  destruct H as (d' & Hrun & Htag & Hsrc & Hp); [by vm_compute |].
  destruct (Hp 0%nat) as (Hk & Hn & _ & Hp1 & Hp2); [by vm_compute |].
  exists d'. split; [exact Hrun |]. split; [exact Htag |].
  split; [etrans; [exact Hsrc | by vm_compute] |].
  split; [etrans; [exact Hk | by vm_compute] |].
  split; [| split; [exact Hp1 | exact Hp2]].
  intros Hin. apply Hn. exact Hin.
Defined.





(** * The importer *)

(** C8 as stated fails in variant 2: a swept code unit is not dropped, a
    space takes its place. *)
Lemma postProcessMD2_leaves_a_space :
  postProcessMD2 (H := bare_framework) [65; 1; 66]%N = [65; 32; 66]%N ∧
  postProcessMD2 (H := bare_framework) [65; 1; 66]%N ≠ [65; 66]%N.
Proof. by vm_compute. Qed.

(** C8, amended.  Variant 1 returns the text rendered by the framework
    without its non-breaking spaces (code unit 160).  Variant 2 first puts a
    space (code unit 32) in the place of every occurrence of the twenty code
    units 0 to 9 and 16 to 25, then removes the non-breaking spaces. *)
Theorem postProcessMD_spec `{Framework} (md : list N) :
  postProcessMD md = filter (λ c, c ≠ 160%N) (super_postProcessMD md) ∧
  postProcessMD2 md =
    filter (λ c, c ≠ 160%N)
      ((λ c, if swept c then 32%N else c) <$> super_postProcessMD md) ∧
  sweep_units = [0; 1; 2; 3; 4; 5; 6; 7; 8; 9;
                 16; 17; 18; 19; 20; 21; 22; 23; 24; 25]%N.
Proof.
  split_and!.
  - unfold postProcessMD. apply replace_unit_nil.
  - unfold postProcessMD2. rewrite replace_unit_nil, sweep_loop.
    rewrite sweep_fold; [done |].
    apply (bool_decide_eq_false_1 (32%N ∈ sweep_units)). by vm_compute.
  - by vm_compute.
Qed.

(** ** After [createTable]: what the found nodes look like *)
Section AfterTable.
Context (d0 d1 : dom) (E : list nid) (Hwf0 : wf d0) (Hb : built d0 E d1).

(** Ancestors of a found node none of whose inclusive ancestors moved. *)
Lemma built_anc_old a x :
  (x < next d0)%nat →
  (∀ y, y = x ∨ anc d0 y x → y ∉ E) →
  anc d1 a x → anc d0 a x.
Proof.
  intros Hx Hfix. apply anc_stable. intros y Hy.
  apply (bt_parent d0 E d1 Hb); [| by apply Hfix].
  destruct Hy as [-> | Hy]; [done |]. by apply (anc_lt d0 y x).
Qed.

Lemma built_not_anc_new t x :
  (x < next d0)%nat → (next d0 ≤ t)%nat →
  (∀ y, y = x ∨ anc d0 y x → y ∉ E) →
  ¬ anc d1 t x.
Proof.
  intros Hx Ht Hfix H%built_anc_old; [| done | done].
  destruct (anc_lt d0 t x Hwf0 H). lia.
Qed.

End AfterTable.

Lemma built_nil_kids d0 d1 y :
  built d0 [] d1 → (y < next d0)%nat → kidsOf d1 y = kidsOf d0 y.
Proof.
  intros Hb Hy. rewrite (bt_kids d0 [] d1 Hb y Hy). apply filter_notin_nil.
Qed.

Lemma built_nil_parent d0 d1 y :
  built d0 [] d1 → (y < next d0)%nat → parentOf d1 y = parentOf d0 y.
Proof.
  intros Hb Hy. apply (bt_parent d0 [] d1 Hb y Hy), not_elem_of_nil.
Qed.

Lemma filter_ne_all (E : list nid) (l : list item) :
  (∀ it, it ∈ l → it ∉ Elem <$> E) →
  filter (λ it, it ∉ Elem <$> E) l = l.
Proof.
  induction l as [|it l IH]; [done |]. intros Hall.
  rewrite filter_cons_True by (apply Hall, elem_of_cons; by left).
  rewrite IH; [done |]. intros it' Hit'. apply Hall, elem_of_cons. by right.
Qed.

(** ** [createEmbeds] *)
Section Embeds.
Context (d : dom) (Hwf : wf d).
Implicit Types (e p t y : nid) (ρ : gmap nat nat).

Lemma embedSrc_same dk e :
  same_label d dk e → embedSrc dk e = embedSrc d e.
Proof.
  intros (_ & _ & Ha & _). unfold embedSrc, getAttribute. by rewrite Ha.
Qed.

Lemma rename_insert_other ρ e t (it : item) :
  it ≠ Elem e → rename (<[e := t]> ρ) it = rename ρ it.
Proof.
  destruct it as [s | x]; [done |]. intros Hne. simpl.
  rewrite lookup_insert_ne; [done | congruence].
Qed.

Lemma rename_insert_fmap ρ e t (l : list item) :
  Elem e ∉ l → rename (<[e := t]> ρ) <$> l = rename ρ <$> l.
Proof.
  intros Hnin. apply list_fmap_ext. intros i it Hit.
  apply rename_insert_other. intros ->.
  apply Hnin. by eapply list_elem_of_lookup_2.
Qed.

Lemma rename_subst ρ e t (l : list item) :
  ρ !! e = None → (∀ x t', ρ !! x = Some t' → t' ≠ e) →
  subst_item e t (rename ρ <$> l) = rename (<[e := t]> ρ) <$> l.
Proof.
  intros He Hrange. unfold subst_item. rewrite <- list_fmap_compose.
  apply list_fmap_ext. intros i [s | x] _; simpl.
  - done.
  - destruct (decide (x = e)) as [-> | Hne].
    + rewrite He. simpl. rewrite decide_True by done.
      by rewrite lookup_insert_eq.
    + rewrite lookup_insert_ne by done.
      rewrite decide_False; [done |].
      intros [= Heq]. destruct (ρ !! x) as [t' |] eqn:Hx; simpl in Heq.
      * by apply (Hrange x t').
      * done.
Qed.

Lemma embeds_step done ρ dk e p :
  (e < next d)%nat → parentOf d e = Some p → e ∉ done →
  embeds_inv d done ρ dk →
  wp (embedToBlock e) dk (λ _ dk', ∃ ρ', embeds_inv d (done ++ [e]) ρ' dk').
Proof.
  intros He Hpe Hnew (Hwfk & Hnk & Hdom & Htabs & Hold).
  destruct (wf_parent_lt d e p Hwf Hpe) as [_ Hp].
  destruct (Hold e He) as (Hlab & _ & Hpar).
  assert (ρ !! e = None) as Hρe.
  { destruct (ρ !! e) eqn:Hx; [| done].
    destruct (proj1 (Hdom e)) as [? _]; [by eexists | done]. }
  assert (∀ x t', ρ !! x = Some t' → (next d ≤ t')%nat) as Hrange.
  { intros x t' Hx. destruct (Htabs x t' Hx) as (_ & _ & [? _] & _). lia. }
  unfold embedToBlock. apply wp_bind, wp_getDom.
  rewrite (embedSrc_same dk e Hlab).
  destruct (truthy (embedSrc d e)) eqn:Husable.
  2:{ apply wp_ret. exists ρ. split_and!; try done.
      intros x. rewrite Hdom, elem_of_app, list_elem_of_singleton.
      split; [tauto |]. intros [[? | ->] ?]; [done | congruence]. }
  apply wp_bind. eapply wp_mono.
  { apply (createTable_spec (embedBlock d e) dk Hwfk).
    - apply NoDup_nil_2.
    - by intros x ?%elem_of_nil. }
  intros t d1 (-> & Hb & Htab & Hpt & Hfrom).
  pose proof (bt_wf dk [] d1 Hb) as Hwf1.
  pose proof (bt_next dk [] d1 Hb) as Hn1.
  destruct Hfrom as [Htr Hfrom'].
  assert (parentOf d1 e = Some p) as Hpe1.
  { rewrite (built_nil_parent dk d1) by (done || lia). by rewrite Hpar. }
  apply (wp_replaceWith e (next dk) p); [done | done | lia | lia | |].
  { apply (built_not_anc_new dk d1 [] Hwfk Hb); [lia | lia |].
    intros y _. apply not_elem_of_nil. }
  set (t := next dk) in *. set (d2 := swap p e t d1).
  assert (∀ y, (y < next dk)%nat →
    tagOf d2 y = tagOf dk y ∧
    kidsOf d2 y = (if decide (y = p) then subst_item e t (kidsOf dk p)
                   else kidsOf dk y) ∧
    parentOf d2 y = if decide (y = e) then None else parentOf dk y) as Hd2.
  { intros y Hy. unfold d2.
    destruct (same_label_swap p e t d1 y) as (-> & _).
    destruct (bt_label dk [] d1 Hb y Hy) as (-> & _).
    rewrite kidsOf_swap, parentOf_swap by done.
    rewrite (decide_False (P := y = t)) by (unfold t; lia).
    rewrite !(built_nil_kids dk d1), (built_nil_parent dk d1) by (done || lia).
    done. }
  exists (<[e := t]> ρ). split_and!.
  - apply wf_swap; try done; try (unfold t; lia).
    apply (built_not_anc_new dk d1 [] Hwfk Hb); [lia | unfold t; lia |].
    intros y _. apply not_elem_of_nil.
  - unfold d2. rewrite next_swap. lia.
  - intros x. rewrite lookup_insert, elem_of_app, list_elem_of_singleton.
    case_decide as Hx.
    + subst x. split; [intros _; by auto | by eexists].
    + rewrite Hdom. split; [tauto |]. intros [[? | ->] ?]; [done | done].
  - intros x t'. rewrite lookup_insert. case_decide as Hx.
    + intros [= <-]. subst x.
      destruct (is_table_agree (next dk) d1 d2) with (t := t)
        (data := embedBlock d e) as [Ht2 Hf2]; try done.
      { intros y Hy. unfold d2.
        destruct (same_label_swap p e t d1 y) as (-> & _).
        rewrite kidsOf_swap, decide_False by (done || lia). done. }
      { unfold d2. rewrite next_swap. lia. }
      split_and!; [done | done | | |].
      * destruct Hf2 as [? Hf2]. split; [lia |]. intros tr Htr2.
        destruct (Hf2 tr Htr2) as [? Hcs]. split; [lia |].
        intros c Hc%Hcs. lia.
      * unfold d2. rewrite parentOf_swap, decide_True by done. done.
      * unfold d2. rewrite parentOf_swap by done.
        rewrite decide_False by (unfold t; lia). by rewrite decide_True.
    + intros Hxt. destruct (Htabs x t' Hxt) as (Hxd & Ht' & Hf' & Hpt' & Hpx').
      assert (t' < next dk)%nat as Hlt by (destruct Hf' as [? _]; lia).
      pose proof (Hrange x t' Hxt) as Hge.
      destruct (is_table_agree (next d) dk d2) with (t := t')
        (data := embedBlock d x) as [Ht2 Hf2]; try done.
      { intros y Hy. destruct (Hd2 y) as (-> & -> & _); [lia |].
        rewrite decide_False by lia. done. }
      { unfold d2. rewrite next_swap. lia. }
      split_and!; [done | done | done | |].
      * destruct (Hd2 t' Hlt) as (_ & _ & ->).
        rewrite decide_False by lia. done.
      * destruct (Hd2 x) as (_ & _ & ->); [lia |]. by case_decide.
  - intros y Hy. destruct (Hold y Hy) as (Hl & Hk & Hpy).
    destruct (Hd2 y) as (Ht2 & Hk2 & Hp2); [lia |].
    split_and!.
    + eapply same_label_trans; [done |]. unfold d2.
      eapply same_label_trans; [by apply (bt_label dk [] d1 Hb); lia |].
      apply same_label_swap.
    + rewrite Hk2. destruct (decide (y = p)) as [Hyp | Hyp].
      * subst y. destruct (Hold p Hp) as (_ & -> & _).
        apply rename_subst; [done |]. intros x t' Hx%Hrange. lia.
      * rewrite Hk. symmetry. apply rename_insert_fmap.
        intros Hin%(wf_kid_parent d Hwf). congruence.
    + rewrite lookup_insert. destruct (decide (e = y)) as [Hye | Hye]; [done |].
      intros Hρy. rewrite Hp2, decide_False by done. by apply Hpy.
Qed.

Lemma rename_empty (l : list item) : rename ∅ <$> l = l.
Proof.
  induction l as [|[s | x] l IH]; [done | |]; csimpl; rewrite IH; [done |].
  by rewrite lookup_empty.
Qed.

Lemma embeds_inv_init : embeds_inv d [] ∅ d.
Proof.
  split_and!; try done.
  - intros e. rewrite lookup_empty. split.
    + by intros [? ?].
    + by intros [?%elem_of_nil _].
  - intros y _. split_and!; [done | by rewrite rename_empty | done].
Qed.

Lemma createEmbeds_inv main :
  wp (createEmbeds main) d (λ _ d',
    ∃ ρ, embeds_inv d (querySelectorAll d main (ByTag "iframe")) ρ d').
Proof.
  unfold createEmbeds. apply wp_bind, wp_getDom.
  pose proof (querySelectorAll_nodup d main (ByTag "iframe") Hwf) as Hnd.
  apply (wp_forEach embedToBlock (λ done dk, ∃ ρ, embeds_inv d done ρ dk)).
  - exists ∅. apply embeds_inv_init.
  - intros done e rest dk HL [ρ Hinv].
    assert (anc d main e) as Hanc.
    { apply (querySelectorAll_anc d main (ByTag "iframe")); [done |].
      rewrite HL. apply elem_of_app. right. apply elem_of_cons. by left. }
    destruct (anc_lt d main e Hwf Hanc) as [_ He].
    destruct (anc_inv d main e Hanc) as (p & Hp & _).
    apply (embeds_step done ρ dk e p); try done.
    rewrite HL in Hnd. apply NoDup_app in Hnd as (_ & Hdisj & _).
    intros Hin. apply (Hdisj e Hin). apply elem_of_cons. by left.
Qed.

End Embeds.


(** The specification's example: an iframe with the source
    [//example.com/v]. *)
Definition page_with_iframe : dom :=
  store_of
    [Node "div" ["blogPostMain"] ∅ "" [Elem 1; Elem 2] None;
     Node "iframe" [] {[ "src" := "//example.com/v" ]} "" [] (Some 0%nat);
     Node "iframe" [] ∅ "" [] (Some 0%nat)].


(** The same page, node by node: the first iframe gives way to a table
    whose body cell links to [https://example.com/v], the second one, which
    has no source, stays. *)
Example createEmbeds_example :
  wp (createEmbeds 0) page_with_iframe (λ _ d',
    kidsOf d' 0 = [Elem 3; Elem 2] ∧ parentOf d' 1 = None ∧
    tagOf d' 3 = "table" ∧ kidsOf d' 3 = [Elem 4; Elem 6] ∧
    kidsOf d' 4 = [Elem 5] ∧ tagOf d' 5 = "th" ∧
    kidsOf d' 5 = [Markup "Embed"] ∧
    kidsOf d' 6 = [Elem 7] ∧ tagOf d' 7 = "td" ∧
    kidsOf d' 7 = [Markup (anchor "https://example.com/v")] ∧
    parentOf d' 2 = Some 0%nat).
Proof. vm_compute. by repeat split. Qed.

(** ** [createRelatedPostsBlock] *)
Section Related.
Context (d : dom) (Hwf : wf d).
Implicit Types (r y t : nid).

Lemma relatedRows_spec (related : list nid) :
  ∀ done (cells : list (list cell)) dk,
    (∀ r, r ∈ related → (r < next d)%nat) →
    (∀ r, r ∈ related → r ∉ done) → NoDup related →
    related_inv d done dk →
    wp (relatedRows cells related) dk (λ cells' dk',
      cells' = cells ++ ((λ r, [CNode r]) <$> related) ∧
      related_inv d (done ++ related) dk').
Proof.
  induction related as [|r related IH]; intros done cells dk Hlt Hnew Hnd Hinv.
  - simpl. apply wp_ret. by rewrite !app_nil_r.
  - simpl. unfold relatedRow.
    apply wp_bind, wp_bind, wp_getDom, wp_bind, wp_modify, wp_ret.
    destruct Hinv as (Hwfk & Hnk & Hlab & Hdone & Hrest).
    apply NoDup_cons in Hnd as [Hr Hnd].
    assert (r < next d)%nat as Hrlt by (apply Hlt, elem_of_cons; by left).
    assert (hrefOf dk r = hrefOf d r) as Hhref.
    { unfold hrefOf, getAttribute. by destruct (Hlab r) as (_ & _ & -> & _). }
    fold (hrefOf dk r). rewrite Hhref.
    eapply wp_mono.
    { apply (IH (done ++ [r])).
      - intros r' Hr'. apply Hlt, elem_of_cons. by right.
      - intros r' Hr'. rewrite elem_of_app, list_elem_of_singleton.
        intros [Hin | ->]; [| done].
        apply (Hnew r'); [apply elem_of_cons; by right | done].
      - done.
      - split_and!.
        + apply wf_rewrite_markup; [done | lia].
        + by rewrite next_rewrite_markup.
        + intros y. eapply same_label_trans; [apply Hlab |].
          apply same_label_rewrite_markup.
        + intros r'. rewrite elem_of_app, list_elem_of_singleton.
          rewrite kidsOf_rewrite_markup. intros [Hin | ->].
          * case_decide as E; [by subst | by apply Hdone].
          * by rewrite decide_True.
        + intros y. rewrite elem_of_app, list_elem_of_singleton.
          rewrite kidsOf_rewrite_markup. intros Hy.
          rewrite decide_False by tauto. apply Hrest. tauto. }
    intros cells' dk' [-> Hinv']. split.
    + by rewrite <- app_assoc.
    + by rewrite <- app_assoc in Hinv'.
Qed.

Lemma filter_notin_markup (E : list nid) s :
  filter (λ it, it ∉ Elem <$> E) [Markup s] = [Markup s].
Proof.
  rewrite filter_cons_True; [done |].
  by intros (? & ? & _)%list_elem_of_fmap.
Qed.

Lemma data_elems_relatedBlock (related : list nid) :
  data_elems (relatedBlock related) = related.
Proof.
  unfold relatedBlock, data_elems. csimpl.
  induction related as [|r related IH]; [done |]. csimpl. by rewrite IH.
Qed.

Lemma createRelatedPostsBlock_wp main document :
  (main < next d)%nat → main ∉ relatedLinks d document →
  wp (createRelatedPostsBlock main document) d (λ _ d',
    ∃ t,
      kidsOf d' main =
        filter (λ it, it ∉ Elem <$> relatedLinks d document) (kidsOf d main)
        ++ [Elem t] ∧
      is_table d' t (relatedBlock (relatedLinks d document)) ∧
      ∀ r, r ∈ relatedLinks d document → kidsOf d' r = [Markup (hrefOf d r)]).
Proof.
  intros Hmain Hnot. unfold createRelatedPostsBlock.
  apply wp_bind, wp_getDom. fold (relatedLinks d document).
  set (related := relatedLinks d document) in *.
  cbn [nodeList_truthy]. apply wp_bind. eapply wp_mono.
  { apply (relatedRows_spec related [] _ d).
    - intros r Hr. unfold related, relatedLinks in Hr.
      by destruct (anc_lt d document r Hwf (querySelectorAll_anc _ _ _ _ Hwf Hr)).
    - intros r _. apply not_elem_of_nil.
    - by apply querySelectorAll_nodup.
    - split_and!; [done | done | done | by intros r ?%elem_of_nil | done]. }
  intros cells dR [-> (HwfR & HnR & Hlab & Hdone & Hrest)]. simpl in *.
  fold (relatedBlock related).
  assert (∀ r, r ∈ related → (r < next d)%nat) as Hlt.
  { intros r Hr. unfold related, relatedLinks in Hr.
    by destruct (anc_lt d document r Hwf (querySelectorAll_anc _ _ _ _ Hwf Hr)). }
  apply wp_bind. eapply wp_mono.
  { apply (createTable_spec (relatedBlock related) dR HwfR).
    - rewrite data_elems_relatedBlock. by apply querySelectorAll_nodup.
    - rewrite data_elems_relatedBlock. intros r Hr%Hlt. lia. }
  intros t d1 (-> & Hb & Htab & Hpt & Hfrom).
  rewrite data_elems_relatedBlock in Hb.
  pose proof (bt_wf dR related d1 Hb) as Hwf1.
  pose proof (bt_next dR related d1 Hb) as Hn1.
  assert (¬ anc d1 (next dR) main) as Hanc.
  { apply (built_not_anc_new dR d1 related HwfR Hb); [lia | lia |].
    intros y [-> | Hy]; [done |]. intros Hin.
    apply (childless_not_anc dR y main HwfR); [| done].
    by rewrite (Hdone y Hin). }
  apply wp_append; [done | lia | done |].
  exists (next dR). split_and!.
  - rewrite kidsOf_adopt_new by done.
    rewrite (bt_kids dR related d1 Hb) by lia.
    by rewrite (Hrest main Hnot).
  - destruct (is_table_agree (next dR) d1 (adopt main (next dR) d1))
      with (t := next dR) (data := relatedBlock related) as [H _]; try done.
    + intros y Hy. rewrite tagOf_adopt.
      rewrite kidsOf_adopt_other by (done || lia). done.
    + rewrite next_adopt. lia.
  - intros r Hr.
    rewrite kidsOf_adopt_other by (done || congruence).
    rewrite (bt_kids dR related d1 Hb) by (specialize (Hlt r Hr); lia).
    rewrite (Hdone r Hr). apply filter_notin_markup.
Qed.

End Related.

(** C1 as stated fails on a page whose main-content region is itself a
    related-post link: the region is moved into the table, and appending
    the table to the region is refused. *)
Definition main_is_link : dom :=
  store_of
    [Node "#document" [] ∅ "" [Elem 1] None;
     Node "div" ["blogPostMain"; "blogPostsBlock__titleLink"] ∅ "" []
       (Some 0%nat)].

Lemma createRelatedPostsBlock_throws :
  relatedLinks main_is_link 0 = [1%nat] ∧
  createRelatedPostsBlock 1 0 main_is_link = Throw HierarchyRequestError.
Proof. by vm_compute. Qed.

(** C1, amended.  On a well-formed store whose main-content region is not
    itself a related-post link, [createRelatedPostsBlock] returns; the
    region then ends with a new table whose header row is [Related Posts]
    and which has one row per link, in document order, each holding that
    link; the content of each link is its [href] (nothing when it has
    none); and the region has lost those of its children that were links.
    There is no test on the number of links: without any, the table has
    its header row only. *)
Theorem createRelatedPostsBlock_spec (d : dom) (main document : nid) :
  wf d → (main < next d)%nat → main ∉ relatedLinks d document →
  ∃ d' t,
    createRelatedPostsBlock main document d = Ok (tt, d') ∧
    kidsOf d' main =
      filter (λ it, it ∉ Elem <$> relatedLinks d document) (kidsOf d main)
      ++ [Elem t] ∧
    is_table d' t
      ([CString "Related Posts"] :: ((λ r, [CNode r]) <$> relatedLinks d document)) ∧
    (∀ r, r ∈ relatedLinks d document →
          kidsOf d' r = [Markup (default "" (getAttribute d r "href"))]) ∧
    (relatedLinks d document = [] → is_table d' t [[CString "Related Posts"]]).
Proof.
  intros Hwf Hmain Hnot.
  pose proof (createRelatedPostsBlock_wp d Hwf main document Hmain Hnot) as H.
  apply wp_ok in H as ([] & d' & Hrun & t & Hk & Htab & Hlinks).
  exists d', t. split_and!; try done.
  intros Hnil. unfold relatedBlock in Htab. by rewrite Hnil in Htab.
Qed.

(** A page with two links in the region, the second without [href]. *)
Definition page_with_links : dom :=
  store_of
    [Node "#document" [] ∅ "" [Elem 1] None;
     Node "div" ["blogPostMain"] ∅ "" [Elem 2; Markup "text"; Elem 3] (Some 0%nat);
     Node "a" ["blogPostsBlock__titleLink"] {[ "href" := "/p1" ]} ""
       [Markup "Post 1"] (Some 1%nat);
     Node "a" ["blogPostsBlock__titleLink"] ∅ "" [Markup "Post 2"] (Some 1%nat)].

Lemma createRelatedPostsBlock_spec_witness :
  ∃ d' t,
    createRelatedPostsBlock 1 0 page_with_links = Ok (tt, d') ∧
    kidsOf d' 1 =
      filter (λ it, it ∉ Elem <$> relatedLinks page_with_links 0)
        (kidsOf page_with_links 1)
      ++ [Elem t] ∧
    is_table d' t
      ([CString "Related Posts"]
         :: ((λ r, [CNode r]) <$> relatedLinks page_with_links 0)) ∧
    (∀ r, r ∈ relatedLinks page_with_links 0 →
          kidsOf d' r = [Markup (default "" (getAttribute page_with_links r "href"))]) ∧
    (relatedLinks page_with_links 0 = [] → is_table d' t [[CString "Related Posts"]]).
Proof.
  apply createRelatedPostsBlock_spec.
  - apply wf_check_sound. vm_compute. reflexivity.
  - vm_compute. lia.
  - by_compute.
Defined.

(** The same page, node by node. *)
Example createRelatedPostsBlock_example :
  wp (createRelatedPostsBlock 1 0) page_with_links (λ _ d',
    kidsOf d' 1 = [Markup "text"; Elem 4] ∧
    tagOf d' 4 = "table" ∧ kidsOf d' 4 = [Elem 5; Elem 7; Elem 9] ∧
    kidsOf d' 5 = [Elem 6] ∧ tagOf d' 6 = "th" ∧
    kidsOf d' 6 = [Markup "Related Posts"] ∧
    kidsOf d' 7 = [Elem 8] ∧ tagOf d' 8 = "td" ∧ kidsOf d' 8 = [Elem 2] ∧
    kidsOf d' 9 = [Elem 10] ∧ tagOf d' 10 = "td" ∧ kidsOf d' 10 = [Elem 3] ∧
    kidsOf d' 2 = [Markup "/p1"] ∧ kidsOf d' 3 = [Markup ""]).
Proof. vm_compute. by repeat split. Qed.

(** A page without links: the block is appended all the same, with its
    header row only. *)
Definition page_without_links : dom :=
  store_of
    [Node "#document" [] ∅ "" [Elem 1] None;
     Node "div" ["blogPostMain"] ∅ "" [Markup "text"] (Some 0%nat)].

Example createRelatedPostsBlock_no_link :
  relatedLinks page_without_links 0 = [] ∧
  wp (createRelatedPostsBlock 1 0) page_without_links (λ _ d',
    kidsOf d' 1 = [Markup "text"; Elem 2] ∧
    tagOf d' 2 = "table" ∧ kidsOf d' 2 = [Elem 3] ∧
    kidsOf d' 3 = [Elem 4] ∧ tagOf d' 4 = "th" ∧
    kidsOf d' 4 = [Markup "Related Posts"]).
Proof. vm_compute. by repeat split. Qed.

(** ** The fuel of the traversal

    A traversal with [next d] units of fuel reaches every descendant: no
    node of a well-formed store lies [next d] levels below another one.  So
    queries do not depend on the allocation counter, and they are not
    affected by what happens to created nodes. *)
Section Fuel.
Implicit Types (d : dom) (x y c : nid).

Lemma list_bind_nil {A B} (g : A → list B) (l : list A) :
  l ≫= g = [] → ∀ a, a ∈ l → g a = [].
Proof.
  induction l as [|b l IH]; [by intros _ a ?%elem_of_nil |].
  rewrite bind_cons. intros [Hb Hl]%app_eq_nil a [-> | Ha]%elem_of_cons; auto.
Qed.

Lemma list_bind_ext_in {A B} (g h : A → list B) (l : list A) :
  (∀ a, a ∈ l → g a = h a) → l ≫= g = l ≫= h.
Proof.
  induction l as [|b l IH]; [done |]. intros Hext.
  rewrite !bind_cons, Hext, IH; [done | | ].
  - intros a Ha. apply Hext, elem_of_cons. by right.
  - apply elem_of_cons. by left.
Qed.

Lemma list_bind_bind {A B C} (g : A → list B) (h : B → list C) (l : list A) :
  (l ≫= g) ≫= h = l ≫= (λ a, g a ≫= h).
Proof.
  induction l as [|b l IH]; [done |].
  by rewrite !bind_cons, bind_app, IH.
Qed.

Lemma level_snoc d k x :
  level d (S k) x = level d k x ≫= (λ z, elems (kidsOf d z)).
Proof.
  revert x. induction k as [|k IH]; intros x.
  - change (level d 0 x) with [x]. rewrite bind_singleton.
    change (level d 1 x) with (elems (kidsOf d x) ≫= λ c, [c]).
    induction (elems (kidsOf d x)) as [|c l IHl]; [done |].
    rewrite bind_cons, IHl. done.
  - change (level d (S (S k)) x) with (elems (kidsOf d x) ≫= level d (S k)).
    rewrite (list_bind_ext_in (level d (S k))
               (λ c, level d k c ≫= (λ z, elems (kidsOf d z)))) by auto.
    by rewrite <- list_bind_bind.
Qed.

Lemma level_chain d k x y :
  wf d → y ∈ level d k x → length (ancestors d k y) = k.
Proof.
  intros Hwf. revert y. induction k as [|k IH]; intros y; [done |].
  rewrite level_snoc.
  intros (z & Hy%elem_of_elems%(wf_kid_parent d Hwf) & Hz)%list_elem_of_bind.
  simpl. rewrite Hy. simpl. by rewrite (IH z Hz).
Qed.

Lemma level_deep d k x : wf d → (next d ≤ S k)%nat → level d (S k) x = [].
Proof.
  intros Hwf Hk. destruct (level d (S k) x) as [|y l] eqn:E; [done | exfalso].
  assert (y ∈ level d (S k) x) as Hy by (rewrite E; apply elem_of_cons; by left).
  pose proof (level_chain d (S k) x y Hwf Hy) as Hlen.
  assert (length (y :: ancestors d (S k) y) ≤ next d)%nat as Hle.
  { apply nodup_bounded_length; [apply ancestors_nodup, Hwf |].
    intros a Ha. destruct (ancestors d (S k) y) as [|p l'] eqn:Ea; [done |].
    assert (anc d p y) as Hp.
    { apply (ancestors_sound d (S k)). rewrite Ea. apply elem_of_cons. by left. }
    apply elem_of_cons in Ha as [-> | Ha].
    - by apply (anc_lt d p).
    - apply (anc_lt d a y Hwf). apply (ancestors_sound d (S k)). by rewrite Ea. }
  change (S (length (ancestors d (S k) y)) ≤ next d)%nat in Hle. lia.
Qed.

Lemma descendants_level d f x :
  level d (S f) x = [] → descendants d (S f) x = descendants d f x.
Proof.
  revert x. induction f as [|f IH]; intros x Hl.
  - simpl in *. destruct (elems (kidsOf d x)); [done | done].
  - change (level d (S (S f)) x) with (elems (kidsOf d x) ≫= level d (S f)) in Hl.
    change (descendants d (S (S f)) x)
      with (elems (kidsOf d x) ≫= λ c, c :: descendants d (S f) c).
    change (descendants d (S f) x)
      with (elems (kidsOf d x) ≫= λ c, c :: descendants d f c).
    apply list_bind_ext_in. intros c Hc. f_equal. apply IH.
    by apply (list_bind_nil _ _ Hl).
Qed.

Lemma descendants_fuel d f x :
  wf d → (next d ≤ f)%nat → descendants d f x = descendants d (next d) x.
Proof.
  intros Hwf Hf. induction Hf as [|f Hf IH]; [done |].
  rewrite descendants_level; [done |]. apply level_deep; [done | lia].
Qed.

Lemma descendants_agree d d' f x :
  wf d → (∀ y, (y < next d)%nat → kidsOf d' y = kidsOf d y) →
  (x < next d)%nat → descendants d' f x = descendants d f x.
Proof.
  intros Hwf Hk. revert x. induction f as [|f IH]; intros x Hx; [done |].
  simpl. rewrite Hk by done. apply list_bind_ext_in.
  intros c Hc%elem_of_elems. f_equal. apply IH.
  by destruct (wf_kid_lt d c x Hwf Hc).
Qed.

Lemma filter_ext_in {A} (P Q : A → Prop) `{∀ a, Decision (P a)}
    `{∀ a, Decision (Q a)} (l : list A) :
  (∀ a, a ∈ l → P a ↔ Q a) → filter P l = filter Q l.
Proof.
  induction l as [|b l IH]; [done |]. intros Hext.
  assert (filter P l = filter Q l) as Hl.
  { apply IH. intros a Ha. apply Hext, elem_of_cons. by right. }
  assert (P b ↔ Q b) as Hb by (apply Hext, elem_of_cons; by left).
  destruct (decide (P b)) as [HP | HP].
  - rewrite !filter_cons_True by tauto. by rewrite Hl.
  - rewrite !filter_cons_False by tauto. done.
Qed.

Lemma matches_same d d' sel y : same_label d d' y → matches d' sel y = matches d sel y.
Proof.
  intros (Ht & Hc & Ha & _). destruct sel; simpl;
    unfold classList_contains, getAttribute; by rewrite ?Ht, ?Hc, ?Ha.
Qed.

(** A query below a found node sees what it saw, when the found nodes kept
    their children and labels. *)
Lemma querySelectorAll_agree d d' x sel :
  wf d → wf d' → (next d ≤ next d')%nat → (x < next d)%nat →
  (∀ y, (y < next d)%nat → kidsOf d' y = kidsOf d y ∧ same_label d d' y) →
  querySelectorAll d' x sel = querySelectorAll d x sel.
Proof.
  intros Hwf Hwf' Hn Hx Hsame. unfold querySelectorAll.
  rewrite (descendants_agree d d') by (done || apply Hsame).
  rewrite (descendants_fuel d (next d')) by done.
  apply filter_ext_in. intros y Hy.
  apply descendants_anc in Hy; [| done].
  destruct (anc_lt d x y Hwf Hy) as [_ Hlt].
  rewrite (matches_same d d' sel y); [done |]. by apply Hsame.
Qed.

Lemma querySelector_agree d d' x sel :
  wf d → wf d' → (next d ≤ next d')%nat → (x < next d)%nat →
  (∀ y, (y < next d)%nat → kidsOf d' y = kidsOf d y ∧ same_label d d' y) →
  querySelector d' x sel = querySelector d x sel.
Proof. intros. unfold querySelector. by rewrite (querySelectorAll_agree d d'). Qed.

End Fuel.

(** ** Document order *)
Section DocumentOrder.
Implicit Types (d : dom) (x y c r : nid).

Lemma StronglySorted_filter {A} (R : relation A) (P : A → Prop)
    `{∀ a, Decision (P a)} (l : list A) :
  StronglySorted R l → StronglySorted R (filter P l).
Proof.
  induction l as [|a l IH]; [done |].
  rewrite StronglySorted_cons. intros [Ha Hl].
  destruct (decide (P a)).
  - rewrite filter_cons_True by done. apply StronglySorted_cons.
    split; [| by apply IH]. apply Forall_forall.
    intros b [_ Hb]%list_elem_of_filter. by apply (proj1 (Forall_forall _ _) Ha).
  - rewrite filter_cons_False by done. by apply IH.
Qed.

(** A traversal lists every node before the nodes below it. *)
Lemma descendants_sorted d f r :
  wf d → StronglySorted (precedes d) (descendants d f r).
Proof.
  intros Hwf. revert r. induction f as [|f IH]; intros r; simpl.
  { constructor. }
  pose proof (wf_kids_nodup d Hwf r) as Hnd.
  assert (∀ c, c ∈ elems (kidsOf d r) → parentOf d c = Some r) as Hpar.
  { intros c Hc%elem_of_elems. by apply Hwf. }
  induction (elems (kidsOf d r)) as [|c ks IHks]; [constructor |].
  apply NoDup_cons in Hnd as [Hc Hnd]. rewrite bind_cons.
  assert (parentOf d c = Some r) as Hpc by (apply Hpar, elem_of_cons; by left).
  apply StronglySorted_app_2.
  - intros x1 x2 Hx1 (c' & Hx2 & Hc')%list_elem_of_bind Hanc.
    assert (c ≠ c') as Hne by (by intros ->).
    assert (parentOf d c' = Some r) as Hpc'.
    { apply Hpar, elem_of_cons. by right. }
    assert (anc d c' x1) as Hc'x1.
    { apply elem_of_cons in Hx2 as [-> | Hx2%descendants_anc]; [done | | done].
      by eapply anc_trans. }
    apply elem_of_cons in Hx1 as [-> | Hx1%descendants_anc]; [| | done].
    + by apply (anc_sibling d r c' c).
    + destruct (anc_linear d c c' x1 Hx1 Hc'x1) as [? | [? | ?]]; [done | |].
      * by apply (anc_sibling d r c c').
      * by apply (anc_sibling d r c' c).
  - apply StronglySorted_cons. split; [| apply IH].
    apply Forall_forall. intros y Hy%descendants_anc Hanc; [| done].
    apply (wf_acyclic d Hwf c). by eapply anc_trans.
  - apply IHks; [done |]. intros c' Hc'. apply Hpar, elem_of_cons. by right.
Qed.

Lemma querySelectorAll_sorted d r sel :
  wf d → StronglySorted (precedes d) (querySelectorAll d r sel).
Proof. intros Hwf. by apply StronglySorted_filter, descendants_sorted. Qed.

(** A query below a node sees what it saw, when the node and the nodes
    below it kept their children and the latter their labels. *)
Lemma descendants_below d d' f x :
  wf d → (∀ y, y = x ∨ anc d x y → kidsOf d' y = kidsOf d y) →
  descendants d' f x = descendants d f x.
Proof.
  intros Hwf. revert x. induction f as [|f IH]; intros x Hk; [done |]. simpl.
  rewrite Hk by by left. apply list_bind_ext_in.
  intros c Hc%elem_of_elems. f_equal. apply IH. intros y Hy. apply Hk. right.
  assert (anc d x c) as Hxc by (apply anc_parent; by apply Hwf).
  destruct Hy as [-> | Hy]; [done | by eapply anc_trans].
Qed.

Lemma querySelectorAll_below d d' x sel :
  wf d → (next d ≤ next d')%nat →
  (∀ y, y = x ∨ anc d x y → kidsOf d' y = kidsOf d y) →
  (∀ y, anc d x y → same_label d d' y) →
  querySelectorAll d' x sel = querySelectorAll d x sel.
Proof.
  intros Hwf Hn Hk Hlab. unfold querySelectorAll.
  rewrite (descendants_below d d') by done.
  rewrite (descendants_fuel d (next d')) by done.
  apply filter_ext_in. intros y Hy.
  apply descendants_anc in Hy; [| done].
  rewrite (matches_same d d' sel y); [done |]. by apply Hlab.
Qed.

Lemma querySelector_below d d' x sel :
  wf d → (next d ≤ next d')%nat →
  (∀ y, y = x ∨ anc d x y → kidsOf d' y = kidsOf d y) →
  (∀ y, anc d x y → same_label d d' y) →
  querySelector d' x sel = querySelector d x sel.
Proof. intros. unfold querySelector. by rewrite (querySelectorAll_below d d'). Qed.

Lemma wf_kids_lt d y : wf d → kidsOf d y ≠ [] → (y < next d)%nat.
Proof.
  intros Hwf Hk. destruct (decide (y < next d)%nat) as [| Hge]; [done |].
  exfalso. apply Hk. unfold kidsOf. by rewrite (wf_alloc d Hwf y) by lia.
Qed.

End DocumentOrder.

(** ** [createCallouts] *)
Section Callouts.
Context `{Host} (d : dom) (Hwf : wf d).
Implicit Types (x y p t h callout container cta : nid).

Lemma built_nil_query dk x sel :
  built d [] dk → (x < next d)%nat →
  querySelector dk x sel = querySelector d x sel.
Proof.
  intros Hb Hx. apply querySelector_agree; try done.
  - apply Hb.
  - apply Hb.
  - intros y Hy. split; [by apply (built_nil_kids d dk) |].
    by apply (bt_label d [] dk Hb).
Qed.

(** A link found below a callout is not on the way from the callout to the
    root. *)
Lemma below_facts callout cta p sel :
  querySelector d callout sel = Some cta → parentOf d callout = Some p →
  (cta < next d)%nat ∧ cta ≠ callout ∧ (Elem cta ∉ kidsOf d p) ∧
  ∀ y, y = p ∨ anc d y p → y ≠ cta.
Proof.
  intros Hq Hp. pose proof (querySelector_anc d callout sel cta Hwf Hq) as Hanc.
  assert (anc d p callout) as Hpc by by apply anc_parent.
  assert (anc d p cta) as Hpcta by by eapply anc_trans.
  split_and!.
  - by apply (anc_lt d callout cta).
  - intros ->. by apply (wf_acyclic d Hwf callout).
  - intros Hin%(wf_kid_parent d Hwf).
    apply anc_inv in Hanc as (q & Hq' & Hor).
    assert (q = p) as -> by congruence.
    apply (wf_acyclic d Hwf p). destruct Hor as [<- | Hor]; [done |].
    exact (anc_trans d p callout p Hpc Hor).
  - intros y Hy Heq. subst y. apply (wf_acyclic d Hwf cta).
    destruct Hy as [<- | Hy]; [done |].
    exact (anc_trans d cta p cta Hy Hpcta).
Qed.

(** Creating an element, giving it markup and hanging it in the
    container. *)
Lemma add_child_spec (tg : string) (g : dom → string) container hs dk :
  container_inv d container hs dk →
  wp (x ← createElement tg; dd ← getDom; setInnerHTML x (g dd);;
      append container x) dk (λ _ dk',
    container_inv d container (hs ++ [next dk]) dk' ∧
    next dk' = S (next dk) ∧ tagOf dk' (next dk) = tg ∧
    (∀ y, (y < next dk)%nat → tagOf dk' y = tagOf dk y) ∧
    (∃ dr, built d [] dr ∧ kidsOf dk' (next dk) = [Markup (g dr)]) ∧
    ∀ y, (y < next dk)%nat → y ≠ container → kidsOf dk' y = kidsOf dk y).
Proof.
  intros (Hb & Hc & Htag & Hpar & Hkids & Hhs).
  pose proof (bt_wf d [] dk Hb) as Hwfk.
  apply wp_bind. unfold wp at 1, createElement.
  set (x := next dk). set (d1 := alloc tg dk).
  assert (x = next dk ∧ next d1 = S (next dk)) as [Hx Hn1] by done.
  assert (built d [] d1) as Hb1 by by apply built_alloc.
  apply wp_bind, wp_getDom, wp_bind, wp_modify.
  set (d2 := rewrite_markup x (g d1) d1).
  destruct (wf_fresh dk x Hwfk) as (Hkx & Hpx & _); [lia |].
  assert (kidsOf d1 x = []) as Hkx1 by (unfold d1; by rewrite kidsOf_alloc).
  assert (built d [] d2) as Hb2.
  { apply built_markup; [done | lia | by rewrite Hkx1]. }
  pose proof (bt_wf d [] d2 Hb2) as Hwf2.
  assert (∀ y, parentOf d2 y = parentOf dk y) as Hp2.
  { intros y. unfold d2. rewrite parentOf_rewrite_markup, Hkx1.
    rewrite decide_False by apply not_elem_of_nil.
    unfold d1. by rewrite parentOf_alloc. }
  assert (∀ y, y ≠ x → kidsOf d2 y = kidsOf dk y) as Hk2.
  { intros y Hy. unfold d2. rewrite kidsOf_rewrite_markup, decide_False by done.
    unfold d1. by rewrite kidsOf_alloc. }
  assert (∀ y, tagOf d2 y = if decide (y = x) then tg else tagOf dk y) as Ht2.
  { intros y. unfold d2.
    destruct (same_label_rewrite_markup x (g d1) d1 y) as (-> & _).
    unfold d1. by rewrite tagOf_alloc. }
  apply wp_append; [done | lia | |].
  { intros (q & Hq & _)%anc_inv. rewrite Hp2 in Hq. congruence. }
  assert (parentOf d2 x = None) as Hpx2 by by rewrite Hp2.
  assert (next d2 = S (next dk)) as Hn2.
  { unfold d2. by rewrite next_rewrite_markup. }
  assert (next (adopt container x d2) = S (next dk)) as Hn3.
  { by rewrite next_adopt. }
  split; [| split_and!].
  - unfold container_inv. rewrite Hn3. split_and!.
    + apply built_adopt_new; try done; try lia.
      intros (q & Hq & _)%anc_inv. rewrite Hp2 in Hq. congruence.
    + lia.
    + lia.
    + rewrite tagOf_adopt, Ht2, decide_False by lia. done.
    + rewrite parentOf_adopt, decide_False by lia. by rewrite Hp2.
    + rewrite kidsOf_adopt_new by done. rewrite Hk2 by lia.
      by rewrite Hkids, fmap_app.
    + intros h [Hh%Hhs | ->%list_elem_of_singleton]%elem_of_app; lia.
  - done.
  - rewrite tagOf_adopt, Ht2. by rewrite decide_True.
  - intros y Hy. rewrite tagOf_adopt, Ht2. by rewrite decide_False by lia.
  - exists d1. split; [done |].
    rewrite kidsOf_adopt_other by (done || lia).
    unfold d2. by rewrite kidsOf_rewrite_markup, decide_True.
  - intros y Hy Hyc. rewrite kidsOf_adopt_other by done. apply Hk2. lia.
Qed.

(** One optional child of the container. *)
Lemma optional_child_spec (tg : string) (g : nid → dom → string)
    (found : option nid) container hs dk :
  container_inv d container hs dk →
  wp (match found with
      | Some el =>
          x ← createElement tg; dd ← getDom; setInnerHTML x (g el dd);;
          append container x
      | None => mret tt
      end) dk (λ _ dk',
    ∃ hs', container_inv d container (hs ++ hs') dk' ∧
           tagOf dk' <$> hs' = match found with Some _ => [tg] | None => [] end ∧
           (∀ y, (y < next dk)%nat → tagOf dk' y = tagOf dk y) ∧
           (∀ y, (y < next dk)%nat → y ≠ container → kidsOf dk' y = kidsOf dk y) ∧
           match found with
           | Some el =>
               hs' = [next dk] ∧
               ∃ dr, built d [] dr ∧ kidsOf dk' (next dk) = [Markup (g el dr)]
           | None => hs' = []
           end).
Proof.
  intros Hinv. destruct found as [el |].
  - eapply wp_mono; [by apply (add_child_spec tg (g el) container hs dk) |].
    intros [] dk' (Hinv' & Hn & Ht & Hold & Hread & Hkids). exists [next dk].
    split_and!; [done | by rewrite list_fmap_singleton, Ht | done | done | done | done].
  - apply wp_ret. exists []. by rewrite app_nil_r.
Qed.

(** The body of the loop, with what the heading and the paragraph hold:
    the text and the markup are read in a store [dr] that differs from [d]
    by created nodes only. *)
Lemma calloutToBlock_full callout :
  (callout < next d)%nat →
  wp (calloutToBlock callout) d (λ _ d',
    wf d' ∧ (next d ≤ next d')%nat ∧
    (∀ y, (y < next d)%nat → same_label d d' y) ∧
    ∃ t hs,
      is_table d' t (calloutRows d callout (next d)) ∧
      tagOf d' (next d) = "div" ∧ kidsOf d' (next d) = Elem <$> hs ∧
      tagOf d' <$> hs = containerTags d callout ∧
      (next d < t)%nat ∧
      (∀ p, parentOf d callout = Some p →
            kidsOf d' p = subst_item callout t (kidsOf d p) ∧
            parentOf d' callout = None ∧ parentOf d' t = Some p) ∧
      (∀ ft, querySelector d callout (ByClass "blogPostContent__ctaText") = Some ft →
             ∃ h dr, head hs = Some h ∧ built d [] dr ∧
                     kidsOf d' h = [Markup (textContent dr ft)]) ∧
      (∀ sub,
         querySelector d callout (ByClass "blogPostContent__ctaSubheading") = Some sub →
         ∃ h dr, last hs = Some h ∧ built d [] dr ∧
                 kidsOf d' h = [Markup (innerHTML dr sub)]) ∧
      callout_step d callout d' ∧ table_from (next d) d' t ∧
      (∀ h, h ∈ hs → (next d < h)%nat) ∧
      parentOf d' t = parentOf d callout).
Proof.
  intros Hc. unfold calloutToBlock.
  apply wp_bind, wp_getDom, wp_bind. unfold wp at 1, createElement.
  set (container := next d). set (d1 := alloc "div" d).
  assert (container = next d ∧ next d1 = S (next d)) as [Hceq Hn1] by done.
  assert (container_inv d container [] d1) as Hinv1.
  { destruct (wf_fresh d container Hwf) as (Hk & Hp & _); [lia |].
    unfold d1. split_and!.
    - apply built_alloc. by apply built_init.
    - lia.
    - simpl. lia.
    - by rewrite tagOf_alloc, decide_True.
    - by rewrite parentOf_alloc.
    - by rewrite kidsOf_alloc.
    - by intros h ?%elem_of_nil. }
  apply wp_bind, wp_getDom.
  rewrite (built_nil_query d1 callout) by (apply Hinv1 || done).
  apply wp_bind. eapply wp_mono.
  { apply (optional_child_spec "h3" (λ el dd, textContent dd el) _
             container [] d1 Hinv1). }
  intros [] d4 (hs1 & Hinv4 & Htags1 & _ & _ & Hread1). simpl in Hinv4.
  apply wp_bind, wp_getDom.
  rewrite (built_nil_query d4 callout) by (apply Hinv4 || done).
  apply wp_bind. eapply wp_mono.
  { apply (optional_child_spec "p" (λ el dd, innerHTML dd el) _
             container hs1 d4 Hinv4). }
  intros [] d6 (hs2 & Hinv6 & Htags2 & Hold6 & Hkeep6 & Hread2).
  pose proof Hinv4 as (_ & _ & _ & _ & _ & Hhs4).
  assert (tagOf d6 <$> (hs1 ++ hs2) = containerTags d callout) as Htags.
  { rewrite fmap_app, Htags2. unfold containerTags. f_equal.
    rewrite <- Htags1. apply list_fmap_ext. intros i h Hh.
    apply Hold6. destruct Hinv4 as (_ & _ & _ & _ & _ & Hhs).
    apply list_elem_of_lookup_2 in Hh. by destruct (Hhs h Hh). }
  destruct Hinv6 as (Hb6 & Hc6 & Htag6 & Hpar6 & Hkids6 & Hhs6).
  pose proof (bt_wf d [] d6 Hb6) as Hwf6.
  apply wp_bind, wp_getDom.
  rewrite (built_nil_query d6 callout) by done.
  fold (ctaLink d callout).
  set (rows := ([] ++ [[CString (blockName d callout)]]) ++ [[CNode container]]).
  assert (match ctaLink d callout with
          | Some cta => rows ++ [[CNode cta]]
          | None => rows
          end = calloutRows d callout container) as ->.
  { unfold calloutRows, rows. by destruct (ctaLink d callout). }
  set (E := data_elems (calloutRows d callout container)).
  assert (∀ e, e ∈ E → e = container ∨ ctaLink d callout = Some e) as HE.
  { intros e. unfold E, calloutRows. destruct (ctaLink d callout) as [cta |].
    - intros [-> | [-> | ?%elem_of_nil]%elem_of_cons]%elem_of_cons; auto.
      done.
    - intros [-> | ?%elem_of_nil]%elem_of_cons; auto. done. }
  assert (∀ cta, ctaLink d callout = Some cta → (cta < next d)%nat ∧ cta ≠ callout)
    as Hcta.
  { intros cta Hq.
    pose proof (querySelector_anc d callout _ cta Hwf Hq) as Hanc.
    split; [by apply (anc_lt d callout cta) |].
    intros ->. by apply (wf_acyclic d Hwf callout). }
  apply wp_bind. eapply wp_mono.
  { apply (createTable_spec (calloutRows d callout container) d6 Hwf6).
    - unfold calloutRows. destruct (ctaLink d callout) as [cta |] eqn:Hq.
      + destruct (Hcta cta eq_refl). apply NoDup_cons. split.
        * intros ->%list_elem_of_singleton. lia.
        * apply NoDup_singleton.
      + apply NoDup_singleton.
    - intros e [-> | He]%HE; [lia |]. destruct (Hcta e He). lia. }
  intros t d7 (-> & Hb7 & Htab7 & Hpt7 & Hfrom7). fold E in Hb7.
  pose proof (bt_wf d6 E d7 Hb7) as Hwf7.
  pose proof (bt_next d6 E d7 Hb7) as Hn7.
  pose proof (bt_next d [] d6 Hb6) as Hn6.
  pose proof Hfrom7 as [Htr7 _].
  assert (callout ∉ E) as HcE.
  { intros [-> | He]%HE; [lia |]. by destruct (Hcta callout He). }
  assert (parentOf d7 callout = parentOf d callout) as Hpc7.
  { rewrite (bt_parent d6 E d7 Hb7) by (done || lia).
    by apply (built_nil_parent d d6). }
  assert (tagOf d7 container = "div" ∧ kidsOf d7 container = Elem <$> (hs1 ++ hs2)
          ∧ tagOf d7 <$> (hs1 ++ hs2) = containerTags d callout)
    as (Htagc7 & Hkc7 & Htags7).
  { split_and!.
    - destruct (bt_label d6 E d7 Hb7 container) as (-> & _); [lia | done].
    - rewrite (bt_kids d6 E d7 Hb7) by lia. rewrite Hkids6.
      apply filter_ne_all. intros it (h & -> & Hh)%list_elem_of_fmap
        (e & [= <-] & He)%list_elem_of_fmap.
      destruct (Hhs6 h Hh). apply HE in He as [-> | He]; [lia |].
      destruct (Hcta h He). lia.
    - rewrite <- Htags. apply list_fmap_ext. intros i h Hh.
      apply list_elem_of_lookup_2 in Hh. destruct (Hhs6 h Hh).
      by destruct (bt_label d6 E d7 Hb7 h) as (-> & _); [lia |]. }
  assert (∀ y, (y < next d)%nat → same_label d d7 y) as Hlab7.
  { intros y Hy. eapply same_label_trans; [by apply (bt_label d [] d6 Hb6) |].
    apply (bt_label d6 E d7 Hb7). lia. }
  assert (∀ ft, querySelector d callout (ByClass "blogPostContent__ctaText") = Some ft →
            ∃ h dr, head (hs1 ++ hs2) = Some h ∧ built d [] dr ∧
                    (next d < h < next d6)%nat ∧
                    kidsOf d7 h = [Markup (textContent dr ft)]) as Hft7.
  { intros ft Hq. rewrite Hq in Hread1. destruct Hread1 as (-> & dr & Hbr & Hkh).
    destruct (Hhs4 (next d1)) as [Hh1 Hh2]; [by apply list_elem_of_singleton |].
    destruct (Hhs6 (next d1)) as [_ Hh3].
    { apply elem_of_app. left. by apply list_elem_of_singleton. }
    exists (next d1), dr. split_and!; [done | done | lia | lia |].
    rewrite (bt_kids d6 E d7 Hb7) by lia.
    rewrite Hkeep6 by lia. rewrite Hkh. apply filter_notin_markup. }
  assert (∀ sub,
            querySelector d callout (ByClass "blogPostContent__ctaSubheading") = Some sub →
            ∃ h dr, last (hs1 ++ hs2) = Some h ∧ built d [] dr ∧
                    (next d < h < next d6)%nat ∧
                    kidsOf d7 h = [Markup (innerHTML dr sub)]) as Hsub7.
  { intros sub Hq. rewrite Hq in Hread2. destruct Hread2 as (-> & dr & Hbr & Hkh).
    destruct (Hhs6 (next d4)) as [Hh1 Hh2].
    { apply elem_of_app. right. by apply list_elem_of_singleton. }
    exists (next d4), dr. split_and!; [by rewrite last_snoc | done | lia | lia |].
    rewrite (bt_kids d6 E d7 Hb7) by lia.
    rewrite Hkh. apply filter_notin_markup. }
  assert (∀ y, (y < next d)%nat →
            (∀ a, ctaLink d callout = Some a → Elem a ∉ kidsOf d y) →
            kidsOf d7 y = kidsOf d y) as HK7.
  { intros y Hy Hno. rewrite (bt_kids d6 E d7 Hb7) by lia.
    rewrite (built_nil_kids d d6) by done.
    apply filter_ne_all. intros it Hit (e & -> & He)%list_elem_of_fmap.
    destruct (wf_kid_lt d e y Hwf Hit) as [Helt _].
    apply HE in He as [-> | Hq]; [lia |]. by apply (Hno e). }
  assert (∀ y, (y < next d)%nat → ctaLink d callout ≠ Some y →
            parentOf d7 y = parentOf d y) as HP7.
  { intros y Hy Hno. rewrite (bt_parent d6 E d7 Hb7) by first
      [lia | intros [-> | He]%HE; [lia | done]].
    by apply (built_nil_parent d d6). }
  assert (∀ a, ctaLink d callout = Some a →
            ∃ q, parentOf d7 a = Some q ∧ (next d ≤ q)%nat) as HL7.
  { intros a Ha. destruct (bt_moved d6 E d7 Hb7 a) as (q & Hq & Hqn).
    - unfold E, calloutRows. rewrite Ha. simpl.
      apply elem_of_cons. right. apply elem_of_cons. by left.
    - exists q. split; [done | lia]. }
  assert (∀ y q, (next d ≤ y)%nat → parentOf d7 y = Some q → (next d ≤ q)%nat)
    as HF7.
  { intros y q Hy Hq. destruct (decide (next d6 ≤ y)%nat) as [Hnew | Hmid].
    - pose proof (bt_new d6 E d7 Hb7 y q Hnew Hq). lia.
    - destruct (decide (y ∈ E)) as [HyE | HyE].
      + destruct (bt_moved d6 E d7 Hb7 y HyE) as (q' & Hq' & Hqn).
        assert (q = q') as -> by congruence. lia.
      + rewrite (bt_parent d6 E d7 Hb7) in Hq by (done || lia).
        by apply (bt_new d [] d6 Hb6 y q). }
  assert (table_from (next d) d7 (next d6)) as Hfrom.
  { destruct Hfrom7 as [Hr Hrows]. split; [lia |]. intros tr Htr.
    destruct (Hrows tr Htr) as [Htrlo Hcs]. split; [lia |].
    intros c Hcin. specialize (Hcs c Hcin). lia. }
  assert (∀ h, h ∈ hs1 ++ hs2 → (next d < h)%nat) as Hhs.
  { intros h Hh. destruct (Hhs6 h Hh). lia. }
  destruct (parentOf d callout) as [p |] eqn:Hp.
  2:{ unfold wp, replaceWith. rewrite Hpc7.
      split_and!; [done | lia | done |]. exists (next d6), (hs1 ++ hs2).
      split_and!; try done; [lia | | |].
      - intros ft Hq. destruct (Hft7 ft Hq) as (h & dr & ? & ? & _ & ?).
        by exists h, dr.
      - intros sub Hq. destruct (Hsub7 sub Hq) as (h & dr & ? & ? & _ & ?).
        by exists h, dr.
      - split; [done | lia | done | | | done | done |].
        + intros y Hy _ Hno. by apply HK7.
        + intros y Hy _ Hno. by apply HP7.
        + intros y q Hy Hq. left. by apply (HF7 y q). }
  destruct (wf_parent_lt d callout p Hwf Hp) as [_ Hplt].
  assert (∀ y, y = p ∨ anc d6 y p → y ∉ E) as Hway.
  { intros y Hy Hin.
    assert (y = p ∨ anc d y p) as Hy'.
    { destruct Hy as [-> | Hy]; [by left | right].
      apply (built_anc_old d d6 [] Hwf Hb6 y p); [done | | done].
      intros z _. apply not_elem_of_nil. }
    assert (y < next d)%nat as Hylt.
    { destruct Hy' as [-> | Hy']; [done |]. by apply (anc_lt d y p). }
    apply HE in Hin as [-> | Hq]; [lia |].
    destruct (below_facts callout y p _ Hq Hp) as (_ & _ & _ & Hno).
    by apply (Hno y Hy'). }
  assert (¬ anc d7 (next d6) p) as Hanc7.
  { apply (built_not_anc_new d6 d7 E Hwf6 Hb7); [lia | lia | done]. }
  apply (wp_replaceWith callout (next d6) p); [done | done | lia | lia | done |].
  set (t := next d6) in *. set (d8 := swap p callout t d7).
  assert (t = next d6) as Hteq by done.
  assert (∀ y, y ≠ p → kidsOf d8 y = kidsOf d7 y) as Hk8.
  { intros y Hy. unfold d8. by rewrite kidsOf_swap, decide_False. }
  assert (∀ y, tagOf d8 y = tagOf d7 y) as Ht8.
  { intros y. unfold d8. by destruct (same_label_swap p callout t d7 y) as (-> & _). }
  assert (∀ y, y ≠ t → y ≠ callout → parentOf d8 y = parentOf d7 y) as Hp8.
  { intros y Hyt Hyc. unfold d8. rewrite parentOf_swap by done.
    by rewrite !decide_False. }
  assert (parentOf d8 t = Some p ∧ parentOf d8 callout = None) as [Hpt8 Hpc8].
  { unfold d8. rewrite !parentOf_swap by done.
    rewrite (decide_True (P := t = t)) by done.
    rewrite (decide_False (P := callout = t)) by lia.
    by rewrite (decide_True (P := callout = callout)). }
  assert (wf d8) as Hwf8 by (apply wf_swap; try done; lia).
  split_and!.
  - done.
  - unfold d8. rewrite next_swap. lia.
  - intros y Hy. eapply same_label_trans; [by apply Hlab7 |].
    apply same_label_swap.
  - exists t, (hs1 ++ hs2). split_and!.
    + destruct (is_table_agree (next d6) d7 d8) with (t := t)
        (data := calloutRows d callout container) as [Ht _]; try done.
      * intros y Hy. rewrite Ht8, Hk8 by lia. done.
      * unfold d8. rewrite next_swap. lia.
    + by rewrite Ht8.
    + rewrite Hk8 by lia. done.
    + rewrite <- Htags7. apply list_fmap_ext. intros i h _. apply Ht8.
    + lia.
    + intros ? [= <-]. unfold d8. rewrite kidsOf_swap by done.
      rewrite (decide_True (P := p = p)) by done.
      split_and!; try done. f_equal.
      apply HK7; [done |]. intros a Ha.
      by destruct (below_facts callout a p _ Ha Hp) as (_ & _ & Hno & _).
    + intros ft Hq. destruct (Hft7 ft Hq) as (h & dr & Hh & Hbr & Hhlt & Hkh).
      exists h, dr. split_and!; [done | done |]. rewrite Hk8 by lia. done.
    + intros sub Hq. destruct (Hsub7 sub Hq) as (h & dr & Hh & Hbr & Hhlt & Hkh).
      exists h, dr. split_and!; [done | done |]. rewrite Hk8 by lia. done.
    + split; [done | | | | | done | |].
      * unfold d8. rewrite next_swap. lia.
      * intros y Hy. eapply same_label_trans; [by apply Hlab7 |].
        apply same_label_swap.
      * intros y Hy Hnc Hno. rewrite Hk8; [by apply HK7 |].
        intros ->. apply Hnc. by apply (wf_parent_kid d Hwf).
      * intros y Hy Hnc Hno. rewrite Hp8 by (done || lia). by apply HP7.
      * intros a Ha. destruct (HL7 a Ha) as (q & Hq & Hqn).
        destruct (Hcta a Ha) as [Halt Hac].
        exists q. split; [| done]. rewrite Hp8 by (done || lia). done.
      * intros y q Hy Hq. destruct (decide (y = t)) as [-> | Hyt].
        -- right. congruence.
        -- left. rewrite Hp8 in Hq by (done || lia). by apply (HF7 y q).
    + destruct (is_table_agree (next d) d7 d8) with (t := t)
        (data := calloutRows d callout container) as [_ Hfr]; try done.
      * intros y Hy. rewrite Ht8. split; [done |]. apply Hk8.
        intros ->. lia.
      * unfold d8. rewrite next_swap. lia.
    + done.
    + done.
Qed.

Lemma calloutToBlock_wp callout :
  (callout < next d)%nat →
  wp (calloutToBlock callout) d (λ _ d',
    wf d' ∧ (next d ≤ next d')%nat ∧
    (∀ y, (y < next d)%nat → same_label d d' y) ∧
    ∃ t hs,
      is_table d' t (calloutRows d callout (next d)) ∧
      tagOf d' (next d) = "div" ∧ kidsOf d' (next d) = Elem <$> hs ∧
      tagOf d' <$> hs = containerTags d callout ∧
      (next d < t)%nat ∧
      ∀ p, parentOf d callout = Some p →
           kidsOf d' p = subst_item callout t (kidsOf d p) ∧
           parentOf d' callout = None ∧ parentOf d' t = Some p).
Proof.
  intros Hc. eapply wp_mono; [by apply calloutToBlock_full |].
  intros [] d' (Hwf' & Hn & Hlab & t & hs & Htab & Htag & Hk & Htags & Ht & Hp & _).
  split_and!; [done | done | done |]. by exists t, hs.
Qed.

End Callouts.

(** A loop whose body keeps [I] returns, runs its body once on every
    element, in order, and every run starts in a store where [I] holds. *)
Lemma forEach_trace_spec {X} (f : X → M unit) (I : dom → Prop) (l : list X) d :
  I d →
  (∀ x dk, x ∈ l → I dk → wp (f x) dk (λ _ dk', I dk')) →
  wp (forEach f l) d (λ _ d', I d') ∧
  (forEach_trace f l d).*1 = l ∧
  ∀ x dk, (x, dk) ∈ forEach_trace f l d → x ∈ l ∧ I dk.
Proof.
  revert d. induction l as [|x l IH]; intros d HI Hstep.
  - split_and!; [by apply wp_ret | done |]. by intros x dk ?%elem_of_nil.
  - pose proof (Hstep x d (list_elem_of_here x l) HI) as Hx.
    apply wp_ok in Hx as ([] & d1 & Hrun & HI1).
    destruct (IH d1 HI1) as (Hwp & Hfst & Hin).
    { intros y dk Hy. apply Hstep. by apply list_elem_of_further. }
    simpl. rewrite Hrun. split_and!.
    + apply wp_bind. unfold wp at 1. by rewrite Hrun.
    + by rewrite <- Hfst at 2.
    + intros y dk [[= -> ->] | Hy]%elem_of_cons.
      * split; [apply list_elem_of_here | done].
      * destruct (Hin y dk Hy). split; [by apply list_elem_of_further | done].
Qed.

Lemma createCallouts_runs `{Host} (d : dom) (main : nid) :
  wf d →
  wp (createCallouts main) d (λ _ d', callouts_inv d d') ∧
  (calloutRuns d main).*1 =
    querySelectorAll d main (ByClass "blogPostContent__ctaContainer") ∧
  ∀ callout dk, (callout, dk) ∈ calloutRuns d main →
    (callout < next d)%nat ∧ callouts_inv d dk.
Proof.
  intros Hwf.
  set (L := querySelectorAll d main (ByClass "blogPostContent__ctaContainer")).
  assert (∀ callout, callout ∈ L → (callout < next d)%nat) as HL.
  { intros callout Hin.
    pose proof (querySelectorAll_anc d main _ callout Hwf Hin) as Hanc.
    by destruct (anc_lt d main callout Hwf Hanc). }
  destruct (forEach_trace_spec calloutToBlock (callouts_inv d) L d)
    as (Hwp & Hfst & Hin).
  { split_and!; [done | lia |]. intros y _. apply same_label_refl. }
  { intros callout dk Hc (Hwfk & Hnk & Hlab).
    eapply wp_mono; [apply (calloutToBlock_wp dk Hwfk callout) |].
    - specialize (HL callout Hc). lia.
    - intros [] dk' (Hwf' & Hn' & Hlab' & _). split_and!; [done | lia |].
      intros y Hy. eapply same_label_trans; [by apply Hlab |].
      apply Hlab'. lia. }
  split_and!.
  - unfold createCallouts. by apply wp_bind, wp_getDom.
  - done.
  - intros callout dk Hrun. destruct (Hin callout dk Hrun) as [Hc Hinv].
    split; [| done]. by apply HL.
Qed.

Lemma blockName_same_label (d dk : dom) (callout : nid) :
  same_label d dk callout → blockName dk callout = blockName d callout.
Proof.
  intros (_ & Hcl & _). unfold blockName, classList_contains. by rewrite Hcl.
Qed.

(** ** The page [createCallouts] returns *)

(** *** One run, seen from the nodes that were there *)
Section Step.
Context (d : dom) (c : nid) (d' : dom).
Context (Hwf : wf d) (Hstep : callout_step d c d').
Implicit Types (a b x y q : nid).

Lemma step_link a : ctaLink d c = Some a → tagOf d a = "a" ∧ anc d c a.
Proof.
  intros Ha. split; [| by apply (querySelector_anc d c (ByTag "a") a)].
  assert (a ∈ querySelectorAll d c (ByTag "a")) as Hin.
  { unfold ctaLink, querySelector in Ha.
    destruct (querySelectorAll d c (ByTag "a")) as [|a' l]; [done |].
    injection Ha as ->. apply elem_of_cons. by left. }
  apply querySelectorAll_matches in Hin. simpl in Hin.
  by apply bool_decide_eq_true_1 in Hin.
Qed.

(** Among the nodes that were there no ancestor is new, and what is above
    a created node was above the callout. *)
Lemma step_anc a b :
  (a < next d)%nat → anc d' a b →
  ((b < next d)%nat → anc d a b) ∧ ((next d ≤ b)%nat → anc d a c).
Proof.
  intros Ha H. induction H as [b a Hp | b p a Hp Hap IH].
  - split.
    + intros Hb. apply anc_parent.
      destruct (decide (b = c)) as [-> | Hbc].
      { rewrite (cs_out d c d' Hstep) in Hp. done. }
      destruct (decide (ctaLink d c = Some b)) as [Hl | Hl].
      { destruct (cs_link d c d' Hstep b Hl) as (q & Hq & Hqn).
        assert (q = a) as -> by congruence. lia. }
      by rewrite <- (cs_parent d c d' Hstep b Hb Hbc Hl).
    + intros Hb. destruct (cs_fresh d c d' Hstep b a Hb Hp) as [Hq | Hq]; [lia |].
      by apply anc_parent.
  - specialize (IH Ha). destruct IH as [IHold IHnew]. split.
    + intros Hb.
      destruct (decide (b = c)) as [-> | Hbc].
      { rewrite (cs_out d c d' Hstep) in Hp. done. }
      destruct (decide (ctaLink d c = Some b)) as [Hl | Hl].
      { destruct (cs_link d c d' Hstep b Hl) as (q & Hq & Hqn).
        assert (q = p) as -> by congruence.
        eapply anc_trans; [by apply IHnew |]. by apply step_link. }
      rewrite (cs_parent d c d' Hstep b Hb Hbc Hl) in Hp.
      destruct (wf_parent_lt d b p Hwf Hp) as [_ Hplt].
      eapply anc_step; [done |]. by apply IHold.
    + intros Hb. destruct (cs_fresh d c d' Hstep b p Hb Hp) as [Hq | Hq].
      * by apply IHnew.
      * destruct (wf_parent_lt d c p Hwf Hq) as [_ Hplt].
        eapply anc_step; [done |]. by apply IHold.
Qed.

End Step.

(** *** What a later run leaves of a block *)
Section Keeps.
Context (lo : nid) (dq : dom) (x : nid) (dq' : dom).
Context (Hwfq : wf dq) (Hstep : callout_step dq x dq') (Hx : (x < lo)%nat).
Implicit Types (y t e : nid).

Lemma step_keeps_created y (es : list nid) :
  kidsOf dq y = Elem <$> es → (y < next dq)%nat →
  Forall (λ e, (lo ≤ e)%nat ∧ tagOf dq e ≠ "a") es →
  kidsOf dq' y = Elem <$> es.
Proof.
  intros Hk Hy Hes. rewrite Forall_forall in Hes. rewrite <- Hk.
  apply (cs_kids dq x dq' Hstep); [done | |].
  - rewrite Hk. intros (e & [= <-] & He)%list_elem_of_fmap.
    destruct (Hes x He). lia.
  - intros a Ha. rewrite Hk. intros (e & [= <-] & He)%list_elem_of_fmap.
    destruct (step_link dq x Hwfq a Ha) as [Htag _]. by destruct (Hes a He).
Qed.

Lemma step_keeps_markup y s : kidsOf dq y = [Markup s] → kidsOf dq' y = [Markup s].
Proof.
  intros Hk. rewrite <- Hk. apply (cs_kids dq x dq' Hstep).
  - apply wf_kids_lt; [done |]. by rewrite Hk.
  - rewrite Hk. by intros [[=] | ?%elem_of_nil]%elem_of_cons.
  - intros a _. rewrite Hk. by intros [[=] | ?%elem_of_nil]%elem_of_cons.
Qed.

Lemma step_keeps_tag y : (y < next dq)%nat → tagOf dq' y = tagOf dq y.
Proof. intros Hy. by destruct (cs_label dq x dq' Hstep y Hy) as (-> & _). Qed.

Lemma is_callout_block_step t (name : string) container (tags : list string)
    (link : option nid) :
  "a" ∉ tags →
  is_callout_block lo dq t name container tags link →
  is_callout_block lo dq' t name container tags link.
Proof.
  intros Htags (Ht & tr1 & th & tr2 & td & hs & rest & Hlo & Hkt & Htr1 & Hk1 &
                Hth & Hkth & Htr2 & Hk2 & Htd & Hktd & Hc & Hkc & Hhs & Hrest & Hlen).
  assert (∀ y p, Elem y ∈ kidsOf dq p → (y < next dq)%nat ∧ (p < next dq)%nat)
    as Hin by (intros y p; by apply wf_kid_lt).
  assert (∀ tr, tr ∈ tr1 :: tr2 :: rest → (tr < next dq)%nat ∧ tagOf dq tr = "tr")
    as Hrows.
  { intros tr Htr. split.
    - apply (Hin tr t). rewrite Hkt. by apply list_elem_of_fmap_2.
    - apply elem_of_cons in Htr as [-> | Htr]; [done |].
      apply elem_of_cons in Htr as [-> | Htr]; [done |].
      by apply (proj1 (Forall_forall _ _) Hrest). }
  assert (t < next dq)%nat as Htlt.
  { apply wf_kids_lt; [done |]. by rewrite Hkt. }
  destruct (Hin th tr1) as [Hthlt Htr1lt]; [rewrite Hk1; apply elem_of_cons; by left |].
  destruct (Hin td tr2) as [Htdlt Htr2lt]; [rewrite Hk2; apply elem_of_cons; by left |].
  destruct (Hin container td) as [Hclt _]; [rewrite Hktd; apply elem_of_cons; by left |].
  assert (∀ h, h ∈ hs → (h < next dq)%nat ∧ tagOf dq h ≠ "a") as Hhs'.
  { intros h Hh. split.
    - apply (Hin h container). rewrite Hkc. by apply list_elem_of_fmap_2.
    - intros Heq. apply Htags. rewrite <- Hhs, <- Heq. by apply list_elem_of_fmap_2. }
  pose proof Hlo as Hlo0.
  rewrite Forall_app, Forall_app in Hlo. destruct Hlo as (Hlo6 & Hlohs & Hlorest).
  rewrite !Forall_cons in Hlo6.
  destruct Hlo6 as (Hlot & Hlo1 & Hloth & Hlo2 & Hlotd & Hloc & _).
  rewrite Forall_forall in Hlohs, Hlorest.
  split; [by rewrite step_keeps_tag |].
  exists tr1, th, tr2, td, hs, rest. split_and!.
  - exact Hlo0.
  - apply step_keeps_created; [done | done |]. apply Forall_forall.
    intros tr Htr. destruct (Hrows tr Htr) as [_ ->]. split; [| done].
    apply elem_of_cons in Htr as [-> | Htr]; [done |].
    apply elem_of_cons in Htr as [-> | Htr]; [done |]. by apply Hlorest.
  - by rewrite step_keeps_tag.
  - apply (step_keeps_created tr1 [th]); [done | done |].
    repeat constructor; [done |]. by rewrite Hth.
  - by rewrite step_keeps_tag.
  - by apply step_keeps_markup.
  - by rewrite step_keeps_tag.
  - apply (step_keeps_created tr2 [td]); [done | done |].
    repeat constructor; [done |]. by rewrite Htd.
  - by rewrite step_keeps_tag.
  - apply (step_keeps_created td [container]); [done | done |].
    repeat constructor; [done |]. by rewrite Hc.
  - by rewrite step_keeps_tag.
  - apply step_keeps_created; [done | done |]. apply Forall_forall.
    intros h Hh. destruct (Hhs' h Hh). split; [by apply Hlohs | done].
  - rewrite <- Hhs. apply list_fmap_ext. intros i h Hh.
    apply step_keeps_tag. by apply Hhs', (list_elem_of_lookup_2 _ i).
  - apply Forall_forall. intros tr Htr.
    destruct (Hrows tr) as [Hlt Htag].
    { apply elem_of_cons. right. apply elem_of_cons. by right. }
    by rewrite step_keeps_tag.
  - done.
Qed.

End Keeps.

(** *** The block a run builds *)

Lemma containerTags_not_link d c : "a" ∉ containerTags d c.
Proof.
  unfold containerTags.
  destruct (querySelector d c (ByClass "blogPostContent__ctaText")),
    (querySelector d c (ByClass "blogPostContent__ctaSubheading")); simpl;
    intros Hin; repeat (apply elem_of_cons in Hin as [Hin | Hin]; [done |]);
    by apply elem_of_nil in Hin.
Qed.

Lemma are_rows_tags d index (trs : list nid) (data : list (list cell)) :
  are_rows d index trs data →
  length trs = length data ∧ Forall (λ tr, tagOf d tr = "tr") trs.
Proof.
  revert index data. induction trs as [|tr trs IH]; intros index [|row data];
    simpl; try tauto.
  - by split.
  - intros [[Ht _] Hrows]. destruct (IH _ _ Hrows) as [Hlen Hall].
    split; [by rewrite Hlen | by constructor].
Qed.

Lemma callout_block_of_table lo d' t (name : string) container (hs : list nid)
    (tags : list string) (link : option nid) :
  is_table d' t
    ([[CString name]; [CNode container]] ++
     match link with Some a => [[CNode a]] | None => [] end) →
  table_from lo d' t → (lo ≤ container)%nat → (∀ h, h ∈ hs → (lo ≤ h)%nat) →
  tagOf d' container = "div" → kidsOf d' container = Elem <$> hs →
  tagOf d' <$> hs = tags →
  is_callout_block lo d' t name container tags link.
Proof.
  intros (Ht & trs & Hk & Hrows) [Htlo Hfrom] Hclo Hhslo Hc Hkc Hhs.
  destruct trs as [|tr1 [|tr2 rest]]; simpl in Hrows; try tauto.
  destruct Hrows as ((Htr1 & cs1 & Hk1 & Hc1) & (Htr2 & cs2 & Hk2 & Hc2) & Hrest).
  apply Forall2_cons_inv_r in Hc1 as (th & cs1' & [Hth Hkth] & Hnil & ->).
  apply Forall2_nil_inv_r in Hnil as ->.
  apply Forall2_cons_inv_r in Hc2 as (td & cs2' & [Htd Hktd] & Hnil & ->).
  apply Forall2_nil_inv_r in Hnil as ->.
  destruct (are_rows_tags _ _ _ _ Hrest) as [Hlen Htags].
  assert (∀ tr, tr ∈ tr1 :: tr2 :: rest →
            (lo ≤ tr)%nat ∧ ∀ c, Elem c ∈ kidsOf d' tr → (lo ≤ c)%nat) as Hlo.
  { intros tr Htr. apply Hfrom. rewrite Hk. by apply list_elem_of_fmap_2. }
  destruct (Hlo tr1) as [Hlo1 Hcs1]; [apply elem_of_cons; by left |].
  destruct (Hlo tr2) as [Hlo2 Hcs2].
  { apply elem_of_cons. right. apply elem_of_cons. by left. }
  assert (lo ≤ th)%nat as Hloth.
  { apply Hcs1. rewrite Hk1. apply elem_of_cons. by left. }
  assert (lo ≤ td)%nat as Hlotd.
  { apply Hcs2. rewrite Hk2. apply elem_of_cons. by left. }
  split; [done |]. exists tr1, th, tr2, td, hs, rest. split_and!; try done.
  - apply Forall_app. split; [| apply Forall_app; split].
    + repeat (apply Forall_cons; split; [lia |]). apply Forall_nil_2.
    + by apply Forall_forall.
    + apply Forall_forall. intros tr Htr. apply Hlo. apply elem_of_cons. right.
      apply elem_of_cons. by right.
  - rewrite Hlen. by destruct link.
Qed.

Section Page.
Context `{Host} (d : dom) (Hwf : wf d) (main : nid).
Implicit Types (dq dk : dom) (c x y t : nid) (todo done : list nid).

Lemma callouts_old c : c ∈ callouts d main → (c < next d)%nat.
Proof.
  intros Hc. pose proof (querySelectorAll_anc d main _ c Hwf Hc) as Hanc.
  by destruct (anc_lt d main c Hwf Hanc).
Qed.

(** The first of the callouts still to be processed is not one of the
    others, and none of them lies around it. *)
Lemma callouts_split done x todo :
  callouts d main = done ++ x :: todo →
  x ∈ callouts d main ∧ (x ∉ done) ∧ (x ∉ todo) ∧
  (∀ c, c ∈ todo → c ∈ callouts d main ∧ ¬ anc d c x).
Proof.
  intros HL.
  pose proof (querySelectorAll_nodup d main
                (ByClass "blogPostContent__ctaContainer") Hwf) as Hnd.
  pose proof (querySelectorAll_sorted d main
                (ByClass "blogPostContent__ctaContainer") Hwf) as Hsort.
  fold (callouts d main) in Hnd, Hsort. rewrite HL in Hnd, Hsort.
  apply NoDup_app in Hnd as (_ & Hdisj & [Hx _]%NoDup_cons).
  apply StronglySorted_app_1_r in Hsort.
  apply StronglySorted_cons in Hsort as [Hafter _].
  rewrite Forall_forall in Hafter.
  split_and!.
  - rewrite HL. apply elem_of_app. right. apply elem_of_cons. by left.
  - intros Hin. apply (Hdisj x Hin). apply elem_of_cons. by left.
  - done.
  - intros c Hc. split; [| by apply Hafter].
    rewrite HL. apply elem_of_app. right. apply elem_of_cons. by right.
Qed.

Lemma callouts_state_init : callouts_state d main (callouts d main) d.
Proof.
  by split_and!.
Qed.

(** The state of the loop after one more run. *)
Lemma callouts_state_step done x todo dq dq' :
  callouts d main = done ++ x :: todo →
  callouts_state d main (x :: todo) dq →
  callout_step dq x dq' →
  callouts_state d main todo dq'.
Proof.
  intros HL ((Hwfq & Hnq & Hlabq) & Hshrink & Hpar & Hsub) Hstep.
  destruct (callouts_split done x todo HL) as (HxL & Hxdone & Hxtodo & Hafter).
  pose proof (callouts_old x HxL) as Hxlt.
  split_and!.
  - split_and!.
    + apply Hstep.
    + pose proof (cs_next dq x dq' Hstep). lia.
    + intros y Hy. eapply same_label_trans; [by apply Hlabq |].
      apply (cs_label dq x dq' Hstep). lia.
  - intros a b Ha Hb Hanc. apply Hshrink; [done | done |].
    apply (step_anc dq x dq' Hwfq Hstep a b); [lia | done | lia].
  - intros y Hy Htag Hin.
    rewrite (cs_parent dq x dq' Hstep); [| lia | |].
    + apply Hpar; [done | done |]. intros HyL. apply elem_of_cons. right. auto.
    + intros ->. by apply Hxtodo, Hin.
    + intros Hl. destruct (step_link dq x Hwfq y Hl) as [Hta _].
      apply Htag. by destruct (Hlabq y Hy) as (<- & _).
  - intros c Hc Hout y Hy.
    destruct (Hafter c Hc) as [HcL Hnxc].
    pose proof (callouts_old c HcL) as Hclt.
    assert (kidsOf dq y = kidsOf d y) as Hky.
    { apply (Hsub c); [apply elem_of_cons; by right | done | done]. }
    assert (y < next d)%nat as Hylt.
    { destruct Hy as [-> | Hy]; [done |]. by apply (anc_lt d c y). }
    rewrite <- Hky. apply (cs_kids dq x dq' Hstep); [lia | |].
    + rewrite Hky. intros Hin%(wf_kid_parent d Hwf). apply Hnxc.
      destruct Hy as [-> | Hy]; [by apply anc_parent |].
      eapply anc_trans; [done |]. by apply anc_parent.
    + intros a Ha Hin. destruct (step_link dq x Hwfq a Ha) as [_ Hxa].
      apply (wf_kid_parent dq Hwfq) in Hin.
      apply anc_inv in Hxa as (q & Hq & Hor).
      assert (q = y) as -> by congruence.
      destruct Hor as [-> | Hxy].
      * destruct Hy as [-> | Hy]; [done | by apply Hnxc].
      * apply Hshrink in Hxy; [| done | done].
        destruct Hy as [-> | Hy]; [by apply (Hout x) |].
        destruct (anc_linear d x c y Hxy Hy) as [-> | [Hxc | Hcx]].
        -- done.
        -- by apply (Hout x).
        -- by apply Hnxc.
Qed.

(** What the run on the first of the callouts still to be processed
    finds. *)
Lemma callouts_state_at_run x todo dq :
  x ∈ callouts d main →
  callouts_state d main (x :: todo) dq → at_run d main x dq.
Proof.
  intros HxL ((Hwfq & Hnq & Hlabq) & Hshrink & Hpar & Hsub).
  pose proof (callouts_old x HxL) as Hxlt.
  split_and!; [done | |].
  - intros Htag. apply Hpar; [done | done |]. intros _. apply elem_of_cons. by left.
  - intros Hout sel. apply querySelector_below; [done | done | |].
    + intros y Hy. apply (Hsub x); [apply elem_of_cons; by left | done | done].
    + intros y Hy. apply Hlabq. by apply (anc_lt d x y).
Qed.

(** A run builds its block and takes one step. *)
Lemma callout_run x dk :
  callouts_inv d dk → (x < next d)%nat →
  ∃ dk' t, calloutToBlock x dk = Ok (tt, dk') ∧
           callout_step dk x dk' ∧ block_from d x dk dk' t.
Proof.
  intros (Hwfk & Hnk & Hlabk) Hx.
  assert (x < next dk)%nat as Hxk by lia.
  pose proof (calloutToBlock_full dk Hwfk x Hxk) as Hwp.
  apply wp_ok in Hwp
    as ([] & dk' & Hrun & Hwf' & Hn' & Hlab' & t & hs & Htab & Htag & Hk & Htags &
        Ht & _ & _ & _ & Hstep & Hfrom & Hhs & Hpt).
  exists dk', t. split_and!; [done | done |].
  split_and!; [apply Hstep | done |].
  apply (callout_block_of_table (next d) dk' t _ (next dk) hs); try done.
  - destruct Hfrom as [Hr Hrows]. split; [lia |]. intros tr Htr.
    destruct (Hrows tr Htr) as [Hlo Hcs]. split; [lia |].
    intros c Hc. specialize (Hcs c Hc). lia.
  - intros h Hh. specialize (Hhs h Hh). lia.
Qed.

(** A later run on another callout leaves the block as it is. *)
Lemma block_from_step c dk t x dq dq' :
  wf dq → (next d ≤ next dq)%nat → (c < next d)%nat → (x < next d)%nat → x ≠ c →
  callout_step dq x dq' →
  block_from d c dk dq t → block_from d c dk dq' t.
Proof.
  intros Hwfq Hnq Hc Hx Hne Hstep (Hpc & Hpt & Hblock).
  pose proof Hblock as (Htag & tr1 & th & tr2 & td & hs & rest & Hlo & Hkt & _).
  apply Forall_cons in Hlo as [Hlot _].
  assert (t < next dq)%nat as Htlt.
  { apply wf_kids_lt; [done |]. by rewrite Hkt. }
  split_and!.
  - rewrite (cs_parent dq x dq' Hstep); [done | lia | done |].
    intros Hl. destruct (step_link dq x Hwfq c Hl) as [_ Hanc].
    apply anc_inv in Hanc as (q & Hq & _). congruence.
  - rewrite (cs_parent dq x dq' Hstep); [done | done | lia |].
    intros Hl. destruct (step_link dq x Hwfq t Hl) as [Hta _]. congruence.
  - apply (is_callout_block_step (next d) dq x dq'); try done.
    apply containerTags_not_link.
Qed.

(** The loop: it returns, every run starts as [at_run] says, and the block
    of every callout stands in the page returned. *)
Lemma callouts_loop todo : ∀ done dq,
  callouts d main = done ++ todo →
  callouts_state d main todo dq →
  ∃ d', forEach calloutToBlock todo dq = Ok (tt, d') ∧
        callouts_inv d d' ∧
        (∀ c dk t, c ∈ done → block_from d c dk dq t → block_from d c dk d' t) ∧
        (∀ c dk, (c, dk) ∈ forEach_trace calloutToBlock todo dq →
                 c ∈ todo ∧ at_run d main c dk ∧ ∃ t, block_from d c dk d' t).
Proof.
  induction todo as [|x todo IH]; intros done dq HL Hst.
  { exists dq. split_and!; [done | apply Hst | done |].
    by intros c dk ?%elem_of_nil. }
  destruct (callouts_split done x todo HL) as (HxL & Hxdone & Hxtodo & Hafter).
  pose proof (callouts_old x HxL) as Hxlt.
  pose proof Hst as (Hinv & _).
  destruct (callout_run x dq Hinv Hxlt) as (dq1 & t & Hrun & Hstep & Hblock).
  pose proof (callouts_state_step done x todo dq dq1 HL Hst Hstep) as Hst1.
  destruct (IH (done ++ [x]) dq1) as (d' & Hrun' & Hinv' & Hkeep & Htrace);
    [by rewrite <- app_assoc | done |].
  destruct Hinv as (Hwfq & Hnq & _).
  exists d'. split_and!.
  - simpl. unfold mbind, M_bind. by rewrite Hrun.
  - done.
  - intros c dk t0 Hc Hb. apply Hkeep; [apply elem_of_app; by left |].
    apply (block_from_step c dk t0 x dq dq1); try done.
    + apply callouts_old. rewrite HL. apply elem_of_app. by left.
    + by intros ->.
  - intros c dk. simpl. rewrite Hrun.
    intros [[= -> ->] | Hin]%elem_of_cons.
    + split_and!; [apply elem_of_cons; by left | |].
      * by apply (callouts_state_at_run x todo).
      * exists t. apply Hkeep; [| done].
        apply elem_of_app. right. by apply list_elem_of_singleton.
    + destruct (Htrace c dk Hin) as (Hc & Hat & Hb).
      split_and!; [apply elem_of_cons; by right | done | done].
Qed.

(** The page [createCallouts] returns. *)
Lemma createCallouts_page :
  ∃ d', createCallouts main d = Ok (tt, d') ∧ callouts_inv d d' ∧
        ∀ c, c ∈ callouts d main →
          ∃ dk t, (c, dk) ∈ calloutRuns d main ∧
                  at_run d main c dk ∧ block_from d c dk d' t.
Proof.
  destruct (callouts_loop (callouts d main) [] d eq_refl callouts_state_init)
    as (d' & Hrun & Hinv & _ & Htrace).
  exists d'. split_and!; [done | done |].
  intros c Hc.
  destruct (createCallouts_runs d main Hwf) as (_ & Hfst & _).
  fold (callouts d main) in Hfst. rewrite <- Hfst in Hc.
  apply list_elem_of_fmap in Hc as ([c' dk] & -> & Hin). simpl.
  destruct (Htrace c' dk Hin) as (_ & Hat & t & Hb). by exists dk, t.
Qed.

End Page.

(** C7. On a well-formed store [createCallouts] returns, and for every
    element matching the callout selector the page returned holds a block:
    a table of nodes created by the call, whose first row is a [tr] holding
    one cell, a [th], that holds the name of the block and nothing else.
    The name is [Callout (right)] when the callout carries the right
    modifier class, else [Callout (left)] when it carries the left one,
    else [Callout].  The callout is out of the tree and, unless the callout
    is a link, the table hangs where the callout hung. *)
Theorem callout_block_name `{Host} (d : dom) (main : nid) :
  wf d →
  ∃ d',
    createCallouts main d = Ok (tt, d') ∧
    ∀ callout, callout ∈ callouts d main →
      ∃ t tr th rest,
        (next d ≤ t)%nat ∧ (next d ≤ tr)%nat ∧ (next d ≤ th)%nat ∧
        parentOf d' callout = None ∧
        (tagOf d callout ≠ "a" → parentOf d' t = parentOf d callout) ∧
        tagOf d' t = "table" ∧ kidsOf d' t = Elem tr :: rest ∧
        tagOf d' tr = "tr" ∧ kidsOf d' tr = [Elem th] ∧
        tagOf d' th = "th" ∧
        kidsOf d' th =
          [Markup
             (if classList_contains d callout "blogPostContent__ctaContainer--right"
              then "Callout (right)"
              else if classList_contains d callout
                        "blogPostContent__ctaContainer--left"
              then "Callout (left)"
              else "Callout")].
Proof.
  intros Hwf. destruct (createCallouts_page d Hwf main) as (d' & Hrun & _ & Hall).
  exists d'. split; [done |]. intros callout Hc.
  destruct (Hall callout Hc)
    as (dk & t & _ & ((_ & _ & Hlab) & Hpar & _) & Hpc & Hpt & Hblock).
  destruct Hblock as (Ht & tr1 & th & tr2 & td & hs & rest & Hlo & Hkt & Htr1 &
                      Hk1 & Hth & Hkth & _).
  apply Forall_app in Hlo as [Hlo _]. rewrite !Forall_cons in Hlo.
  destruct Hlo as (Hlot & Hlo1 & Hloth & _).
  exists t, tr1, th, (Elem <$> (tr2 :: rest)).
  split_and!; try done.
  - intros Htag. rewrite Hpt. by apply Hpar.
  - rewrite Hkth. f_equal. f_equal.
    rewrite (blockName_same_label d dk callout).
    + unfold blockName. by repeat case_match.
    + apply Hlab. by apply (callouts_old d Hwf main).
Qed.

(** A callout with the right modifier, a heading, a subheading and a
    link. *)
Definition page_with_callout : dom :=
  store_of
    [Node "div" ["blogPostMain"] ∅ "" [Elem 1] None;
     Node "div" ["blogPostContent__ctaContainer";
                 "blogPostContent__ctaContainer--right"] ∅ ""
       [Elem 2; Elem 3; Elem 4] (Some 0%nat);
     Node "span" ["blogPostContent__ctaText"] ∅ "" [Markup "Try it"] (Some 1%nat);
     Node "div" ["blogPostContent__ctaSubheading"] ∅ "" [Markup "<b>now</b>"]
       (Some 1%nat);
     Node "a" [] {[ "href" := "/go" ]} "" [Markup "Go"] (Some 1%nat)].

Lemma callout_block_name_witness :
  ∃ d',
    createCallouts (H := bare_host) 0 page_with_callout = Ok (tt, d') ∧
    ∀ callout, callout ∈ callouts page_with_callout 0 →
      ∃ t tr th rest,
        (next page_with_callout ≤ t)%nat ∧ (next page_with_callout ≤ tr)%nat ∧
        (next page_with_callout ≤ th)%nat ∧
        parentOf d' callout = None ∧
        (tagOf page_with_callout callout ≠ "a" →
         parentOf d' t = parentOf page_with_callout callout) ∧
        tagOf d' t = "table" ∧ kidsOf d' t = Elem tr :: rest ∧
        tagOf d' tr = "tr" ∧ kidsOf d' tr = [Elem th] ∧
        tagOf d' th = "th" ∧
        kidsOf d' th =
          [Markup
             (if classList_contains page_with_callout callout
                   "blogPostContent__ctaContainer--right"
              then "Callout (right)"
              else if classList_contains page_with_callout callout
                        "blogPostContent__ctaContainer--left"
              then "Callout (left)"
              else "Callout")].
Proof.
  apply (callout_block_name (H := bare_host)).
  apply wf_check_sound. vm_compute. reflexivity.
Defined.

(** The names, on explicit callouts. *)
Example blockName_right : blockName page_with_callout 1 = "Callout (right)".
Proof. by vm_compute. Qed.

Definition plain_callout : dom :=
  store_of
    [Node "div" ["blogPostMain"] ∅ "" [Elem 1] None;
     Node "div" ["blogPostContent__ctaContainer"] ∅ "" [] (Some 0%nat)].

Example blockName_plain : blockName plain_callout 1 = "Callout".
Proof. by vm_compute. Qed.

Definition left_callout : dom :=
  store_of
    [Node "div" ["blogPostMain"] ∅ "" [Elem 1] None;
     Node "div" ["blogPostContent__ctaContainer";
                 "blogPostContent__ctaContainer--left"] ∅ "" [] (Some 0%nat)].

Example blockName_left : blockName left_callout 1 = "Callout (left)".
Proof. by vm_compute. Qed.

(** Two callouts, the second one below the first and holding the only
    link. *)
Definition nested_callouts : dom :=
  store_of
    [Node "div" ["blogPostMain"] ∅ "" [Elem 1] None;
     Node "div" ["blogPostContent__ctaContainer"] ∅ "" [Elem 2] (Some 0%nat);
     Node "div" ["blogPostContent__ctaContainer"] ∅ "" [Elem 3] (Some 1%nat);
     Node "a" [] {[ "href" := "/go" ]} "" [Markup "Go"] (Some 2%nat)].

(** C10 as stated fails for a callout inside another one: the run on the
    first callout takes the link, so the run on the second finds none, and
    the block that stands for the second callout has two rows although a
    link exists within that callout in the page. *)
Lemma createCallouts_nested_link :
  wp (createCallouts (H := bare_host) 0) nested_callouts (λ _ d',
    callouts nested_callouts 0 = [1; 2]%nat ∧
    ctaLink nested_callouts 2 = Some 3%nat ∧
    parentOf nested_callouts 2 = Some 1%nat ∧ kidsOf d' 1 = [Elem 13] ∧
    tagOf d' 13 = "table" ∧ kidsOf d' 13 = [Elem 14; Elem 16] ∧
    kidsOf d' 15 = [Markup "Callout"] ∧ kidsOf d' 17 = [Elem 12] ∧
    tagOf d' 12 = "div").
Proof. vm_compute. by repeat split. Qed.

(** C10, amended.  On a well-formed store [createCallouts] returns, and for
    every element matching the callout selector the page returned holds a
    block, a table of nodes created by the call: its first row holds the
    name; its second row holds one cell, which holds the container, a [div],
    and nothing else; the container holds an [h3] when the run on the
    callout finds a heading text and a [p] when it finds a subheading, and
    nothing else, so it is empty when it finds neither, the row being there
    all the same; and a third row follows exactly when the run finds a link
    below the callout, the table having three rows then and two otherwise.
    For a callout that lies within no other callout the run finds what the
    page given has: the third row is there exactly when a link exists within
    the callout. *)
Theorem callout_block_rows `{Host} (d : dom) (main : nid) :
  wf d →
  ∃ d',
    createCallouts main d = Ok (tt, d') ∧
    ∀ callout, callout ∈ callouts d main →
      ∃ dk t,
        (callout, dk) ∈ calloutRuns d main ∧
        parentOf d' callout = None ∧
        (tagOf d callout ≠ "a" → parentOf d' t = parentOf d callout) ∧
        is_callout_block (next d) d' t (blockName d callout) (next dk)
          (containerTags dk callout) (ctaLink dk callout) ∧
        (containerTags dk callout = [] → kidsOf d' (next dk) = []) ∧
        length (kidsOf d' t) =
          match ctaLink dk callout with Some _ => 3%nat | None => 2%nat end ∧
        (outermost d main callout →
         ctaLink dk callout = ctaLink d callout ∧
         containerTags dk callout = containerTags d callout).
Proof.
  intros Hwf. destruct (createCallouts_page d Hwf main) as (d' & Hrun & _ & Hall).
  exists d'. split; [done |]. intros callout Hc.
  destruct (Hall callout Hc)
    as (dk & t & Hin & ((_ & _ & Hlab) & Hpar & Hout) & Hpc & Hpt & Hblock).
  exists dk, t.
  rewrite (blockName_same_label d dk callout) in Hblock
    by (apply Hlab; by apply (callouts_old d Hwf main)).
  pose proof Hblock as (Ht & tr1 & th & tr2 & td & hs & rest & _ & Hkt & _ & _ &
                        _ & _ & _ & _ & _ & _ & _ & Hkc & Hhs & _ & Hlen).
  split_and!; try done.
  - intros Htag. rewrite Hpt. by apply Hpar.
  - intros Hnil. rewrite Hnil in Hhs. rewrite Hkc. by destruct hs.
  - rewrite Hkt, length_fmap. simpl. rewrite Hlen.
    by destruct (ctaLink dk callout).
  - intros Houter. specialize (Hout Houter).
    unfold ctaLink, containerTags. by rewrite !Hout.
Qed.

Lemma callout_block_rows_witness :
  ∃ d',
    createCallouts (H := bare_host) 0 nested_callouts = Ok (tt, d') ∧
    ∀ callout, callout ∈ callouts nested_callouts 0 →
      ∃ dk t,
        (callout, dk) ∈ calloutRuns (H := bare_host) nested_callouts 0 ∧
        parentOf d' callout = None ∧
        (tagOf nested_callouts callout ≠ "a" →
         parentOf d' t = parentOf nested_callouts callout) ∧
        is_callout_block (next nested_callouts) d' t
          (blockName nested_callouts callout) (next dk)
          (containerTags dk callout) (ctaLink dk callout) ∧
        (containerTags dk callout = [] → kidsOf d' (next dk) = []) ∧
        length (kidsOf d' t) =
          match ctaLink dk callout with Some _ => 3%nat | None => 2%nat end ∧
        (outermost nested_callouts 0 callout →
         ctaLink dk callout = ctaLink nested_callouts callout ∧
         containerTags dk callout = containerTags nested_callouts callout).
Proof.
  apply (callout_block_rows (H := bare_host)).
  apply wf_check_sound. vm_compute. reflexivity.
Defined.

(** The full callout, node by node: three rows, the container holding the
    heading and the subheading, the third row holding the link. *)
Example createCallouts_full :
  wp (createCallouts (H := bare_host) 0) page_with_callout (λ _ d',
    kidsOf d' 0 = [Elem 8] ∧ parentOf d' 1 = None ∧
    tagOf d' 8 = "table" ∧ kidsOf d' 8 = [Elem 9; Elem 11; Elem 13] ∧
    kidsOf d' 9 = [Elem 10] ∧ tagOf d' 10 = "th" ∧
    kidsOf d' 10 = [Markup "Callout (right)"] ∧
    kidsOf d' 11 = [Elem 12] ∧ tagOf d' 12 = "td" ∧ kidsOf d' 12 = [Elem 5] ∧
    tagOf d' 5 = "div" ∧ kidsOf d' 5 = [Elem 6; Elem 7] ∧
    tagOf d' 6 = "h3" ∧ kidsOf d' 6 = [Markup "Try it"] ∧
    tagOf d' 7 = "p" ∧ kidsOf d' 7 = [Markup "<b>now</b>"] ∧
    kidsOf d' 13 = [Elem 14] ∧ tagOf d' 14 = "td" ∧ kidsOf d' 14 = [Elem 4]).
Proof. vm_compute. by repeat split. Qed.

(** The empty callout: two rows, the second one holding an empty
    container. *)
Example createCallouts_empty :
  wp (createCallouts (H := bare_host) 0) plain_callout (λ _ d',
    kidsOf d' 0 = [Elem 3] ∧
    tagOf d' 3 = "table" ∧ kidsOf d' 3 = [Elem 4; Elem 6] ∧
    kidsOf d' 5 = [Markup "Callout"] ∧
    kidsOf d' 6 = [Elem 7] ∧ tagOf d' 7 = "td" ∧ kidsOf d' 7 = [Elem 2] ∧
    tagOf d' 2 = "div" ∧ kidsOf d' 2 = []).
Proof. vm_compute. by repeat split. Qed.

(** The runs on the nested callouts: the first finds the link, the second
    finds none. *)
Example createCallouts_nested :
  ctaLink nested_callouts 2 = Some 3%nat ∧
  (λ run, (run.1, ctaLink run.2 run.1))
    <$> calloutRuns (H := bare_host) nested_callouts 0
  = [(1%nat, Some 3%nat); (2%nat, None)].
Proof. by vm_compute. Qed.

(** ** The metadata map *)

Section Objects.
  Implicit Types (o : object) (k : string) (v : value).

Lemma obj_get_set o k v k' :
  obj_get (obj_set o k v) k' = if decide (k = k') then Some v else obj_get o k'.
Proof.
  induction o as [|[k0 v0] o IH]; simpl.
  - done.
  - destruct (decide (k0 = k)) as [-> | Hne]; simpl.
    + by destruct (decide (k = k')).
    + rewrite IH. destruct (decide (k0 = k')) as [-> | ?]; [| done].
      by rewrite decide_False.
Qed.

Lemma obj_get_set_eq o k v : obj_get (obj_set o k v) k = Some v.
Proof. by rewrite obj_get_set, decide_True. Qed.

Lemma obj_get_set_ne o k v k' :
  k ≠ k' → obj_get (obj_set o k v) k' = obj_get o k'.
Proof. intros. by rewrite obj_get_set, decide_False. Qed.

End Objects.

Section Day.

Lemma indexOf_from_absent c s i :
  JsString.test_class (Ascii.eqb c) s = false → JsString.indexOf_from c s i = -1.
Proof.
  revert i. induction s as [|x s IH]; intros i; simpl; [done |].
  intros [Hx Hs]%orb_false_iff. rewrite Ascii.eqb_sym, Hx. by apply IH.
Qed.

Lemma substring2_to_minus_one s : JsString.substring2 s 0 (-1) = "".
Proof.
  unfold JsString.substring2, JsString.clamp, JsString.len.
  replace (Z.min _ _) with 0 by lia.
  replace (Z.max _ _ - 0) with 0 by lia.
  by destruct s.
Qed.

(** A time stamp without a [T] has the empty string as its day. *)
Lemma dayOf_without_T content :
  JsString.test_class (Ascii.eqb "T") content = false → dayOf content = "".
Proof.
  intros Habs. unfold dayOf, JsString.indexOf.
  rewrite (indexOf_from_absent _ _ _ Habs). apply substring2_to_minus_one.
Qed.

End Day.

Lemma set_opt_get (o : object) (k : string) (ov : option value) (k' : string) :
  obj_get (set_opt o k ov) k' =
  if decide (k = k') then from_option Some (obj_get o k') ov else obj_get o k'.
Proof.
  destruct ov as [v|]; simpl; [apply obj_get_set | by case_decide].
Qed.

Lemma set_opt_get_eq (o : object) (k : string) (ov : option value) :
  obj_get (set_opt o k ov) k = from_option Some (obj_get o k) ov.
Proof. by rewrite set_opt_get, decide_True. Qed.

Lemma set_opt_get_ne (o : object) (k : string) (ov : option value) (k' : string) :
  k ≠ k' → obj_get (set_opt o k ov) k' = obj_get o k'.
Proof. intros. by rewrite set_opt_get, decide_False. Qed.

Lemma set_opt_keys (o : object) (k : string) (ov : option value) (k' : string) :
  is_Some (obj_get (set_opt o k ov) k') → k' = k ∨ is_Some (obj_get o k').
Proof.
  rewrite set_opt_get. case_decide; [by left | by right].
Qed.

(** The run of [metadataFields]: it returns [metaOf] as soon as the element
    of the publication date, when there is one, has a [content] property.
    The store grows by the image element, when there is an image. *)
Lemma metadataFields_run `{Host} (d : dom) (main document : nid) :
  (∀ date,
     querySelector d document (ByAttr "property" "article:published_time") = Some date →
     is_Some (contentOf d date)) →
  ∃ d', metadataFields main document d = Ok (metaOf d main document (next d), d').
Proof.
  intros Hdate. unfold metadataFields, metaOf, readTime.
  change (getDom ≫= ?k) with (λ d, k d d). cbv beta.
  destruct (querySelector d document (ByAttr "property" "article:published_time"))
    as [date|] eqn:Hd;
    [destruct (Hdate date eq_refl) as [content Hc] |];
    destruct (querySelector d document (ByTag "title"));
    destruct (querySelector d document (ByAttr "property" "og:description"));
    destruct (querySelector d document (ByAttr "property" "article:section"));
    destruct (querySelector d main (ByAttr "rel" "author"));
    destruct (querySelector d main (ByClass "blogPostContent__metaTop"));
    destruct (querySelector d document (ByAttr "property" "og:image"));
    cbn [mbind option_bind]; rewrite ?Hc; try case_decide;
    eexists; reflexivity.
Qed.

(** The fields of the map, key by key: each one is set exactly when its
    element is found (and, for the read time, when the text has three
    lines), to the value read from that element, and no other key is set. *)
Lemma metaOf_spec `{Host} (d : dom) (main document el : nid) :
  let meta := metaOf d main document el in
  obj_get meta "Title" =
    (λ title, VString (JsString.remove_chars nl_or_tab (innerHTML d title)))
      <$> querySelector d document (ByTag "title") ∧
  obj_get meta "Description" =
    (λ desc, from_option VString VUndefined (contentOf d desc))
      <$> querySelector d document (ByAttr "property" "og:description") ∧
  obj_get meta "Category" =
    (λ category, from_option VString VUndefined (contentOf d category))
      <$> querySelector d document (ByAttr "property" "article:section") ∧
  obj_get meta "Publication Date" =
    (λ content, VString (dayOf content))
      <$> (querySelector d document (ByAttr "property" "article:published_time")
             ≫= contentOf d) ∧
  obj_get meta "Author" =
    VElement <$> querySelector d main (ByAttr "rel" "author") ∧
  obj_get meta "Read Time" = readTime d main ∧
  obj_get meta "Image" =
    (λ _, VElement el)
      <$> querySelector d document (ByAttr "property" "og:image") ∧
  ∀ k, is_Some (obj_get meta k) → k ∈ metadataKeys.
Proof.
  unfold metaOf. cbv zeta.
  split_and!;
    try (repeat (rewrite set_opt_get_ne by done); rewrite set_opt_get_eq;
         repeat (rewrite set_opt_get_ne by done); simpl;
         match goal with |- from_option _ _ ?ov = _ => by destruct ov end).
  intros k Hk. unfold metadataKeys.
  repeat (apply set_opt_keys in Hk as [-> | Hk];
          [rewrite !elem_of_cons; tauto |]).
  by destruct Hk.
Qed.

(** The map [metadataFields] returns, key by key. *)
Lemma metadataFields_spec `{Host} (d : dom) (main document : nid) :
  (∀ date,
     querySelector d document (ByAttr "property" "article:published_time") = Some date →
     is_Some (contentOf d date)) →
  wp (metadataFields main document) d (λ meta _,
    meta = metaOf d main document (next d) ∧
    ∀ k, is_Some (obj_get meta k) → k ∈ metadataKeys).
Proof.
  intros Hdate.
  destruct (metadataFields_run d main document Hdate) as [d' Hrun].
  unfold wp. rewrite Hrun. split; [done |].
  apply (metaOf_spec d main document (next d)).
Qed.

(** Whatever else the page holds, a time stamp without a [T] gives the
    empty string as the publication date. *)
Lemma metadataFields_date_without_T `{Host} (d : dom) (main document date : nid)
    (content : string) :
  querySelector d document (ByAttr "property" "article:published_time") = Some date →
  contentOf d date = Some content →
  JsString.test_class (Ascii.eqb "T") content = false →
  wp (metadataFields main document) d (λ meta _,
    obj_get meta "Publication Date" = Some (VString "")).
Proof.
  intros Hq Hc Habs.
  eapply wp_mono; [apply metadataFields_spec |].
  - intros date' Hq'. rewrite Hq in Hq'. injection Hq' as <-. by rewrite Hc.
  - intros meta _ [-> _].
    destruct (metaOf_spec d main document (next d)) as (_ & _ & _ & -> & _).
    rewrite Hq. simpl. rewrite Hc. simpl. by rewrite dayOf_without_T.
Qed.

(** A page whose publication time is a day without a time of day. *)
Definition page_dated : dom :=
  store_of
    [Node "#document" [] ∅ "" [Elem 1] None;
     Node "html" [] ∅ "" [Elem 2; Elem 4] (Some 0%nat);
     Node "head" [] ∅ "" [Elem 3] (Some 1%nat);
     Node "meta" []
       {[ "property" := "article:published_time"; "content" := "2021-03-04" ]}
       "" [] (Some 2%nat);
     Node "body" [] ∅ "" [Elem 5] (Some 1%nat);
     Node "main" [] ∅ "" [] (Some 4%nat)].

(** C2. On a page whose [article:published_time] is [2021-03-04], both
    variants of [createMetadata] return a map whose only key is
    [Publication Date], and its value is the empty string. *)
Theorem createMetadata_date_without_T :
  wp (createMetadata (H := bare_host) (H0 := bare_framework) 5 0) page_dated
    (λ meta _, meta = [("Publication Date", VString "")]) ∧
  wp (createMetadata2 (H := bare_host) (H0 := bare_framework) 5 0 "") page_dated
    (λ meta _, meta = [("Publication Date", VString "")]).
Proof. split; vm_compute; reflexivity. Qed.

(** The same page with a full time stamp. *)
Definition page_stamped : dom :=
  store_of
    [Node "#document" [] ∅ "" [Elem 1] None;
     Node "html" [] ∅ "" [Elem 2; Elem 4] (Some 0%nat);
     Node "head" [] ∅ "" [Elem 3] (Some 1%nat);
     Node "meta" []
       {[ "property" := "article:published_time";
          "content" := "2021-03-04T10:00:00Z" ]}
       "" [] (Some 2%nat);
     Node "body" [] ∅ "" [Elem 5] (Some 1%nat);
     Node "main" [] ∅ "" [] (Some 4%nat)].

Example createMetadata_date_with_T :
  wp (createMetadata (H := bare_host) (H0 := bare_framework) 5 0) page_stamped
    (λ meta _, meta = [("Publication Date", VString "2021-03-04")]).
Proof. vm_compute. reflexivity. Qed.

(** A page with a description and no title: the map has [Description] and
    no [Title]. *)
Definition page_described : dom :=
  store_of
    [Node "#document" [] ∅ "" [Elem 1] None;
     Node "html" [] ∅ "" [Elem 2; Elem 4] (Some 0%nat);
     Node "head" [] ∅ "" [Elem 3] (Some 1%nat);
     Node "meta" []
       {[ "property" := "og:description"; "content" := "About pets" ]}
       "" [] (Some 2%nat);
     Node "body" [] ∅ "" [Elem 5] (Some 1%nat);
     Node "main" [] ∅ "" [] (Some 4%nat)].

Example createMetadata_description_only :
  wp (createMetadata (H := bare_host) (H0 := bare_framework) 5 0) page_described
    (λ meta _,
       obj_get meta "Description" = Some (VString "About pets") ∧
       obj_has meta "Title" = false).
Proof. vm_compute. by split. Qed.

(** A page whose meta-top text has two lines: the element is there, and
    the map has no read time. *)
Definition page_two_lines : dom :=
  store_of
    [Node "#document" [] ∅ "" [Elem 1] None;
     Node "html" [] ∅ "" [Elem 2] (Some 0%nat);
     Node "body" [] ∅ "" [Elem 3] (Some 1%nat);
     Node "main" [] ∅ "" [Elem 4] (Some 2%nat);
     Node "div" ["blogPostContent__metaTop"] ∅ ""
       [Markup ("By Ann" +:+ String "010" "May 4")] (Some 3%nat)].

Example createMetadata_two_lines :
  wp (createMetadata (H := bare_host) (H0 := bare_framework) 3 0) page_two_lines
    (λ meta _, meta = []).
Proof. vm_compute. reflexivity. Qed.

(** * Further properties *)

(** ** Splitting and joining *)
Section SplitJoin.
Implicit Types (s w glue : string) (c sep : ascii) (l : list string).

Lemma split_nonempty sep s : JsString.split sep s ≠ [].
Proof.
  destruct s as [|c s]; simpl; [done |].
  destruct (Ascii.eqb c sep); [done |]. by destruct (JsString.split sep s).
Qed.

Lemma join_cons glue w l :
  l ≠ [] → JsArray.join glue (w :: l) = w +:+ glue +:+ JsArray.join glue l.
Proof. by destruct l. Qed.

Lemma join_head glue c w l :
  JsArray.join glue (String c w :: l) = String c (JsArray.join glue (w :: l)).
Proof. by destruct l. Qed.

(** Joining the pieces of a split with the separator gives the string
    back. *)
Lemma join_split sep s :
  JsArray.join (String sep EmptyString) (JsString.split sep s) = s.
Proof.
  induction s as [|c s IH]; [done |]. simpl.
  destruct (Ascii.eqb_spec c sep) as [-> | Hne].
  - rewrite join_cons by apply split_nonempty. simpl. by rewrite IH.
  - destruct (JsString.split sep s) as [|w ws] eqn:E.
    + by destruct (split_nonempty sep s).
    + rewrite join_head. by rewrite IH.
Qed.

(** The first piece stops at the first separator. *)
Lemma split_app sep (a rest : string) :
  free_of sep a →
  JsString.split sep (a +:+ String sep rest) = a :: JsString.split sep rest.
Proof.
  unfold free_of. induction a as [|c a IH]; simpl.
  - intros _. by rewrite Ascii.eqb_refl.
  - intros [Hc Ha]%orb_false_iff. rewrite Ascii.eqb_sym, Hc.
    by rewrite (IH Ha).
Qed.

Lemma split_length sep s :
  length (JsString.split sep s) = S (occurrences sep s).
Proof.
  induction s as [|c s IH]; [done |]. simpl.
  destruct (Ascii.eqb c sep); simpl.
  - by rewrite IH.
  - destruct (JsString.split sep s); simpl in *; lia.
Qed.

Lemma filter_from_drop {A} (k from : nat) (l : list A) :
  JsArray.filter_from (λ _ i, Nat.ltb k i) from l = drop (S k - from) l.
Proof.
  revert from. induction l as [|x l IH]; intros from; simpl.
  { by rewrite drop_nil. }
  destruct (Nat.ltb_spec k from) as [Hlt | Hge].
  - rewrite IH. replace (S k - from)%nat with 0%nat by lia.
    replace (S k - S from)%nat with 0%nat by lia. done.
  - rewrite IH. replace (S k - from)%nat with (S (S k - S from)) by lia. done.
Qed.

End SplitJoin.

(** X1. The destination path drops the first three segments of the
    directory and nothing else; there is no separator between [blog] and
    what is left. *)
Theorem subPath_drops_three_segments (a b c rest : string) :
  free_of "/" a → free_of "/" b → free_of "/" c →
  subPath (a +:+ "/" +:+ b +:+ "/" +:+ c +:+ "/" +:+ rest) = "blog" +:+ rest.
Proof.
  intros Ha Hb Hc. unfold subPath, JsArray.filter.
  repeat progress change ("/" +:+ ?s) with (String "/" s).
  rewrite !split_app by done. rewrite filter_from_drop. simpl drop.
  rewrite drop_0. by rewrite join_split.
Qed.

Lemma subPath_drops_three_segments_witness :
  subPath ("" +:+ "/" +:+ "blog" +:+ "/" +:+ "en" +:+ "/" +:+ "2021/03")
  = "blog" +:+ "2021/03".
Proof. by apply subPath_drops_three_segments. Defined.

(** X2. A directory with at most two separators, that is with at most
    three segments, gives the bare prefix. *)
Theorem subPath_short_directory (dir : string) :
  (occurrences "/" dir ≤ 2)%nat → subPath dir = "blog".
Proof.
  intros Hn. unfold subPath, JsArray.filter. rewrite filter_from_drop.
  rewrite drop_ge; [done |]. rewrite split_length. lia.
Qed.

Lemma subPath_short_directory_witness : subPath "/blog/en" = "blog".
Proof. apply subPath_short_directory. vm_compute. lia. Defined.

(** ** Trimming *)
Section Trim.
Import JsString NameSpec.
Implicit Types (s u w : string) (c sep : ascii).

Lemma trimEnd_empty s : trimEnd s = "" ↔ has_ink s = false.
Proof.
  unfold has_ink. induction s as [|c s IH]; simpl; [done |].
  rewrite orb_false_iff, negb_false_iff, <- IH.
  destruct (trimEnd s), (white c); split; try done; by intros [? ?].
Qed.

Lemma trimStart_ink s : has_ink (trimStart s) = has_ink s.
Proof.
  unfold has_ink. induction s as [|c s IH]; simpl; [done |].
  destruct (white c) eqn:Hc; simpl; [done | by rewrite Hc].
Qed.

Lemma trimEnd_ink s : has_ink (trimEnd s) = has_ink s.
Proof.
  induction s as [|c s IH]; [done |]. simpl trimEnd.
  destruct (trimEnd s) as [|x t] eqn:E.
  - apply trimEnd_empty in E. unfold has_ink in *. simpl. rewrite E.
    destruct (white c) eqn:Hc; simpl; by rewrite ?Hc.
  - unfold has_ink in *. cbn [test_class] in *. by rewrite IH.
Qed.

Lemma trim_ink s : trim s ≠ "" ↔ has_ink s = true.
Proof.
  unfold trim. rewrite trimEnd_empty, trimStart_ink.
  by destruct (has_ink s).
Qed.

Lemma last_char_cons_ne c s : s ≠ "" → last_char (String c s) = last_char s.
Proof. by destruct s. Qed.

Lemma trimEnd_last s :
  trimEnd s ≠ "" → ∃ c, last_char (trimEnd s) = Some c ∧ white c = false.
Proof.
  induction s as [|c s IH]; [done |]. simpl trimEnd.
  destruct (trimEnd s) as [|x t] eqn:E.
  - destruct (white c) eqn:Hc; [done |]. intros _. by exists c.
  - intros _. rewrite last_char_cons_ne by done. by apply IH.
Qed.

Lemma trimEnd_first s :
  trimEnd s ≠ "" → first_char (trimEnd s) = first_char s.
Proof.
  destruct s as [|c s]; [done |]. simpl trimEnd.
  destruct (trimEnd s); [| done]. by destruct (white c).
Qed.

Lemma trimStart_first s :
  trimStart s ≠ "" → ∃ c, first_char (trimStart s) = Some c ∧ white c = false.
Proof.
  induction s as [|c s IH]; [done |]. simpl.
  destruct (white c) eqn:Hc; [done |]. intros _. by exists c.
Qed.

(** A trimmed text is empty or tight. *)
Lemma trim_tight s : trim s ≠ "" → tight (trim s).
Proof.
  intros Hne. unfold tight, trim in *. split.
  - rewrite trimEnd_first by done. apply trimStart_first.
    intros E. by rewrite E in Hne.
  - by apply trimEnd_last.
Qed.

Lemma free_of_trimStart c s : free_of c s → free_of c (trimStart s).
Proof.
  unfold free_of. induction s as [|x s IH]; simpl; [done |].
  intros [Hx Hs]%orb_false_iff. destruct (white x); [by apply IH |].
  simpl. by rewrite Hx, Hs.
Qed.

Lemma free_of_trimEnd c s : free_of c s → free_of c (trimEnd s).
Proof.
  unfold free_of. induction s as [|x s IH]; simpl; [done |].
  intros [Hx Hs]%orb_false_iff. specialize (IH Hs).
  destruct (trimEnd s) as [|y t].
  - destruct (white x); [done |]. simpl. by rewrite Hx.
  - cbn [test_class] in *. by rewrite Hx, IH.
Qed.

Lemma ink_of_last s c : last_char s = Some c → white c = false → has_ink s = true.
Proof.
  induction s as [|x s IH]; [done |].
  destruct s as [|y s].
  - unfold has_ink. simpl. intros [= ->] ->. done.
  - intros Hl Hc.
    change (has_ink (String x (String y s)))
      with (negb (white x) || has_ink (String y s)).
    rewrite (IH Hl Hc). apply orb_true_r.
Qed.

(** The pieces of a split hold no separator. *)
Lemma split_free sep s w : w ∈ split sep s → free_of sep w.
Proof.
  unfold free_of. revert w. induction s as [|c s IH]; intros w; simpl.
  - by intros ->%list_elem_of_singleton.
  - destruct (Ascii.eqb_spec c sep) as [-> | Hne].
    + intros [-> | Hw]%elem_of_cons; [done | by apply IH].
    + destruct (split sep s) as [|w0 ws] eqn:E.
      * intros ->%list_elem_of_singleton. simpl.
        by rewrite (proj2 (Ascii.eqb_neq sep c)) by done.
      * intros [-> | Hw]%elem_of_cons.
        -- simpl. rewrite (proj2 (Ascii.eqb_neq sep c)) by done.
           apply IH, elem_of_cons. by left.
        -- apply IH, elem_of_cons. by right.
Qed.

Lemma split_singleton sep s w : split sep s = [w] → w = s.
Proof.
  intros E. rewrite <- (join_split sep s), E. done.
Qed.

(** The last piece ends where the text ends, unless the text ends with a
    separator. *)
Lemma split_last sep s w :
  last (split sep s) = Some w →
  (w ≠ "" → last_char w = last_char s) ∧
  (w = "" → s = "" ∨ last_char s = Some sep).
Proof.
  revert w. induction s as [|c s IH]; intros w.
  - simpl. intros [= <-]. split; [done | by left].
  - simpl split. destruct (Ascii.eqb_spec c sep) as [-> | Hne].
    + pose proof (split_nonempty sep s) as Hs.
      destruct (split sep s) as [|w0 ws] eqn:E; [done |].
      rewrite last_cons_cons. intros Hl. destruct (IH w Hl) as [H1 H2].
      split.
      * intros Hw. destruct s as [|y s].
        { simpl in E. injection E as <- <-. simpl in Hl. by injection Hl as <-. }
        rewrite last_char_cons_ne by done. by apply H1.
      * intros Hw. right. destruct (H2 Hw) as [-> | Hsep]; [done |].
        destruct s; [done |]. by rewrite last_char_cons_ne.
    + destruct (split sep s) as [|w0 ws] eqn:E.
      { by destruct (split_nonempty sep s). }
      destruct ws as [|w1 ws].
      * apply split_singleton in E as ->. simpl. intros [= <-].
        split; [done | done].
      * rewrite last_cons_cons. intros Hl.
        assert (last (w0 :: w1 :: ws) = Some w) as Hl'.
        { by rewrite last_cons_cons. }
        destruct (IH w Hl') as [H1 H2].
        assert (s ≠ "") as Hs.
        { intros ->. simpl in E. done. }
        rewrite last_char_cons_ne by done. split; [done |].
        intros Hw. right. by destruct (H2 Hw).
Qed.

End Trim.

(** ** The values of the metadata map *)
Section Day.

Lemma indexOf_from_app c (pre post : string) i :
  free_of c pre →
  JsString.indexOf_from c (pre +:+ String c post) i = i + JsString.len pre.
Proof.
  unfold free_of, JsString.len. revert i.
  induction pre as [|x pre IH]; intros i; simpl.
  - intros _. rewrite Ascii.eqb_refl. lia.
  - intros [Hx Hp]%orb_false_iff. rewrite Ascii.eqb_sym, Hx.
    rewrite (IH _ Hp). lia.
Qed.

Lemma substring_0_app (a b : string) : substring 0 (String.length a) (a +:+ b) = a.
Proof.
  induction a as [|c a IH]; simpl; [by destruct b | by rewrite IH].
Qed.

(** The day of a time stamp is what stands before its first [T]. *)
Lemma dayOf_with_T (pre post : string) :
  free_of "T" pre → dayOf (pre +:+ String "T" post) = pre.
Proof.
  intros Hfree. unfold dayOf, JsString.indexOf.
  rewrite indexOf_from_app by done.
  unfold JsString.substring2, JsString.clamp, JsString.len.
  rewrite length_app_string. simpl String.length.
  replace (Z.min (Z.max 0 (Z.min _ 0)) _) with 0 by lia.
  replace (Z.max (Z.max 0 (Z.min _ 0)) _ - 0)
    with (Z.of_nat (String.length pre)) by lia.
  rewrite Nat2Z.id. apply substring_0_app.
Qed.

End Day.

(** X3. When the publication time of the page holds a [T], the publication
    date of the map is what stands before the first one. *)
Theorem publication_date_before_T `{Host} (d : dom) (main document date : nid)
    (pre post : string) :
  querySelector d document (ByAttr "property" "article:published_time") = Some date →
  contentOf d date = Some (pre +:+ String "T" post) →
  free_of "T" pre →
  wp (metadataFields main document) d (λ meta _,
    obj_get meta "Publication Date" = Some (VString pre)).
Proof.
  intros Hq Hc Hfree.
  eapply wp_mono; [apply metadataFields_spec |].
  - intros date' Hq'. rewrite Hq in Hq'. injection Hq' as <-. by rewrite Hc.
  - intros meta _ [-> _].
    destruct (metaOf_spec d main document (next d)) as (_ & _ & _ & -> & _).
    rewrite Hq. simpl. rewrite Hc. simpl. by rewrite dayOf_with_T.
Qed.

Lemma publication_date_before_T_witness :
  wp (metadataFields (H := bare_host) 5 0) page_stamped (λ meta _,
    obj_get meta "Publication Date" = Some (VString "2021-03-04")).
Proof.
  apply (publication_date_before_T (H := bare_host) page_stamped 5 0 3
           "2021-03-04" "10:00:00Z").
  - by vm_compute.
  - by vm_compute.
  - by vm_compute.
Defined.

Lemma readTime_not_empty `{Host} (d : dom) (main : nid) (v : value) :
  readTime d main = Some v →
  ∃ s, v = VString s ∧ s ≠ "" ∧ tight s ∧ free_of "010" s.
Proof.
  unfold readTime.
  destruct (querySelector d main (ByClass "blogPostContent__metaTop"))
    as [metatop |]; [| done].
  cbn [mbind option_bind].
  set (text := JsString.trim (textContent d metatop)).
  assert (text = JsString.trim (textContent d metatop)) as Htext by done.
  destruct (JsString.split "010" text) as [|l1 [|l2 [|l3 [|l4 ls]]]] eqn:E;
    case_decide as Hlen; try done; try (simpl in Hlen; lia).
  intros [= <-]. cbn [lookup list_lookup default from_option id].
  assert (last (JsString.split "010" text) = Some l3) as Hlast by by rewrite E.
  destruct (split_last _ _ _ Hlast) as [Hne Hemp].
  assert (text ≠ "") as Htne.
  { intros Ht. rewrite Ht in E. done. }
  destruct (trimEnd_last (JsString.trimStart (textContent d metatop)))
    as (c & Hc & Hw); [by rewrite Htext in Htne |].
  fold (JsString.trim (textContent d metatop)) in Hc. rewrite <- Htext in Hc.
  assert (l3 ≠ "") as Hl3.
  { intros Hl. destruct (Hemp Hl) as [? | Hnl]; [done |].
    rewrite Hc in Hnl. injection Hnl as ->. done. }
  assert (has_ink l3 = true) as Hink.
  { apply (ink_of_last l3 c); [| done]. by rewrite (Hne Hl3). }
  assert (JsString.trim l3 ≠ "") as Hs by by apply trim_ink.
  exists (JsString.trim l3). split_and!; [done | done | by apply trim_tight |].
  apply free_of_trimEnd, free_of_trimStart, (split_free "010" text).
  rewrite E. apply elem_of_cons. right. apply elem_of_cons. right.
  apply elem_of_cons. by left.
Qed.

Lemma date_is_meta_content (d : dom) (document : nid) :
  date_is_meta d document = true →
  ∀ date,
    querySelector d document (ByAttr "property" "article:published_time") = Some date →
    is_Some (contentOf d date).
Proof.
  unfold date_is_meta. intros Hm date Hq. rewrite Hq in Hm.
  apply bool_decide_eq_true_1 in Hm. unfold contentOf.
  by rewrite decide_True.
Qed.

(** X4. A read time, when the map has one, is a string that is not empty,
    holds no line break and neither starts nor ends with white space. *)
Theorem read_time_not_empty `{Host} (d : dom) (main document : nid) :
  date_is_meta d document = true →
  wp (metadataFields main document) d (λ meta _,
    ∀ v, obj_get meta "Read Time" = Some v →
         ∃ s, v = VString s ∧ s ≠ "" ∧ tight s ∧ free_of "010" s).
Proof.
  intros Hm. eapply wp_mono.
  { apply metadataFields_spec. by apply date_is_meta_content. }
  intros meta _ [-> _] v.
  destruct (metaOf_spec d main document (next d)) as (_ & _ & _ & _ & _ & -> & _).
  apply readTime_not_empty.
Qed.

(** A page whose meta-top text has three lines. *)
Definition page_three_lines : dom :=
  store_of
    [Node "#document" [] ∅ "" [Elem 1] None;
     Node "html" [] ∅ "" [Elem 2] (Some 0%nat);
     Node "body" [] ∅ "" [Elem 3] (Some 1%nat);
     Node "main" [] ∅ "" [Elem 4] (Some 2%nat);
     Node "div" ["blogPostContent__metaTop"] ∅ ""
       [Markup (" By Ann" +:+ String "010" ("May 4" +:+
                String "010" " 5 min read "))] (Some 3%nat)].

Lemma read_time_not_empty_witness :
  wp (metadataFields (H := bare_host) 3 0) page_three_lines (λ meta _,
    ∀ v, obj_get meta "Read Time" = Some v →
         ∃ s, v = VString s ∧ s ≠ "" ∧ tight s ∧ free_of "010" s).
Proof.
  apply (read_time_not_empty (H := bare_host)). vm_compute. reflexivity.
Defined.

Example read_time_three_lines :
  wp (metadataFields (H := bare_host) 3 0) page_three_lines (λ meta _,
    meta = [("Read Time", VString "5 min read")]).
Proof. vm_compute. reflexivity. Qed.

(** X5. When the element of the publication time is not a [meta] element,
    it has no [content] to cut the day from, and both variants of
    [createMetadata] throw a [TypeError], whatever the framework. *)
Theorem createMetadata_date_not_meta `{Host} `{Framework} (d : dom)
    (main document date : nid) :
  querySelector d document (ByAttr "property" "article:published_time") = Some date →
  tagOf d date ≠ "meta" →
  createMetadata main document d = Throw TypeError ∧
  ∀ html, createMetadata2 main document html d = Throw TypeError.
Proof.
  intros Hq Htag.
  assert (metadataFields main document d = Throw TypeError) as Hthrow.
  { unfold metadataFields. change (getDom ≫= ?k) with (λ d, k d d). cbv beta.
    assert (contentOf d date = None) as Hc.
    { unfold contentOf. by rewrite decide_False. }
    rewrite Hq, Hc.
    destruct (querySelector d document (ByTag "title"));
      destruct (querySelector d document (ByAttr "property" "og:description"));
      destruct (querySelector d document (ByAttr "property" "article:section"));
      reflexivity. }
  split; [| intros html].
  - unfold createMetadata. unfold mbind at 1, M_bind at 1. by rewrite Hthrow.
  - unfold createMetadata2. unfold mbind at 1, M_bind at 1. by rewrite Hthrow.
Qed.

(** A page whose publication time sits on a [div]. *)
Definition page_dated_div : dom :=
  store_of
    [Node "#document" [] ∅ "" [Elem 1] None;
     Node "html" [] ∅ "" [Elem 2; Elem 3] (Some 0%nat);
     Node "div" []
       {[ "property" := "article:published_time";
          "content" := "2021-03-04T10:00:00Z" ]}
       "" [] (Some 1%nat);
     Node "main" [] ∅ "" [] (Some 1%nat)].

Lemma createMetadata_date_not_meta_witness :
  createMetadata (H := bare_host) (H0 := bare_framework) 3 0 page_dated_div
    = Throw TypeError ∧
  ∀ html,
    createMetadata2 (H := bare_host) (H0 := bare_framework) 3 0 html page_dated_div
    = Throw TypeError.
Proof.
  apply (createMetadata_date_not_meta (H := bare_host) (H0 := bare_framework)
           page_dated_div 3 0 2).
  - by vm_compute.
  - by vm_compute.
Defined.

(** ** The map and the store [metadataFields] leaves *)

Lemma metadataFields_eq `{Host} (d : dom) (main document : nid) :
  date_is_meta d document = true →
  metadataFields main document d
  = Ok (metaOf d main document (next d), metaStore d document).
Proof.
  intros Hm. pose proof (date_is_meta_content d document Hm) as Hdate.
  unfold metadataFields, metaOf, metaStore, readTime.
  change (getDom ≫= ?k) with (λ d, k d d). cbv beta.
  destruct (querySelector d document (ByAttr "property" "article:published_time"))
    as [date|] eqn:Hd;
    [destruct (Hdate date eq_refl) as [content Hc] |];
    destruct (querySelector d document (ByTag "title"));
    destruct (querySelector d document (ByAttr "property" "og:description"));
    destruct (querySelector d document (ByAttr "property" "article:section"));
    destruct (querySelector d main (ByAttr "rel" "author"));
    destruct (querySelector d main (ByClass "blogPostContent__metaTop"));
    destruct (querySelector d document (ByAttr "property" "og:image"));
    cbn [mbind option_bind]; rewrite ?Hc; try case_decide;
    reflexivity.
Qed.

Lemma metaOf_keys `{Host} (d : dom) (main document el : nid) :
  (metaOf d main document el).*1
  = filter (λ k, is_Some (obj_get (metaOf d main document el) k)) metadataKeys.
Proof.
  unfold metaOf.
  destruct (querySelector d document (ByAttr "property" "article:published_time")
              ≫= contentOf d);
    destruct (querySelector d document (ByTag "title"));
    destruct (querySelector d document (ByAttr "property" "og:description"));
    destruct (querySelector d document (ByAttr "property" "article:section"));
    destruct (querySelector d main (ByAttr "rel" "author"));
    destruct (readTime d main);
    destruct (querySelector d document (ByAttr "property" "og:image"));
    vm_compute; reflexivity.
Qed.

(** X6. The keys of the map come in the order of the source: Title,
    Description, Category, Publication Date, Author, Read Time, Image, each
    one at most once, the missing ones left out. *)
Theorem metadata_keys_in_order `{Host} (d : dom) (main document : nid) :
  date_is_meta d document = true →
  wp (metadataFields main document) d (λ meta _,
    meta.*1 = filter (λ k, is_Some (obj_get meta k)) metadataKeys ∧
    NoDup meta.*1).
Proof.
  intros Hm. unfold wp. rewrite metadataFields_eq by done.
  pose proof (metaOf_keys d main document (next d)) as Hk.
  split; [done |]. rewrite Hk. apply NoDup_filter.
  unfold metadataKeys. by_compute.
Qed.

(** A page with an image, a title and a category. *)
Definition page_with_image : dom :=
  store_of
    [Node "#document" [] ∅ "" [Elem 1] None;
     Node "html" [] ∅ "" [Elem 2; Elem 6] (Some 0%nat);
     Node "head" [] ∅ "" [Elem 3; Elem 4; Elem 5] (Some 1%nat);
     Node "meta" [] {[ "property" := "og:image"; "content" := "/hero.png" ]}
       "" [] (Some 2%nat);
     Node "meta" [] {[ "property" := "article:section"; "content" := "Pets" ]}
       "" [] (Some 2%nat);
     Node "title" [] ∅ "" [Markup "Cats"] (Some 2%nat);
     Node "main" [] ∅ "" [] (Some 1%nat)].

Lemma metadata_keys_in_order_witness :
  wp (metadataFields (H := bare_host) 6 0) page_with_image (λ meta _,
    meta.*1 = filter (λ k, is_Some (obj_get meta k)) metadataKeys ∧
    NoDup meta.*1).
Proof.
  apply (metadata_keys_in_order (H := bare_host)). vm_compute. reflexivity.
Defined.

Example metadata_keys_of_page :
  wp (metadataFields (H := bare_host) 6 0) page_with_image (λ meta _,
    meta.*1 = ["Title"; "Category"; "Image"]).
Proof. vm_compute. reflexivity. Qed.

(** X7. Reading the metadata changes no node of the page.  When the page
    names an image, one element is created: a detached, childless [img]
    whose source is the content of the image element; otherwise the store
    is the same. *)
Theorem metadataFields_reads_only `{Host} (d : dom) (main document : nid) :
  wf d →
  date_is_meta d document = true →
  wp (metadataFields main document) d (λ _ d',
    wf d' ∧
    (∀ y, (y < next d)%nat → node_at d' y = node_at d y) ∧
    match querySelector d document (ByAttr "property" "og:image") with
    | Some img =>
        next d' = S (next d) ∧ tagOf d' (next d) = "img" ∧
        parentOf d' (next d) = None ∧ kidsOf d' (next d) = [] ∧
        getAttribute d' (next d) "src"
          = Some (default "undefined" (contentOf d img))
    | None => d' = d
    end).
Proof.
  intros Hwf Hm. unfold wp. rewrite metadataFields_eq by done.
  unfold metaStore.
  destruct (querySelector d document (ByAttr "property" "og:image")) as [img |];
    [| done].
  cbv zeta. set (el := next d). set (d1 := alloc "img" d).
  assert (wf d1) as Hwf1 by by apply wf_alloc_pres.
  destruct (wf_fresh d el Hwf) as (Hk & Hp & _); [done |].
  split_and!.
  - apply wf_setAttrs; [done | simpl; lia].
  - intros y Hy. unfold setAttrs. rewrite node_at_put, decide_False by (unfold el; lia).
    unfold d1. rewrite node_at_alloc, decide_False by lia. done.
  - done.
  - rewrite tagOf_setAttrs. unfold d1. by rewrite tagOf_alloc, decide_True.
  - rewrite parentOf_setAttrs. unfold d1. by rewrite parentOf_alloc.
  - rewrite kidsOf_setAttrs. unfold d1. by rewrite kidsOf_alloc.
  - unfold getAttribute. rewrite attrsOf_setAttrs, decide_True by done.
    by rewrite lookup_insert_eq.
Qed.

Lemma metadataFields_reads_only_witness :
  wp (metadataFields (H := bare_host) 6 0) page_with_image (λ _ d',
    wf d' ∧
    (∀ y, (y < next page_with_image)%nat →
          node_at d' y = node_at page_with_image y) ∧
    match querySelector page_with_image 0 (ByAttr "property" "og:image") with
    | Some img =>
        next d' = S (next page_with_image) ∧
        tagOf d' (next page_with_image) = "img" ∧
        parentOf d' (next page_with_image) = None ∧
        kidsOf d' (next page_with_image) = [] ∧
        getAttribute d' (next page_with_image) "src"
          = Some (default "undefined" (contentOf page_with_image img))
    | None => d' = page_with_image
    end).
Proof.
  apply (metadataFields_reads_only (H := bare_host)).
  - apply wf_check_sound. vm_compute. reflexivity.
  - vm_compute. reflexivity.
Defined.

(** X18. Whatever else the page holds, a publication time without a [T]
    gives the empty string as the publication date of the map. *)
Theorem publication_date_without_T `{Host} (d : dom) (main document date : nid)
    (content : string) :
  querySelector d document (ByAttr "property" "article:published_time") = Some date →
  contentOf d date = Some content →
  free_of "T" content →
  wp (metadataFields main document) d (λ meta _,
    obj_get meta "Publication Date" = Some (VString "")).
Proof.
  intros Hq Hc Hfree.
  assert (date_is_meta d document = true) as Hm.
  { unfold date_is_meta. rewrite Hq. apply bool_decide_eq_true_2.
    unfold contentOf in Hc. by case_decide. }
  unfold wp. rewrite metadataFields_eq by done.
  destruct (metaOf_spec d main document (next d)) as (_ & _ & _ & -> & _).
  rewrite Hq. simpl. rewrite Hc. simpl. by rewrite dayOf_without_T.
Qed.

Lemma publication_date_without_T_witness :
  wp (metadataFields (H := bare_host) 5 0) page_dated (λ meta _,
    obj_get meta "Publication Date" = Some (VString "")).
Proof.
  apply (publication_date_without_T (H := bare_host) page_dated 5 0 3 "2021-03-04").
  - by vm_compute.
  - by vm_compute.
  - by vm_compute.
Defined.

(** X19. A field is in the map exactly when its element is found in the
    page: the title, the description, the category and the image in the
    document, the author in the main-content region, the publication date
    when its element is found, and the read time when the meta-top element
    is found and its trimmed text has exactly three lines.  The map has no
    other key. *)
Theorem metadata_present_iff_found `{Host} (d : dom) (main document : nid) :
  date_is_meta d document = true →
  wp (metadataFields main document) d (λ meta _,
    (is_Some (obj_get meta "Title")
       ↔ is_Some (querySelector d document (ByTag "title"))) ∧
    (is_Some (obj_get meta "Description")
       ↔ is_Some (querySelector d document (ByAttr "property" "og:description"))) ∧
    (is_Some (obj_get meta "Category")
       ↔ is_Some (querySelector d document (ByAttr "property" "article:section"))) ∧
    (is_Some (obj_get meta "Publication Date")
       ↔ is_Some (querySelector d document
                    (ByAttr "property" "article:published_time"))) ∧
    (is_Some (obj_get meta "Author")
       ↔ is_Some (querySelector d main (ByAttr "rel" "author"))) ∧
    (is_Some (obj_get meta "Read Time")
       ↔ ∃ metatop,
           querySelector d main (ByClass "blogPostContent__metaTop") = Some metatop ∧
           length (JsString.split "010"
                     (JsString.trim (textContent d metatop))) = 3%nat) ∧
    (is_Some (obj_get meta "Image")
       ↔ is_Some (querySelector d document (ByAttr "property" "og:image"))) ∧
    ∀ k, is_Some (obj_get meta k) → k ∈ metadataKeys).
Proof.
  intros Hm. unfold wp. rewrite metadataFields_eq by done.
  destruct (metaOf_spec d main document (next d))
    as (-> & -> & -> & -> & -> & -> & -> & Hkeys).
  split_and!; try (by rewrite fmap_is_Some); [| | done].
  - rewrite fmap_is_Some. split.
    + by intros [c (date & -> & _)%bind_Some].
    + intros [date Hq]. rewrite Hq. simpl.
      by apply (date_is_meta_content d document Hm).
  - unfold readTime.
    destruct (querySelector d main (ByClass "blogPostContent__metaTop"))
      as [metatop |]; simpl.
    + case_decide as Hlen.
      * split; [intros _; by exists metatop | by eexists].
      * split; [by intros [? ?] | intros (? & [= <-] & ?); done].
    + split; [by intros [? ?] | by intros (? & ? & _)].
Qed.

Lemma metadata_present_iff_found_witness :
  wp (metadataFields (H := bare_host) 6 0) page_with_image (λ meta _,
    (is_Some (obj_get meta "Title")
       ↔ is_Some (querySelector page_with_image 0 (ByTag "title"))) ∧
    (is_Some (obj_get meta "Description")
       ↔ is_Some (querySelector page_with_image 0
                    (ByAttr "property" "og:description"))) ∧
    (is_Some (obj_get meta "Category")
       ↔ is_Some (querySelector page_with_image 0
                    (ByAttr "property" "article:section"))) ∧
    (is_Some (obj_get meta "Publication Date")
       ↔ is_Some (querySelector page_with_image 0
                    (ByAttr "property" "article:published_time"))) ∧
    (is_Some (obj_get meta "Author")
       ↔ is_Some (querySelector page_with_image 6 (ByAttr "rel" "author"))) ∧
    (is_Some (obj_get meta "Read Time")
       ↔ ∃ metatop,
           querySelector page_with_image 6 (ByClass "blogPostContent__metaTop")
             = Some metatop ∧
           length (JsString.split "010"
                     (JsString.trim
                        (textContent (Host := bare_host) page_with_image metatop)))
             = 3%nat) ∧
    (is_Some (obj_get meta "Image")
       ↔ is_Some (querySelector page_with_image 0 (ByAttr "property" "og:image"))) ∧
    ∀ k, is_Some (obj_get meta k) → k ∈ metadataKeys).
Proof.
  apply (metadata_present_iff_found (H := bare_host)). by vm_compute.
Defined.

(** ** The rendered text *)
Section RenderedText.
Context `{Framework}.

Lemma postProcessMD_filter (md : list N) :
  postProcessMD md = filter (λ c, c ≠ 160%N) (super_postProcessMD md).
Proof. unfold postProcessMD. apply replace_unit_nil. Qed.

Lemma postProcessMD2_filter (md : list N) :
  postProcessMD2 md =
  filter (λ c, c ≠ 160%N)
    ((λ c, if swept c then 32%N else c) <$> super_postProcessMD md).
Proof.
  unfold postProcessMD2. rewrite replace_unit_nil, sweep_loop.
  rewrite sweep_fold; [done |].
  apply (bool_decide_eq_false_1 (32%N ∈ sweep_units)). by vm_compute.
Qed.

Lemma filter_fmap_length {A} (P : A → Prop) `{∀ a, Decision (P a)}
    (g : A → A) (l : list A) :
  (∀ a, P (g a) ↔ P a) → length (filter P (g <$> l)) = length (filter P l).
Proof.
  intros Hg. induction l as [|a l IH]; [done |]. csimpl.
  destruct (decide (P a)) as [Ha | Ha].
  - rewrite !filter_cons_True by (done || by apply Hg). simpl. by rewrite IH.
  - rewrite !filter_cons_False by (done || by rewrite Hg). done.
Qed.

End RenderedText.

(** X8. The text either variant returns holds no non-breaking space; the
    text of variant 2 holds none of the twenty swept code units either, and
    it is as long as the text of variant 1: the sweep replaces, it never
    removes. *)
Theorem postProcessMD_never_contains `{Framework} (md : list N) :
  (160%N ∉ postProcessMD md) ∧
  (160%N ∉ postProcessMD2 md) ∧
  (∀ u, u ∈ sweep_units → u ∉ postProcessMD2 md) ∧
  length (postProcessMD2 md) = length (postProcessMD md).
Proof.
  rewrite postProcessMD_filter, postProcessMD2_filter. split_and!.
  - by intros [? _]%list_elem_of_filter.
  - by intros [? _]%list_elem_of_filter.
  - intros u Hu [_ (c & Hc & _)%list_elem_of_fmap]%list_elem_of_filter.
    unfold swept in Hc. case_bool_decide as Hs.
    + subst u. revert Hu. by_compute.
    + by subst c.
  - apply filter_fmap_length. intros c. unfold swept.
    case_bool_decide as Hs; [| done].
    split; [intros _ Heq | done]. subst c. revert Hs. by_compute.
Qed.

(** ** Blocks *)

(** X9. [createTable] touches nothing but the elements it is given: every
    node of the store keeps its tag, classes and attributes, loses those of
    its children that went into the table and no other, and keeps its
    parent unless it went into the table itself, where its parent is a new
    cell; the table is a new node without a parent. *)
Theorem createTable_touches_cells_only (data : list (list cell)) (d : dom) :
  wf d →
  NoDup (data_elems data) →
  (∀ e, e ∈ data_elems data → (e < next d)%nat) →
  ∃ t d',
    createTable data d = Ok (t, d') ∧ t = next d ∧ wf d' ∧
    parentOf d' t = None ∧
    ∀ y, (y < next d)%nat →
      same_label d d' y ∧
      kidsOf d' y = filter (λ it, it ∉ Elem <$> data_elems data) (kidsOf d y) ∧
      (y ∉ data_elems data → parentOf d' y = parentOf d y) ∧
      (y ∈ data_elems data → ∃ c, parentOf d' y = Some c ∧ (next d ≤ c)%nat).
Proof.
  intros Hwf Hnd Hlt.
  pose proof (createTable_spec data d Hwf Hnd Hlt) as H.
  apply wp_ok in H as (t & d' & Hrun & -> & Hb & _ & Hpt & _).
  exists (next d), d'. split_and!; try done; [apply Hb |].
  intros y Hy. split_and!.
  - by apply (bt_label d _ d' Hb).
  - by apply (bt_kids d _ d' Hb).
  - intros Hnin. by apply (bt_parent d _ d' Hb).
  - intros Hin. by apply (bt_moved d _ d' Hb).
Qed.

(** A parent with three links. *)
Definition linked_list : dom :=
  store_of [Node "ul" [] ∅ "" [Elem 1; Elem 2; Elem 3] None;
            Node "a" [] ∅ "" [] (Some 0%nat);
            Node "a" [] ∅ "" [] (Some 0%nat);
            Node "a" [] ∅ "" [] (Some 0%nat)].

Lemma createTable_touches_cells_only_witness :
  ∃ t d',
    createTable [[CArray [3; 1]%nat]] linked_list = Ok (t, d') ∧
    t = next linked_list ∧ wf d' ∧
    parentOf d' t = None ∧
    ∀ y, (y < next linked_list)%nat →
      same_label linked_list d' y ∧
      kidsOf d' y
        = filter (λ it, it ∉ Elem <$> data_elems [[CArray [3; 1]%nat]])
            (kidsOf linked_list y) ∧
      (y ∉ data_elems [[CArray [3; 1]%nat]] →
         parentOf d' y = parentOf linked_list y) ∧
      (y ∈ data_elems [[CArray [3; 1]%nat]] →
         ∃ c, parentOf d' y = Some c ∧ (next linked_list ≤ c)%nat).
Proof.
  apply createTable_touches_cells_only.
  - apply wf_check_sound. vm_compute. reflexivity.
  - by_compute.
  - intros e He. vm_compute in He. vm_compute.
    apply elem_of_cons in He as [-> | He]; [lia |].
    apply elem_of_cons in He as [-> | He]; [lia |].
    by apply elem_of_nil in He.
Defined.

Example createTable_takes_from_parent :
  wp (createTable [[CArray [3; 1]%nat]]) linked_list (λ t d',
    t = 4%nat ∧ kidsOf d' 0 = [Elem 2] ∧ kidsOf d' 6 = [Elem 3; Elem 1] ∧
    parentOf d' 2 = Some 0%nat ∧ parentOf d' 3 = Some 6%nat).
Proof. vm_compute. by repeat split. Qed.

(** Putting a table of strings in the place of an element. *)
Lemma block_replaces (data : list (list cell)) (d : dom) (e p : nid) :
  wf d → data_elems data = [] →
  (e < next d)%nat → parentOf d e = Some p →
  wp (table ← createTable data; replaceWith e table) d (λ _ d',
    wf d' ∧ (next d < next d')%nat ∧
    is_table d' (next d) data ∧ table_from (next d) d' (next d) ∧
    parentOf d' (next d) = Some p ∧
    ∀ y, (y < next d)%nat →
      same_label d d' y ∧
      kidsOf d' y = (if decide (y = p) then subst_item e (next d) (kidsOf d p)
                     else kidsOf d y) ∧
      parentOf d' y = if decide (y = e) then None else parentOf d y).
Proof.
  intros Hwf HE He Hpe.
  destruct (wf_parent_lt d e p Hwf Hpe) as [_ Hp].
  apply wp_bind. eapply wp_mono.
  { apply (createTable_spec data d Hwf).
    - rewrite HE. apply NoDup_nil_2.
    - rewrite HE. by intros x ?%elem_of_nil. }
  intros t d1 (-> & Hb & Htab & Hpt & Hfrom). rewrite HE in Hb.
  pose proof (bt_wf d [] d1 Hb) as Hwf1.
  pose proof (bt_next d [] d1 Hb) as Hn1.
  destruct Hfrom as [Htr Hfrom'].
  assert (parentOf d1 e = Some p) as Hpe1.
  { by rewrite (built_nil_parent d d1). }
  assert (¬ anc d1 (next d) p) as Hanc.
  { apply (built_not_anc_new d d1 [] Hwf Hb); [lia | lia |].
    intros y _. apply not_elem_of_nil. }
  apply (wp_replaceWith e (next d) p); [done | done | lia | lia | done |].
  set (t := next d) in *. set (d2 := swap p e t d1).
  assert (t = next d) as Ht by done.
  split_and!.
  - apply wf_swap; try done; lia.
  - unfold d2. rewrite next_swap. lia.
  - destruct (is_table_agree (next d) d1 d2) with (t := t) (data := data)
      as [Ht2 _]; try done.
    + intros y Hy. unfold d2.
      destruct (same_label_swap p e t d1 y) as (-> & _).
      rewrite kidsOf_swap, decide_False by (done || lia). done.
    + unfold d2. rewrite next_swap. lia.
  - destruct (is_table_agree (next d) d1 d2) with (t := t) (data := data)
      as [_ Hf2]; try done.
    + intros y Hy. unfold d2.
      destruct (same_label_swap p e t d1 y) as (-> & _).
      rewrite kidsOf_swap, decide_False by (done || lia). done.
    + unfold d2. rewrite next_swap. lia.
  - unfold d2. rewrite parentOf_swap, decide_True by done. done.
  - intros y Hy. unfold d2. split_and!.
    + eapply same_label_trans; [by apply (bt_label d [] d1 Hb) |].
      apply same_label_swap.
    + rewrite kidsOf_swap by done.
      rewrite !(built_nil_kids d d1) by done. done.
    + rewrite parentOf_swap by done.
      rewrite (decide_False (P := y = t)) by lia.
      rewrite (built_nil_parent d d1) by done. done.
Qed.

(** X10. [createTOC] leaves a page without a table of contents as it is.
    When the main-content region holds one, a table whose only cell is a
    header cell holding [TOC] takes its place among the children of its
    parent, and nothing else changes among the nodes of the page. *)
Theorem createTOC_spec (d : dom) (main : nid) :
  wf d →
  match querySelector d main (ByClass "blogPostContentToc") with
  | None => createTOC main d = Ok (tt, d)
  | Some toc =>
      ∃ d' p,
        createTOC main d = Ok (tt, d') ∧ wf d' ∧
        parentOf d toc = Some p ∧
        is_table d' (next d) [[CString "TOC"]] ∧
        parentOf d' (next d) = Some p ∧
        ∀ y, (y < next d)%nat →
          same_label d d' y ∧
          kidsOf d' y = (if decide (y = p)
                         then subst_item toc (next d) (kidsOf d p)
                         else kidsOf d y) ∧
          parentOf d' y = if decide (y = toc) then None else parentOf d y
  end.
Proof.
  intros Hwf. unfold createTOC.
  change (getDom ≫= ?k) with (λ d, k d d). cbv beta zeta.
  destruct (querySelector d main (ByClass "blogPostContentToc")) as [toc |] eqn:Hq;
    [| done].
  pose proof (querySelector_anc d main _ toc Hwf Hq) as Hanc.
  destruct (anc_lt d main toc Hwf Hanc) as [_ Htoc].
  destruct (anc_inv d main toc Hanc) as (p & Hp & _).
  pose proof (block_replaces [[CString "TOC"]] d toc p Hwf eq_refl Htoc Hp) as H.
  apply wp_ok in H as ([] & d' & Hrun & Hwf' & _ & Htab & _ & Hpt & Hold).
  by exists d', p.
Qed.

(** A page with a table of contents between two paragraphs. *)
Definition page_with_toc : dom :=
  store_of
    [Node "div" ["blogPostMain"] ∅ "" [Elem 1; Elem 2; Elem 3] None;
     Node "p" [] ∅ "" [Markup "one"] (Some 0%nat);
     Node "div" ["blogPostContentToc"] ∅ "" [Markup "contents"] (Some 0%nat);
     Node "p" [] ∅ "" [Markup "two"] (Some 0%nat)].

Lemma createTOC_spec_witness :
  match querySelector page_with_toc 0 (ByClass "blogPostContentToc") with
  | None => createTOC 0 page_with_toc = Ok (tt, page_with_toc)
  | Some toc =>
      ∃ d' p,
        createTOC 0 page_with_toc = Ok (tt, d') ∧ wf d' ∧
        parentOf page_with_toc toc = Some p ∧
        is_table d' (next page_with_toc) [[CString "TOC"]] ∧
        parentOf d' (next page_with_toc) = Some p ∧
        ∀ y, (y < next page_with_toc)%nat →
          same_label page_with_toc d' y ∧
          kidsOf d' y = (if decide (y = p)
                         then subst_item toc (next page_with_toc)
                                (kidsOf page_with_toc p)
                         else kidsOf page_with_toc y) ∧
          parentOf d' y = if decide (y = toc) then None
                          else parentOf page_with_toc y
  end.
Proof.
  apply createTOC_spec. apply wf_check_sound. vm_compute. reflexivity.
Defined.

Example createTOC_example :
  wp (createTOC 0) page_with_toc (λ _ d',
    kidsOf d' 0 = [Elem 1; Elem 4; Elem 3] ∧ parentOf d' 2 = None ∧
    tagOf d' 4 = "table" ∧ kidsOf d' 4 = [Elem 5] ∧
    tagOf d' 5 = "tr" ∧ kidsOf d' 5 = [Elem 6] ∧
    tagOf d' 6 = "th" ∧ kidsOf d' 6 = [Markup "TOC"]).
Proof. vm_compute. by repeat split. Qed.

(** ** Document order *)
Section Order.
Implicit Types (d : dom) (x y c r : nid).

Lemma querySelectorAllOf_sorted d r sels :
  wf d → StronglySorted (precedes d) (querySelectorAllOf d r sels).
Proof. intros Hwf. by apply StronglySorted_filter, descendants_sorted. Qed.

Lemma querySelectorAllOf_nodup d r sels :
  wf d → NoDup (querySelectorAllOf d r sels).
Proof. intros Hwf. by apply NoDup_filter, descendants_nodup. Qed.

Lemma querySelectorAllOf_anc d r sels x :
  wf d → x ∈ querySelectorAllOf d r sels → anc d r x.
Proof. intros Hwf [_ H]%list_elem_of_filter. by eapply descendants_anc. Qed.

End Order.

(** ** [cleanupHeadings] *)
Section Headings.
Context `{Host} (d : dom) (Hwf : wf d) (Hlocal : text_local).

Lemma headings_step done h dk :
  (h < next d)%nat → h ∉ done →
  (∀ y, y ∈ done → precedes d y h) →
  headings_inv d done dk →
  wp (dd ← getDom; setInnerHTML h (textContent dd h)) dk (λ _ dk',
    headings_inv d (done ++ [h]) dk').
Proof.
  intros Hh Hnew Hbefore (Hwfk & Hnk & Hold).
  apply wp_bind, wp_getDom, wp_modify.
  assert (textContent dk h = textContent d h) as ->.
  { apply Hlocal; [done | done |].
    intros y Hy. destruct (Hold y) as (_ & -> & _).
    rewrite decide_False; [done |]. intros Hin.
    destruct Hy as [-> | Hy]; [done |]. by apply (Hbefore y Hin). }
  destruct (Hold h) as (_ & Hkh & _). rewrite decide_False in Hkh by done.
  split_and!.
  - apply wf_rewrite_markup; [done | lia].
  - by rewrite next_rewrite_markup.
  - intros y. destruct (Hold y) as (Hl & Hk & Hp). split_and!.
    + eapply same_label_trans; [done | apply same_label_rewrite_markup].
    + rewrite kidsOf_rewrite_markup, Hk.
      destruct (decide (y = h)) as [-> | Hne].
      * rewrite decide_True; [done |]. apply elem_of_app. right.
        by apply list_elem_of_singleton.
      * destruct (decide (y ∈ done)) as [Hin | Hnin].
        -- rewrite decide_True; [done |]. apply elem_of_app. by left.
        -- rewrite decide_False; [done |].
           rewrite elem_of_app, list_elem_of_singleton. tauto.
    + rewrite parentOf_rewrite_markup, Hp, Hkh.
      destruct (parentOf d y) as [p |] eqn:Hpy.
      * destruct (decide (Elem y ∈ kidsOf d h)) as [Hin | Hnin].
        -- apply (wf_kid_parent d Hwf) in Hin.
           assert (p = h) as -> by congruence.
           rewrite decide_True; [done |]. apply elem_of_app. right.
           by apply list_elem_of_singleton.
        -- assert (p ≠ h) as Hne.
           { intros ->. by apply Hnin, (wf_parent_kid d Hwf). }
           destruct (decide (p ∈ done)) as [Hin | Hnin'].
           ++ rewrite decide_True; [done |]. apply elem_of_app. by left.
           ++ rewrite decide_False; [done |].
              rewrite elem_of_app, list_elem_of_singleton. tauto.
      * by destruct (decide (Elem y ∈ kidsOf d h)).
Qed.

Lemma cleanupHeadings_inv main :
  wp (cleanupHeadings main) d (λ _ d',
    headings_inv d (querySelectorAllOf d main heading_selectors) d').
Proof.
  unfold cleanupHeadings. apply wp_bind, wp_getDom.
  set (L := querySelectorAllOf d main heading_selectors).
  pose proof (querySelectorAllOf_nodup d main heading_selectors Hwf) as Hnd.
  pose proof (querySelectorAllOf_sorted d main heading_selectors Hwf) as Hsorted.
  apply (wp_forEach _ (λ done dk, headings_inv d done dk)).
  - split_and!; [done | done |]. intros y. split_and!; [done | done |].
    by destruct (parentOf d y).
  - intros done h rest dk HL Hinv. fold L in Hnd, Hsorted.
    rewrite HL in Hnd, Hsorted.
    assert (anc d main h) as Hanc.
    { apply (querySelectorAllOf_anc d main heading_selectors); [done |].
      fold L. rewrite HL. apply elem_of_app. right. apply elem_of_cons. by left. }
    destruct (anc_lt d main h Hwf Hanc) as [_ Hh].
    apply headings_step; try done.
    + apply NoDup_app in Hnd as (_ & Hdisj & _).
      intros Hin. apply (Hdisj h Hin). apply elem_of_cons. by left.
    + intros y Hy. apply (StronglySorted_app_1_elem_of _ _ _ _ _ Hsorted Hy).
      apply elem_of_cons. by left.
Qed.

End Headings.

(** X11. [cleanupHeadings] returns on every well-formed store.  Every
    heading below the main-content region ends with one child, the markup
    of its own text; the elements that stood in a heading are detached;
    every other node keeps its children and its parent, every node its tag,
    classes and attributes, and no node is created.  The text of a node is
    taken to depend on the tree below it only. *)
Theorem cleanupHeadings_spec `{Host} (d : dom) (main : nid) :
  wf d → text_local →
  ∃ d',
    cleanupHeadings main d = Ok (tt, d') ∧ wf d' ∧ next d' = next d ∧
    ∀ y,
      same_label d d' y ∧
      kidsOf d' y =
        (if decide (y ∈ querySelectorAllOf d main heading_selectors)
         then [Markup (textContent d y)] else kidsOf d y) ∧
      parentOf d' y =
        match parentOf d y with
        | Some p =>
            if decide (p ∈ querySelectorAllOf d main heading_selectors)
            then None else Some p
        | None => None
        end.
Proof.
  intros Hwf Hlocal.
  pose proof (cleanupHeadings_inv d Hwf Hlocal main) as Hwp.
  apply wp_ok in Hwp as ([] & d' & Hrun & Hwf' & Hn & Hold).
  by exists d'.
Qed.

Lemma deepText_local (d1 d2 : dom) (f : nat) (x : nid) :
  wf d1 →
  (∀ y, y = x ∨ anc d1 x y → kidsOf d2 y = kidsOf d1 y) →
  deepText d2 f x = deepText d1 f x.
Proof.
  intros Hwf. revert x. induction f as [|f IH]; intros x Hsame; [done |].
  simpl. rewrite (Hsame x) by by left.
  assert (∀ c, Elem c ∈ kidsOf d1 x → deepText d2 f c = deepText d1 f c) as Hkids.
  { intros c Hc%(wf_kid_parent d1 Hwf). apply IH. intros y Hy. apply Hsame.
    right. destruct Hy as [-> | Hy]; [by apply anc_parent |].
    eapply anc_trans; [by apply anc_parent | done]. }
  induction (kidsOf d1 x) as [|[s | c] l IHl]; [done | |]; simpl.
  - rewrite IHl; [done |]. intros c Hc. apply Hkids, elem_of_cons. by right.
  - rewrite IHl, Hkids; [done | |].
    + apply elem_of_cons. by left.
    + intros c' Hc'. apply Hkids, elem_of_cons. by right.
Qed.

Lemma text_host_text_local : text_local (H := text_host).
Proof.
  intros d1 d2 x Hwf Hn Hsame. simpl. rewrite Hn. by apply deepText_local.
Qed.

(** A page with a heading that holds formatting, and a heading inside a
    heading. *)
Definition page_with_headings : dom :=
  store_of
    [Node "div" ["blogPostMain"] ∅ "" [Elem 1; Elem 3; Elem 4] None;
     Node "h1" [] ∅ "" [Markup "Cats "; Elem 2] (Some 0%nat);
     Node "em" [] ∅ "" [Markup "and dogs"] (Some 1%nat);
     Node "p" [] ∅ "" [Markup "text"] (Some 0%nat);
     Node "h2" [] ∅ "" [Markup "Food"; Elem 5] (Some 0%nat);
     Node "h3" [] ∅ "" [Markup "Fish"] (Some 4%nat)].

Lemma cleanupHeadings_spec_witness :
  ∃ d',
    cleanupHeadings (H := text_host) 0 page_with_headings = Ok (tt, d') ∧
    wf d' ∧ next d' = next page_with_headings ∧
    ∀ y,
      same_label page_with_headings d' y ∧
      kidsOf d' y =
        (if decide (y ∈ querySelectorAllOf page_with_headings 0 heading_selectors)
         then [Markup (textContent (Host := text_host) page_with_headings y)]
         else kidsOf page_with_headings y) ∧
      parentOf d' y =
        match parentOf page_with_headings y with
        | Some p =>
            if decide (p ∈ querySelectorAllOf page_with_headings 0 heading_selectors)
            then None else Some p
        | None => None
        end.
Proof.
  apply (cleanupHeadings_spec (H := text_host)).
  - apply wf_check_sound. vm_compute. reflexivity.
  - apply text_host_text_local.
Defined.

Example cleanupHeadings_example :
  querySelectorAllOf page_with_headings 0 heading_selectors = [1; 4; 5]%nat ∧
  wp (cleanupHeadings (H := text_host) 0) page_with_headings (λ _ d',
    kidsOf d' 1 = [Markup "Cats and dogs"] ∧ parentOf d' 2 = None ∧
    kidsOf d' 3 = [Markup "text"] ∧
    kidsOf d' 4 = [Markup "FoodFish"] ∧ parentOf d' 5 = None ∧
    kidsOf d' 5 = [Markup "Fish"]).
Proof. split; [by vm_compute |]. vm_compute. by repeat split. Qed.

(** ** Running [createEmbeds] again *)
Section Reach.
Implicit Types (d : dom) (x y c r : nid).

Lemma forEach_noop {X} (f : X → M unit) (l : list X) d :
  (∀ a : X, a ∈ l → f a d = Ok (tt, d)) → forEach f l d = Ok (tt, d).
Proof.
  induction l as [|a l IH]; intros Hf; [done |]. simpl.
  unfold mbind, M_bind. rewrite Hf by (apply elem_of_cons; by left).
  apply IH. intros b Hb. apply Hf, elem_of_cons. by right.
Qed.

Lemma descendants_mono d f r x :
  x ∈ descendants d f r → x ∈ descendants d (S f) r.
Proof.
  revert r. induction f as [|f IH]; intros r; [by intros ?%elem_of_nil |].
  change (descendants d (S (S f)) r)
    with (elems (kidsOf d r) ≫= λ c, c :: descendants d (S f) c).
  change (descendants d (S f) r)
    with (elems (kidsOf d r) ≫= λ c, c :: descendants d f c).
  intros (c & Hx & Hc)%list_elem_of_bind. apply list_elem_of_bind.
  exists c. split; [| done].
  apply elem_of_cons in Hx as [-> | Hx]; apply elem_of_cons; [by left |].
  right. by apply IH.
Qed.

Lemma descendants_mono_le d f f' r x :
  (f ≤ f')%nat → x ∈ descendants d f r → x ∈ descendants d f' r.
Proof. induction 1; [done |]. intros Hx. by apply descendants_mono, IHle. Qed.

Lemma descendants_kid d f r y x :
  y ∈ descendants d f r → Elem x ∈ kidsOf d y → x ∈ descendants d (S f) r.
Proof.
  revert r. induction f as [|f IH]; intros r; [by intros ?%elem_of_nil |].
  change (descendants d (S (S f)) r)
    with (elems (kidsOf d r) ≫= λ c, c :: descendants d (S f) c).
  change (descendants d (S f) r)
    with (elems (kidsOf d r) ≫= λ c, c :: descendants d f c).
  intros (c & Hy & Hc)%list_elem_of_bind Hx. apply list_elem_of_bind.
  exists c. split; [| done]. apply elem_of_cons. right.
  apply elem_of_cons in Hy as [-> | Hy]; [| by apply IH].
  change (descendants d (S f) c)
    with (elems (kidsOf d c) ≫= λ c, c :: descendants d f c).
  apply list_elem_of_bind. exists x. split.
  - apply elem_of_cons. by left.
  - by apply elem_of_elems.
Qed.

(** The traversal reaches every node below its root. *)
Lemma anc_descendants d r x :
  wf d → anc d r x → x ∈ descendants d (next d) r.
Proof.
  intros Hwf Hanc.
  assert (∃ f, x ∈ descendants d f r) as [f Hf].
  { induction Hanc as [x p Hp | x p a Hp Hap [f IH]].
    - exists 1%nat. simpl. apply list_elem_of_bind. exists x. split.
      + apply elem_of_cons. by left.
      + by apply elem_of_elems, (wf_parent_kid d Hwf).
    - exists (S f). apply (descendants_kid d f a p x); [done |].
      by apply (wf_parent_kid d Hwf). }
  rewrite <- (descendants_fuel d (f + next d) r) by (done || lia).
  apply (descendants_mono_le d f); [lia | done].
Qed.

Lemma are_rows_shape d index (trs : list nid) (data : list (list cell)) tr :
  are_rows d index trs data → tr ∈ trs →
  tagOf d tr = "tr" ∧
  ∀ c, Elem c ∈ kidsOf d tr →
    (tagOf d c = "th" ∨ tagOf d c = "td") ∧
    ∃ content row, row ∈ data ∧ content ∈ row ∧
                   kidsOf d c = cell_items content.
Proof.
  revert index data. induction trs as [|tr0 trs IH]; intros index [|row data];
    simpl; try tauto; [by intros _ ?%elem_of_nil |].
  intros [Hrow Hrows] [-> | Hin]%elem_of_cons.
  - destruct Hrow as [Htag (cs & Hk & Hcells)]. split; [done |].
    intros c Hc. rewrite Hk in Hc.
    apply list_elem_of_fmap in Hc as (c' & [= <-] & Hc').
    apply list_elem_of_lookup_1 in Hc' as [i Hi].
    destruct (Forall2_lookup_l _ _ _ _ _ Hcells Hi) as (content & Hcontent & Hcell).
    destruct Hcell as [Hct Hck]. split.
    + rewrite Hct. unfold cell_tag. case_decide; auto.
    + exists content, row. split_and!; [apply elem_of_cons; by left | | done].
      by eapply list_elem_of_lookup_2.
  - destruct (IH (S index) data Hrows Hin) as [Htag Hcs]. split; [done |].
    intros c Hc. destruct (Hcs c Hc) as [Ht (content & row' & Hr & Hcr & Hk)].
    split; [done |]. exists content, row'. split_and!; [| done | done].
    apply elem_of_cons. by right.
Qed.

(** The nodes of a table of strings carry the tags of a table, and its
    cells hold no element. *)
Lemma table_node_shape d t (data : list (list cell)) x :
  is_table d t data → data_elems data = [] → table_node d t x →
  tagOf d x ∈ ["table"; "tr"; "th"; "td"] ∧
  ((∃ tr, Elem tr ∈ kidsOf d t ∧ Elem x ∈ kidsOf d tr) →
   ∀ z, Elem z ∉ kidsOf d x).
Proof.
  intros [Htag (trs & Hk & Hrows)] HE Hx.
  assert (∀ tr, Elem tr ∈ kidsOf d t → tr ∈ trs) as Htrs.
  { intros tr Htr. rewrite Hk in Htr.
    by apply list_elem_of_fmap in Htr as (? & [= <-] & ?). }
  assert (∀ tr c, Elem tr ∈ kidsOf d t → Elem c ∈ kidsOf d tr →
            (tagOf d c = "th" ∨ tagOf d c = "td") ∧ ∀ z, Elem z ∉ kidsOf d c)
    as Hcell.
  { intros tr c Htr%Htrs Hc.
    destruct (are_rows_shape d 0 trs data tr Hrows Htr) as [_ Hcs].
    destruct (Hcs c Hc) as [Ht (content & row & Hr & Hcr & Hkc)].
    split; [done |]. intros z Hz. rewrite Hkc in Hz.
    assert (z ∈ data_elems data) as Hin.
    { unfold data_elems. apply list_elem_of_bind. exists row. split; [| done].
      unfold row_elems. apply list_elem_of_bind. exists content.
      split; [| done]. destruct content as [s | cs | c0]; simpl in *.
      - apply list_elem_of_singleton in Hz. done.
      - by apply list_elem_of_fmap in Hz as (? & [= <-] & ?).
      - apply list_elem_of_singleton in Hz as [= ->].
        by apply list_elem_of_singleton. }
    rewrite HE in Hin. by apply elem_of_nil in Hin. }
  split.
  - destruct Hx as [-> | [Hx | (tr & Htr & Hx)]].
    + rewrite Htag. apply elem_of_cons. by left.
    + destruct (are_rows_shape d 0 trs data x Hrows (Htrs x Hx)) as [-> _].
      apply elem_of_cons. right. apply elem_of_cons. by left.
    + destruct (Hcell tr x Htr Hx) as [[-> | ->] _]; by_compute.
  - intros (tr & Htr & Hxc). by destruct (Hcell tr x Htr Hxc).
Qed.

End Reach.

Section Again.
Context (d : dom) (Hwf : wf d) (done : list nid) (ρ : gmap nat nat) (d' : dom).
Context (Hinv : embeds_inv d done ρ d').
Implicit Types (x y a p e t : nid).

(** A found node that still has ancestors has the ancestors it had. *)
Lemma embeds_old_chain a x :
  (x < next d)%nat → anc d' a x → anc d a x ∧ ρ !! x = None.
Proof.
  destruct Hinv as (Hwf' & Hn & Hdom & Htabs & Hold).
  intros Hx Hanc. revert Hx.
  assert (∀ z q, (z < next d)%nat → parentOf d' z = Some q →
            ρ !! z = None ∧ parentOf d z = Some q) as Hpar.
  { intros z q Hz Hq. destruct (ρ !! z) as [t |] eqn:Hρ.
    - destruct (Htabs z t Hρ) as (_ & _ & _ & _ & Hnone). congruence.
    - split; [done |]. destruct (Hold z Hz) as (_ & _ & <-); done. }
  induction Hanc as [x p Hp | x p a Hp Hap IH]; intros Hx.
  - destruct (Hpar x p Hx Hp) as [Hρ Hp']. split; [by apply anc_parent | done].
  - destruct (Hpar x p Hx Hp) as [Hρ Hp'].
    destruct (wf_parent_lt d x p Hwf Hp') as [_ Hplt].
    destruct (IH Hplt) as [Hanc' _].
    split; [| done]. eapply anc_step; done.
Qed.

(** A created node below a found one is a node of one of the tables. *)
Lemma embeds_new_node a x :
  (a < next d)%nat → anc d' a x → (next d ≤ x)%nat →
  ∃ e t, ρ !! e = Some t ∧ table_node d' t x.
Proof.
  destruct Hinv as (Hwf' & Hn & Hdom & Htabs & Hold).
  assert (∀ p z, (p < next d)%nat → Elem z ∈ kidsOf d' p → (next d ≤ z)%nat →
            ∃ e, ρ !! e = Some z) as Hkid.
  { intros p z Hp Hz Hnew. destruct (Hold p Hp) as (_ & Hk & _).
    rewrite Hk in Hz. apply list_elem_of_fmap in Hz as ([s | e] & Heq & Hin);
      [done |].
    simpl in Heq. injection Heq as ->. exists e.
    destruct (ρ !! e) as [t |] eqn:Hρ; [done |]. simpl in Hnew.
    destruct (wf_kid_lt d e p Hwf Hin) as [He _]. lia. }
  intros Ha Hanc. revert Ha.
  induction Hanc as [x p Hp | x p a Hp Hap IH]; intros Ha Hx.
  - destruct (Hkid p x Ha) as [e He]; [by apply Hwf' | done |].
    exists e, x. split; [done | by left].
  - pose proof (wf_parent_kid d' Hwf' x p Hp) as Hxp.
    destruct (decide (p < next d)%nat) as [Hplt | Hpge].
    + destruct (Hkid p x Hplt) as [e He]; [done | done |].
      exists e, x. split; [done | by left].
    + destruct IH as (e & t & Hρ & Hnode); [done | lia |].
      exists e, t. split; [done |].
      destruct (Htabs e t Hρ) as (_ & Htab & _).
      destruct Hnode as [-> | [Hrow | Hcell]].
      * right. by left.
      * right. right. by exists p.
      * destruct (table_node_shape d' t (embedBlock d e) p Htab eq_refl)
          as [_ Hno]; [right; by right |].
        by destruct (Hno Hcell x).
Qed.

(** An iframe the first run leaves below the region was found by it and
    has no usable source. *)
Lemma embeds_left main x :
  (main < next d)%nat →
  done = querySelectorAll d main (ByTag "iframe") →
  x ∈ querySelectorAll d' main (ByTag "iframe") →
  x ∈ done ∧ truthy (embedSrc d' x) = false.
Proof.
  intros Hmain Hdone Hx.
  pose proof Hinv as (Hwf' & Hn & Hdom & Htabs & Hold).
  pose proof (querySelectorAll_anc d' main _ x Hwf' Hx) as Hanc.
  pose proof (querySelectorAll_matches d' main _ x Hx) as Htag.
  simpl in Htag. apply bool_decide_eq_true_1 in Htag.
  destruct (decide (x < next d)%nat) as [Hold_x | Hnew].
  - destruct (embeds_old_chain main x Hold_x Hanc) as [Hanc0 Hρ].
    destruct (Hold x Hold_x) as (Hlab & _).
    assert (x ∈ done) as Hin.
    { rewrite Hdone. unfold querySelectorAll. apply list_elem_of_filter. split.
      - simpl. destruct Hlab as (<- & _). by apply bool_decide_eq_true_2.
      - by apply anc_descendants. }
    split; [done |]. rewrite (embedSrc_same d d' x Hlab).
    destruct (truthy (embedSrc d x)) eqn:E; [| done].
    destruct (proj2 (Hdom x)) as [t Ht]; [done | congruence].
  - destruct (embeds_new_node main x Hmain Hanc) as (e & t & Hρ & Hnode); [lia |].
    destruct (Htabs e t Hρ) as (_ & Htab & _).
    destruct (table_node_shape d' t (embedBlock d e) x Htab eq_refl Hnode)
      as [Ht _].
    rewrite Htag in Ht. exfalso. revert Ht. by_compute.
Qed.

Lemma embeds_again main :
  (main < next d)%nat →
  done = querySelectorAll d main (ByTag "iframe") →
  createEmbeds main d' = Ok (tt, d').
Proof.
  intros Hmain Hdone.
  unfold createEmbeds. change (getDom ≫= ?k) with (λ d, k d d). cbv beta.
  apply forEach_noop. intros x Hx.
  destruct (embeds_left main x Hmain Hdone Hx) as [_ Hunusable].
  unfold embedToBlock. change (getDom ≫= ?k) with (λ d, k d d). cbv beta.
  by rewrite Hunusable.
Qed.

End Again.

(** The sources of the iframes below [main] hold no [<]: the markup of a
    link to such a source holds no element but the link, so that no cell
    of a block holds an iframe of its own. *)
Definition plain_sources (d : dom) (main : nid) : Prop :=
  ∀ embed, embed ∈ querySelectorAll d main (ByTag "iframe") →
    free_of "<" (default "" (getAttribute d embed "src")).

(** X12. On a page whose iframe sources hold no [<], the first run of
    [createEmbeds] leaves no iframe with a usable source below the
    main-content region, and running it a second time changes nothing. *)
Theorem createEmbeds_twice (d : dom) (main : nid) :
  wf d → plain_sources d main →
  ∃ d', createEmbeds main d = Ok (tt, d') ∧
        (∀ x, x ∈ querySelectorAll d' main (ByTag "iframe") →
              truthy (embedSrc d' x) = false) ∧
        createEmbeds main d' = Ok (tt, d').
Proof.
  intros Hwf _.
  pose proof (createEmbeds_inv d Hwf main) as H.
  apply wp_ok in H as ([] & d' & Hrun & ρ & Hinv).
  exists d'. split; [done |].
  destruct (decide (main < next d)%nat) as [Hmain | Hmain].
  - split; [| by apply (embeds_again d Hwf _ ρ d' Hinv main)].
    intros x Hx. by destruct (embeds_left d Hwf _ ρ d' Hinv main x).
  - assert (querySelectorAll d main (ByTag "iframe") = []) as Hnil.
    { unfold querySelectorAll.
      assert (descendants d (next d) main = []) as ->; [| done].
      destruct (wf_fresh d main Hwf) as (Hk & _); [lia |].
      destruct (next d) as [|n]; [done |]. simpl. by rewrite Hk. }
    unfold createEmbeds in Hrun.
    change (getDom ≫= ?k) with (λ d, k d d) in Hrun. cbv beta in Hrun.
    rewrite Hnil in Hrun. injection Hrun as <-. split.
    + intros x. rewrite Hnil. by intros ?%elem_of_nil.
    + unfold createEmbeds. change (getDom ≫= ?k) with (λ d, k d d). cbv beta.
      by rewrite Hnil.
Qed.

Lemma createEmbeds_twice_witness :
  ∃ d', createEmbeds 0 page_with_iframe = Ok (tt, d') ∧
        (∀ x, x ∈ querySelectorAll d' 0 (ByTag "iframe") →
              truthy (embedSrc d' x) = false) ∧
        createEmbeds 0 d' = Ok (tt, d').
Proof.
  apply createEmbeds_twice.
  - apply wf_check_sound. vm_compute. reflexivity.
  - intros embed Hin. vm_compute in Hin.
    apply elem_of_cons in Hin as [-> | Hin]; [by vm_compute |].
    apply elem_of_cons in Hin as [-> | Hin]; [by vm_compute |].
    by apply elem_of_nil in Hin.
Defined.

(** ** The hero step *)
Section Before.
Implicit Types (d : dom) (x y p q z ref new : nid) (ks : list item) (it : item).












End Before.

Section Hero.
Implicit Types (d : dom) (x y p hero title img : nid).

Lemma subst_item_same x (ks : list item) : subst_item x x ks = ks.
Proof.
  unfold subst_item. induction ks as [|it ks IH]; [done |]. csimpl.
  rewrite IH. by case_decide; subst.
Qed.

(** What [replaceBackgroundByImg] does to the tree around an element that
    has a parent. *)
Lemma replaceBackgroundByImg_frame d hero p :
  wf d → parentOf d hero = Some p →
  wp (replaceBackgroundByImg hero) d (λ img d1,
    wf d1 ∧ (next d ≤ next d1)%nat ∧ parentOf d1 img = Some p ∧
    (img = hero ∧ bgImageOf d hero = "" ∨
     img = next d ∧ bgImageOf d hero ≠ "" ∧ tagOf d1 img = "img") ∧
    kidsOf d1 p = subst_item hero img (kidsOf d p) ∧
    ∀ y, y ≠ img → y ≠ hero → parentOf d1 y = parentOf d y).
Proof.
  intros Hwf Hp. unfold replaceBackgroundByImg. apply wp_bind, wp_getDom.
  destruct (String.eqb_spec (bgImageOf d hero) "") as [Hbg | Hbg]; simpl.
  { apply wp_ret. split_and!; try done; [by left |].
    by rewrite subst_item_same. }
  destruct (wf_parent_lt d hero p Hwf Hp) as [Hhlt Hplt].
  apply wp_bind. unfold wp at 1, createElement.
  set (img := next d). set (d1 := alloc "img" d).
  apply wp_bind, wp_modify.
  set (d2 := setAttrs img _ d1).
  assert (img = next d) as Himg by done.
  assert (wf d2) as Hwf2.
  { apply wf_setAttrs; [by apply wf_alloc_pres | simpl; lia]. }
  assert (∀ y, parentOf d2 y = parentOf d y ∧ kidsOf d2 y = kidsOf d y) as Hsame.
  { intros y. unfold d2, d1. dom_simpl.
    by rewrite parentOf_alloc, kidsOf_alloc. }
  assert (tagOf d2 img = "img") as Htag.
  { unfold d2, d1. dom_simpl. by rewrite tagOf_alloc, decide_True. }
  destruct (wf_fresh d img Hwf) as (Hk & Hpi & _); [lia |].
  assert (parentOf d2 img = None) as Hpi2 by by rewrite (proj1 (Hsame img)).
  assert (¬ anc d2 img p) as Hanc.
  { apply childless_not_anc; [done |]. by rewrite (proj2 (Hsame img)), Hk. }
  apply wp_bind.
  apply (wp_replaceWith hero img p); [done | | lia | lia | done |].
  { by rewrite (proj1 (Hsame hero)). }
  apply wp_ret. split_and!.
  - apply wf_swap; try done; try lia.
    + by rewrite (proj1 (Hsame hero)).
    + simpl. lia.
  - rewrite next_swap. simpl. lia.
  - rewrite parentOf_swap, decide_True by done. done.
  - right. split_and!; [done | done |].
    by destruct (same_label_swap p hero img d2 img) as (-> & _).
  - rewrite kidsOf_swap, decide_True by done. by rewrite (proj2 (Hsame p)).
  - intros y Hyi Hyh. rewrite parentOf_swap by done.
    rewrite !decide_False by done. apply Hsame.
Qed.

(** If the inclusive ancestors of [x] keep their parents, [x] keeps its
    ancestors. *)
Lemma anc_kept d d' x :
  (∀ y, y = x ∨ anc d y x → parentOf d' y = parentOf d y) →
  ∀ a, anc d a x → anc d' a x.
Proof.
  intros Hsame a H. induction H as [x p Hp | x p a Hp Hap IH].
  - apply anc_parent. rewrite Hsame; auto.
  - assert (parentOf d' x = Some p) as Hp' by (rewrite Hsame; auto).
    eapply anc_step; [done |]. apply IH.
    intros y [-> | Hy]; apply Hsame; right.
    + by apply anc_parent.
    + eapply anc_trans; [done |]. by apply anc_parent.
Qed.

Lemma anc_child d a x p : parentOf d x = Some p → anc d a x ↔ a = p ∨ anc d a p.
Proof.
  intros Hp. split.
  - intros (q & Hq & Hor)%anc_inv. by assert (q = p) as -> by congruence.
  - intros [-> | Ha]; [by apply anc_parent | by eapply anc_step].
Qed.

End Hero.


(** A page whose banner comes before its title. *)
Definition page_with_hero : dom :=
  store_of
    [Node "#document" [] ∅ "" [Elem 1] None;
     Node "div" ["blogPostMain"] ∅ "" [Elem 2; Elem 3; Elem 4] (Some 0%nat);
     Node "div" ["blogPostBanner__img"] ∅ "url('/hero.png')" [] (Some 1%nat);
     Node "p" [] ∅ "" [Markup "text"] (Some 1%nat);
     Node "h1" [] ∅ "" [Markup "Cats"] (Some 1%nat)].


(** A banner that is the root element: the document takes no title beside
    it, with or without a background image. *)
Definition root_banner : dom :=
  store_of
    [Node "#document" [] ∅ "" [Elem 1] None;
     Node "html" ["blogPostBanner__img"] ∅ "" [Elem 2] (Some 0%nat);
     Node "body" [] ∅ "" [Elem 3] (Some 1%nat);
     Node "h1" [] ∅ "" [Markup "Cats"] (Some 2%nat)].

Example processHero_root_banner :
  processHero 0 root_banner = Throw HierarchyRequestError.
Proof. by vm_compute. Qed.

Example processHero_example :
  wp (processHero 0) page_with_hero (λ _ d',
    kidsOf d' 1 = [Elem 4; Elem 5; Elem 3] ∧ tagOf d' 5 = "img" ∧
    getAttribute d' 5 "src" = Some "/hero.png" ∧ parentOf d' 2 = None).
Proof. vm_compute. by repeat split. Qed.

(** X14. When the banner lies inside the title, the title cannot be put
    before it: the hero step throws a [HierarchyRequestError]. *)
Theorem processHero_banner_in_title (d : dom) (document hero title : nid) :
  wf d →
  querySelector d document (ByClass "blogPostBanner__img") = Some hero →
  querySelector d document (ByTag "h1") = Some title →
  title ≠ hero → is_inclusive_ancestor d title hero = true →
  processHero document d = Throw HierarchyRequestError.
Proof.
  intros Hwf Hhero Htitle Hne [? | Hanc]%(is_inclusive_ancestor_true d _ _ Hwf);
    [done |].
  pose proof (querySelector_anc d document _ hero Hwf Hhero) as Hah.
  destruct (anc_inv d document hero Hah) as (p & Hp & _).
  rewrite (anc_child d title hero p Hp) in Hanc.
  assert (∀ y, y = p ∨ anc d y p → y ≠ hero ∧ (y < next d)%nat) as Hway.
  { intros y Hy. split.
    - intros ->. apply (wf_acyclic d Hwf hero).
      by apply (anc_child d hero hero p).
    - destruct Hy as [-> | Hy]; [by apply (wf_parent_lt d hero p) |].
      by apply (anc_lt d y p). }
  pose proof (replaceBackgroundByImg_frame d hero p Hwf Hp) as Hwp.
  apply wp_ok in Hwp as (img & d1 & Hrun & Hwf1 & Hn1 & Hpi & Himg & Hk1 & Hpar1).
  unfold processHero. change (getDom ≫= ?k) with (λ d, k d d). cbv beta.
  rewrite Hhero, Htitle. unfold mbind, M_bind. rewrite Hrun.
  unfold before. rewrite Hpi.
  rewrite (proj2 (is_inclusive_ancestor_true d1 title p Hwf1)); [done |].
  destruct Hanc as [-> | Hanc]; [by left | right].
  revert Hanc. apply anc_kept.
  intros y Hy. destruct (Hway y Hy) as [Hyh Hylt]. apply Hpar1; [| done].
  destruct Himg as [[-> _] | [-> _]]; [done | lia].
Qed.

(** A page whose banner is inside its title. *)
Definition page_hero_in_title : dom :=
  store_of
    [Node "#document" [] ∅ "" [Elem 1] None;
     Node "h1" [] ∅ "" [Markup "Cats"; Elem 2] (Some 0%nat);
     Node "div" ["blogPostBanner__img"] ∅ "url('/hero.png')" [] (Some 1%nat)].

Lemma processHero_banner_in_title_witness :
  processHero 0 page_hero_in_title = Throw HierarchyRequestError.
Proof.
  apply (processHero_banner_in_title page_hero_in_title 0 2 1).
  - apply wf_check_sound. vm_compute. reflexivity.
  - by vm_compute.
  - by vm_compute.
  - lia.
  - by vm_compute.
Defined.

(** ** What the block builders keep *)
Section RelatedTree.
Context (d : dom) (Hwf : wf d).

Lemma createRelatedPostsBlock_tree main document :
  (main < next d)%nat → main ∉ relatedLinks d document →
  wp (createRelatedPostsBlock main document) d (λ _ d', tree_kept d d').
Proof.
  intros Hmain Hnot. unfold createRelatedPostsBlock.
  apply wp_bind, wp_getDom. fold (relatedLinks d document).
  set (related := relatedLinks d document) in *.
  cbn [nodeList_truthy]. apply wp_bind. eapply wp_mono.
  { apply (relatedRows_spec d related [] _ d).
    - intros r Hr. unfold related, relatedLinks in Hr.
      by destruct (anc_lt d document r Hwf (querySelectorAll_anc _ _ _ _ Hwf Hr)).
    - intros r _. apply not_elem_of_nil.
    - by apply querySelectorAll_nodup.
    - split_and!; [done | done | done | by intros r ?%elem_of_nil | done]. }
  intros cells dR [-> (HwfR & HnR & Hlab & Hdone & Hrest)]. simpl in *.
  fold (relatedBlock related).
  assert (∀ r, r ∈ related → (r < next d)%nat) as Hlt.
  { intros r Hr. unfold related, relatedLinks in Hr.
    by destruct (anc_lt d document r Hwf (querySelectorAll_anc _ _ _ _ Hwf Hr)). }
  apply wp_bind. eapply wp_mono.
  { apply (createTable_spec (relatedBlock related) dR HwfR).
    - rewrite data_elems_relatedBlock. by apply querySelectorAll_nodup.
    - rewrite data_elems_relatedBlock. intros r Hr%Hlt. lia. }
  intros t d1 (-> & Hb & Htab & Hpt & [Ht _]).
  rewrite data_elems_relatedBlock in Hb.
  pose proof (bt_wf dR related d1 Hb) as Hwf1.
  pose proof (bt_next dR related d1 Hb) as Hn1.
  assert (¬ anc d1 (next dR) main) as Hanc.
  { apply (built_not_anc_new dR d1 related HwfR Hb); [lia | lia |].
    intros y [-> | Hy]; [done |]. intros Hin.
    apply (childless_not_anc dR y main HwfR); [| done].
    by rewrite (Hdone y Hin). }
  apply wp_append; [done | lia | done |].
  split_and!.
  - apply wf_adopt; try done; lia.
  - rewrite next_adopt. lia.
  - intros y Hy. eapply same_label_trans; [apply Hlab |].
    eapply same_label_trans; [apply (bt_label dR related d1 Hb); lia |].
    apply same_label_adopt.
Qed.

End RelatedTree.

(** X15. The three block builders return a store that is still a tree; they
    drop no node, and the nodes of the page keep their tag, classes,
    attributes and style.  For the related posts the main-content region
    must not be one of the links. *)
Theorem builders_keep_the_tree `{Host} (d : dom) (main document : nid) :
  wf d → (main < next d)%nat →
  bool_decide (main ∈ relatedLinks d document) = false →
  wp (createRelatedPostsBlock main document) d (λ _ d', tree_kept d d') ∧
  wp (createEmbeds main) d (λ _ d', tree_kept d d') ∧
  wp (createCallouts main) d (λ _ d', tree_kept d d').
Proof.
  intros Hwf Hmain Hnot%bool_decide_eq_false_1. split_and!.
  - by apply createRelatedPostsBlock_tree.
  - eapply wp_mono; [by apply createEmbeds_inv |].
    intros [] d' (ρ & Hwf' & Hn & _ & _ & Hold). split_and!; [done | done |].
    intros y Hy. by destruct (Hold y Hy).
  - by destruct (createCallouts_runs d main Hwf) as (Hwp & _).
Qed.

Lemma builders_keep_the_tree_witness :
  wp (createRelatedPostsBlock 1 0) page_with_links
    (λ _ d', tree_kept page_with_links d') ∧
  wp (createEmbeds 1) page_with_links (λ _ d', tree_kept page_with_links d') ∧
  wp (createCallouts (H := bare_host) 1) page_with_links
    (λ _ d', tree_kept page_with_links d').
Proof.
  apply (builders_keep_the_tree (H := bare_host)).
  - apply wf_check_sound. vm_compute. reflexivity.
  - vm_compute. lia.
  - by vm_compute.
Defined.

(** X16. The title of the map holds no line break and no tabulation, and it
    is the markup of the [title] element itself when that markup holds
    none. *)
Theorem metadata_title_on_one_line `{Host} (d : dom) (main document title : nid) :
  date_is_meta d document = true →
  querySelector d document (ByTag "title") = Some title →
  wp (metadataFields main document) d (λ meta _,
    ∃ s, obj_get meta "Title" = Some (VString s) ∧
         JsString.test_class nl_or_tab s = false ∧
         (JsString.test_class nl_or_tab (innerHTML d title) = false →
          s = innerHTML d title)).
Proof.
  intros Hm Hq. unfold wp. rewrite metadataFields_eq by done.
  destruct (metaOf_spec d main document (next d)) as (-> & _).
  rewrite Hq. eexists. split; [done |]. split.
  - induction (innerHTML d title) as [|c s IH]; [done |]. simpl.
    destruct (nl_or_tab c) eqn:Hc; [done |]. simpl. by rewrite Hc.
  - apply remove_chars_absent.
Qed.

Lemma metadata_title_on_one_line_witness :
  wp (metadataFields (H := bare_host) 6 0) page_with_image (λ meta _,
    ∃ s, obj_get meta "Title" = Some (VString s) ∧
         JsString.test_class nl_or_tab s = false ∧
         (JsString.test_class nl_or_tab
            (innerHTML (Host := bare_host) page_with_image 5) = false →
          s = innerHTML (Host := bare_host) page_with_image 5)).
Proof.
  apply (metadata_title_on_one_line (H := bare_host)).
  - by vm_compute.
  - by vm_compute.
Defined.

(** ** Tables whose cells repeat an element *)
Section Returns.
Context (d0 : dom).
Implicit Types (dk : dom) (t tr table c e y : nid) (roots : list nid).

Lemma root_not_below dk r c :
  parentOf dk r = None → ¬ anc dk c r.
Proof. intros Hr (q & Hq & _)%anc_inv. congruence. Qed.

(** Hanging a found element below a created node that has no parent. *)
Lemma building_append roots dk t c :
  building d0 roots dk → t ∈ roots → (c < next d0)%nat →
  wp (append t c) dk (λ _ dk', building d0 roots dk').
Proof.
  intros (Hwfk & Hn & Hroots) Ht Hc.
  destruct (Hroots t Ht) as [Htr Hpt].
  apply wp_append; [done | lia | by apply root_not_below |].
  split_and!.
  - apply wf_adopt; try done; try lia. by apply root_not_below.
  - rewrite next_adopt. lia.
  - intros r Hr. destruct (Hroots r Hr) as [Hrr Hpr].
    rewrite next_adopt, parentOf_adopt. split; [done |].
    rewrite decide_False by lia. done.
Qed.

Lemma building_fillCell roots dk t (content : cell) :
  building d0 roots dk → t ∈ roots → kidsOf dk t = [] →
  (∀ e, e ∈ cell_elems content → (e < next d0)%nat) →
  wp (fillCell t content) dk (λ _ dk', building d0 roots dk').
Proof.
  intros Hb Ht Hkt Hold. destruct content as [s | cs | c]; simpl.
  - destruct Hb as (Hwfk & Hn & Hroots). destruct (Hroots t Ht) as [Htr Hpt].
    apply wp_modify. split_and!.
    + apply wf_rewrite_markup; [done | lia].
    + rewrite next_rewrite_markup. lia.
    + intros r Hr. destruct (Hroots r Hr) as [Hrr Hpr].
      rewrite next_rewrite_markup, parentOf_rewrite_markup, Hkt.
      split; [done |]. rewrite decide_False by apply not_elem_of_nil. done.
  - apply (wp_forEach _ (λ _ dk', building d0 roots dk')); [done |].
    intros done c rest dk' Hcs Hb'. apply building_append; [done | done |].
    apply Hold. simpl. rewrite Hcs. apply elem_of_app. right.
    apply elem_of_cons. by left.
  - apply building_append; [done | done |]. apply Hold.
    simpl. by apply list_elem_of_singleton.
Qed.

(** Creating a node adds a root. *)
Lemma building_alloc roots dk (tg : string) :
  building d0 roots dk →
  building d0 (next dk :: roots) (alloc tg dk) ∧ kidsOf (alloc tg dk) (next dk) = [].
Proof.
  intros (Hwfk & Hn & Hroots).
  destruct (wf_fresh dk (next dk) Hwfk) as (Hk & Hp & _); [done |].
  split; [split_and! |].
  - by apply wf_alloc_pres.
  - simpl. lia.
  - intros r [-> | Hr]%elem_of_cons.
    + simpl. split; [lia |]. by rewrite parentOf_alloc.
    + destruct (Hroots r Hr) as [Hrr Hpr]. simpl. split; [lia |].
      by rewrite parentOf_alloc.
  - by rewrite kidsOf_alloc.
Qed.

(** Hanging a root below another root: the first one is a root no more. *)
Lemma building_appendChild roots dk p c :
  building d0 (c :: roots) dk → p ∈ roots → c ∉ roots →
  wp (appendChild p c) dk (λ _ dk', building d0 roots dk').
Proof.
  intros (Hwfk & Hn & Hroots) Hp Hc.
  destruct (Hroots p) as [Hpr Hpp]; [apply elem_of_cons; by right |].
  destruct (Hroots c) as [Hcr Hpc]; [apply elem_of_cons; by left |].
  assert (c ≠ p) as Hne by (by intros ->).
  unfold appendChild.
  apply wp_append; [done | done | by apply root_not_below |].
  split_and!.
  - apply wf_adopt; try done; try lia. by apply root_not_below.
  - rewrite next_adopt. lia.
  - intros r Hr. destruct (Hroots r) as [Hrr Hprr]; [apply elem_of_cons; by right |].
    rewrite next_adopt, parentOf_adopt. split; [done |].
    rewrite decide_False; [done |]. by intros ->.
Qed.

Lemma building_fresh roots dk :
  building d0 roots dk → next dk ∉ roots.
Proof.
  intros (_ & _ & Hroots) Hin. destruct (Hroots _ Hin). lia.
Qed.

Lemma building_addCell roots dk index tr (content : cell) :
  building d0 roots dk → tr ∈ roots →
  (∀ e, e ∈ cell_elems content → (e < next d0)%nat) →
  wp (addCell index tr content) dk (λ _ dk', building d0 roots dk').
Proof.
  intros Hb Htr Hold. unfold addCell.
  apply wp_bind. unfold wp at 1, createElement.
  destruct (building_alloc roots dk
              (if decide (index = 0%nat) then "th" else "td") Hb) as [Hb1 Hk1].
  apply wp_bind. eapply wp_mono.
  { apply (building_fillCell (next dk :: roots) _ (next dk) content);
      [done | apply elem_of_cons; by left | done | done]. }
  intros [] d2 Hb2. apply building_appendChild; [done | done |].
  by apply building_fresh.
Qed.

Lemma building_addRow roots dk table (row : list cell) index :
  building d0 roots dk → table ∈ roots →
  (∀ e, e ∈ row_elems row → (e < next d0)%nat) →
  wp (addRow table row index) dk (λ _ dk', building d0 roots dk').
Proof.
  intros Hb Htable Hold. unfold addRow.
  apply wp_bind. unfold wp at 1, createElement.
  destruct (building_alloc roots dk "tr" Hb) as [Hb1 _].
  pose proof (building_fresh roots dk Hb) as Hfresh.
  apply wp_bind. eapply wp_mono.
  { apply (wp_forEach _ (λ _ dk', building d0 (next dk :: roots) dk')); [done |].
    intros done content rest dk' Hrow Hb'.
    apply building_addCell; [done | apply elem_of_cons; by left |].
    intros e He. apply Hold. unfold row_elems. rewrite Hrow.
    apply list_elem_of_bind. exists content. split; [done |].
    apply elem_of_app. right. apply elem_of_cons. by left. }
  intros [] d2 Hb2. by apply building_appendChild.
Qed.

Lemma building_createTable (data : list (list cell)) :
  wf d0 →
  (∀ e, e ∈ data_elems data → (e < next d0)%nat) →
  wp (createTable data) d0 (λ t d',
    t = next d0 ∧ wf d' ∧ (next d0 < next d')%nat ∧ parentOf d' t = None).
Proof.
  intros Hwf Hold. unfold createTable.
  apply wp_bind. unfold wp at 1, createElement.
  assert (building d0 [] d0) as Hb0.
  { split_and!; [done | done |]. by intros r ?%elem_of_nil. }
  destruct (building_alloc [] d0 "table" Hb0) as [Hb1 _].
  apply wp_bind. eapply wp_mono.
  { apply (wp_forEachi _ (λ _ dk', building d0 [next d0] dk')); [done |].
    intros done row rest dk' Hdata Hb'.
    apply building_addRow; [done | by apply list_elem_of_singleton |].
    intros e He. apply Hold. unfold data_elems. rewrite Hdata.
    apply list_elem_of_bind. exists row. split; [done |].
    apply elem_of_app. right. apply elem_of_cons. by left. }
  intros [] d' (Hwf' & Hn & Hroots). apply wp_ret.
  destruct (Hroots (next d0)) as [Hr Hp]; [by apply list_elem_of_singleton |].
  split_and!; [done | done | lia | done].
Qed.

End Returns.

(** X17. [createTable] never throws when the elements of the cells are
    nodes of a well-formed store, also when an element is given several
    times: it returns a new table without a parent, in a store that is
    still a tree. *)
Theorem createTable_always_returns (data : list (list cell)) (d : dom) :
  wf d →
  (∀ e, e ∈ data_elems data → (e < next d)%nat) →
  ∃ t d',
    createTable data d = Ok (t, d') ∧
    t = next d ∧ wf d' ∧ (next d < next d')%nat ∧ parentOf d' t = None.
Proof.
  intros Hwf Hold.
  pose proof (building_createTable d data Hwf Hold) as Hwp.
  apply wp_ok in Hwp as (t & d' & Hrun & H). by exists t, d'.
Qed.

Lemma createTable_always_returns_witness :
  ∃ t d',
    createTable [[CNode 0%nat; CNode 0%nat]] three_links = Ok (t, d') ∧
    t = next three_links ∧ wf d' ∧ (next three_links < next d')%nat ∧
    parentOf d' t = None.
Proof.
  apply createTable_always_returns.
  - apply wf_check_sound. vm_compute. reflexivity.
  - intros e He. vm_compute in He. vm_compute.
    apply elem_of_cons in He as [-> | He]; [lia |].
    apply elem_of_cons in He as [-> | He]; [lia |].
    by apply elem_of_nil in He.
Defined.

(** ** What the block of a callout holds *)

Lemma bare_host_reads_found : reads_found (H := bare_host).
Proof.
  intros d dr x Hb Hx. simpl. by rewrite (built_nil_kids d dr x Hb Hx).
Qed.

(** X20. In each run of the body of [createCallouts], on a host that reads
    the nodes found from the nodes found: when the callout has a heading
    text, the first child of the container is an [h3] whose markup is the
    text content of that element, as the run finds it; when it has a
    subheading, the last child of the container is a [p] whose markup is
    the inner markup of the subheading. *)
Theorem callout_block_content `{Host} (d : dom) (main : nid) :
  wf d → reads_found →
  ∀ callout dk, (callout, dk) ∈ calloutRuns d main →
    ∃ dk' hs,
      calloutToBlock callout dk = Ok (tt, dk') ∧
      kidsOf dk' (next dk) = Elem <$> hs ∧
      (∀ ft, querySelector dk callout (ByClass "blogPostContent__ctaText") = Some ft →
             ∃ h, head hs = Some h ∧ tagOf dk' h = "h3" ∧
                  kidsOf dk' h = [Markup (textContent dk ft)]) ∧
      (∀ sub,
         querySelector dk callout (ByClass "blogPostContent__ctaSubheading") = Some sub →
         ∃ h, last hs = Some h ∧ tagOf dk' h = "p" ∧
              kidsOf dk' h = [Markup (innerHTML dk sub)]).
Proof.
  intros Hwf Hlaw callout dk Hin.
  destruct (createCallouts_runs d main Hwf) as (_ & _ & Hruns).
  destruct (Hruns callout dk Hin) as (Hc & Hwfk & Hn & _).
  assert (callout < next dk)%nat as Hck by lia.
  pose proof (calloutToBlock_full dk Hwfk callout Hck) as Hwp.
  apply wp_ok in Hwp
    as ([] & dk' & Hrunk & _ & _ & _ & t & hs & _ & _ & Hk & Htags & _ & _ & Hft & Hsub & _).
  exists dk', hs. split_and!; [done | done | |].
  - intros ft Hq. destruct (Hft ft Hq) as (h & dr & Hh & Hbr & Hkh).
    pose proof (querySelector_anc dk callout _ ft Hwfk Hq) as Hanc.
    destruct (anc_lt dk callout ft Hwfk Hanc) as [_ Hlt].
    destruct (Hlaw dk dr ft Hbr Hlt) as [Htext _].
    exists h. split_and!; [done | | by rewrite <- Htext].
    unfold containerTags in Htags. rewrite Hq in Htags.
    destruct hs as [|h' hs']; [done |]. simpl in Hh. injection Hh as ->.
    simpl in Htags. by injection Htags as -> _.
  - intros sub Hq. destruct (Hsub sub Hq) as (h & dr & Hh & Hbr & Hkh).
    pose proof (querySelector_anc dk callout _ sub Hwfk Hq) as Hanc.
    destruct (anc_lt dk callout sub Hwfk Hanc) as [_ Hlt].
    destruct (Hlaw dk dr sub Hbr Hlt) as [_ Hmark].
    exists h. split_and!; [done | | by rewrite <- Hmark].
    unfold containerTags in Htags. rewrite Hq in Htags.
    apply (f_equal last) in Htags. rewrite fmap_last, last_snoc, Hh in Htags.
    simpl in Htags. by injection Htags as ->.
Qed.

Lemma callout_block_content_witness :
  (1%nat, page_with_callout) ∈ calloutRuns (H := bare_host) page_with_callout 0 ∧
  ∃ dk' hs,
    calloutToBlock (H := bare_host) 1 page_with_callout = Ok (tt, dk') ∧
    kidsOf dk' (next page_with_callout) = Elem <$> hs ∧
    (∀ ft, querySelector page_with_callout 1 (ByClass "blogPostContent__ctaText")
           = Some ft →
           ∃ h, head hs = Some h ∧ tagOf dk' h = "h3" ∧
                kidsOf dk' h =
                  [Markup (textContent (Host := bare_host) page_with_callout ft)]) ∧
    (∀ sub,
       querySelector page_with_callout 1 (ByClass "blogPostContent__ctaSubheading")
       = Some sub →
       ∃ h, last hs = Some h ∧ tagOf dk' h = "p" ∧
            kidsOf dk' h =
              [Markup (innerHTML (Host := bare_host) page_with_callout sub)]).
Proof.
  assert ((1%nat, page_with_callout)
          ∈ calloutRuns (H := bare_host) page_with_callout 0) as Hin.
  { unfold calloutRuns.
    replace (querySelectorAll page_with_callout 0
               (ByClass "blogPostContent__ctaContainer")) with [1%nat]
      by by vm_compute.
    simpl. apply list_elem_of_here. }
  split; [exact Hin |].
  apply (callout_block_content (H := bare_host) page_with_callout 0).
  - apply wf_check_sound. vm_compute. reflexivity.
  - exact bare_host_reads_found.
  - exact Hin.
Defined.

(** A heading text that holds formatting: on a host whose text is the
    markup runs below a node, the heading of the block holds the text
    without the formatting element. *)
Definition page_callout_formatted : dom :=
  store_of
    [Node "div" ["blogPostMain"] ∅ "" [Elem 1] None;
     Node "div" ["blogPostContent__ctaContainer"] ∅ "" [Elem 2] (Some 0%nat);
     Node "span" ["blogPostContent__ctaText"] ∅ "" [Elem 3; Markup " it"]
       (Some 1%nat);
     Node "b" [] ∅ "" [Markup "Try"] (Some 2%nat)].

Example callout_heading_is_text :
  wp (createCallouts (H := text_host) 0) page_callout_formatted (λ _ d',
    kidsOf d' 4 = [Elem 5] ∧ tagOf d' 5 = "h3" ∧
    kidsOf d' 5 = [Markup "Try it"] ∧ kidsOf d' 2 = [Elem 3; Markup " it"]).
Proof. vm_compute. by repeat split. Qed.
